(** * cache-warmer: state store, rate limiter, Retry-After and sitemap collector

    A shallow embedding of the warming engine of [cache-warmer.go] (the
    variant with the adaptive rate limiter) and the properties its
    specification states about it.

    Conventions of the embedding:
    - a Go [int], [int64] or [time.Duration] is a [Z]; where the source
      computes on 64 bits the wrap-around is written out with [wrap64];
    - a [time.Time] is the number of nanoseconds since the Unix epoch (a
      [Z]); [time.Now()] is an explicit argument [now];
    - a Go [string] or [[]byte] is a [string] (a list of 8-bit characters);
    - an SQLite table with a primary key is a [gmap] from the key to the row,
      a nullable column is an [option];
    - the functions of Go's standard library that the source calls
      ([strings.TrimSpace], [strconv.Atoi], [time.Parse], [Time.Format],
      [xml.Unmarshal]) are the fields of the class [GoLib]; the theorems hold
      for every instance, and [go_model] is an executable instance on which
      the examples are evaluated;
    - a query fails only where [Scan] meets NULL; failures of the disk or
      of the connection are not modelled;
    - logging and lock/unlock pairs are left out: every modelled method runs
      under its mutex from start to end;
    - a [float64] is a primitive float of Rocq (binary64);
    - what a worker, a fetch or a wait meets (the context, the network, the
      load, the other workers) is a function of the events so far, or a
      list of views, one for each pass of a loop that waits. *)

From Stdlib Require Import ZArith Lia Ascii String List.
From Stdlib Require PrimFloat FloatOps FloatAxioms.
From stdpp Require Import gmap strings list fin_maps.

(* [set_solver] clears hypotheses by name; the note it prints when one is
   already gone is of no use here. *)
#[local] Set Warnings "-clear-no-such-hyp".

Local Open Scope Z_scope.

(* ===================================================================== *)
(** ** 64-bit integers and durations *)
(* ===================================================================== *)

Definition min_int64 : Z := - 2 ^ 63.
Definition max_int64 : Z := 2 ^ 63 - 1.

(** Two's complement wrap-around of a 64-bit signed result. *)
Definition wrap64 (z : Z) : Z := (z + 2 ^ 63) mod 2 ^ 64 - 2 ^ 63.

(** Saturation, as [Time.Sub] does it. *)
Definition clamp64 (z : Z) : Z := Z.max min_int64 (Z.min max_int64 z).

(** [time.Second], [time.Hour] (in nanoseconds). *)
Definition Second : Z := 1000000000.
Definition Hour : Z := 3600 * Second.

(** [time.Duration(n) * time.Second] *)
Definition seconds (n : Z) : Z := wrap64 (n * Second).

(** [time.Duration(n) * time.Hour] *)
Definition hours (n : Z) : Z := wrap64 (n * Hour).

(** [t.Sub(u)]: the difference, saturated to the range of a Duration. *)
Definition time_Sub (t u : Z) : Z := clamp64 (t - u).

(** [time.Since(t)] and [time.Until(t)] at the instant [now]. *)
Definition time_Since (now t : Z) : Z := time_Sub now t.
Definition time_Until (now t : Z) : Z := time_Sub t now.

(** [t.Add(d)]: a Time counts seconds on 64 bits from year 1, so adding a
    Duration to a wall-clock instant does not overflow. *)
Definition time_Add (t d : Z) : Z := t + d.

(** [time.Time{}]: January 1, year 1, 00:00:00 UTC. *)
Definition time_zero : Z := - 62135596800 * Second.

(** [t] cut down to a whole number of seconds. *)
Definition truncate_seconds (t : Z) : Z := t / Second * Second.

(* ===================================================================== *)
(** ** Results of fallible calls *)
(* ===================================================================== *)

Inductive error : Type :=
  | ErrScanNull            (* Scan: converting NULL to a Go value *)
  | ErrContext             (* ctx.Err() *)
  | ErrFetch (msg : string) (* what fetchBytes returns on failure *).

Inductive result (A : Type) : Type :=
  | Ok (a : A)
  | Err (e : error).
Arguments Ok {A} a.
Arguments Err {A} e.

(* ===================================================================== *)
(** ** Sitemap documents *)
(* ===================================================================== *)

(** The structs [xml.Unmarshal] fills. The [XMLName] fields only fix the name
    of the root element and carry no data the program reads. *)
Record SitemapURL := { url_Loc : string }.
Record SitemapIndex := { idx_Loc : string }.
Record Sitemap := { URLs : list SitemapURL; Sitemap_ : list SitemapIndex }.
Record SitemapIndexRoot := { Sitemaps : list SitemapIndex }.

(* ===================================================================== *)
(** ** The part of Go's standard library the source calls *)
(* ===================================================================== *)

Class GoLib := {
  (** [strings.TrimSpace] *)
  strings_TrimSpace : string -> string;
  (** [strconv.Atoi]; [None] is a non-nil error *)
  strconv_Atoi : string -> option Z;
  (** [t.UTC().Format(time.RFC3339)] *)
  time_Format_RFC3339 : Z -> string;
  (** [time.Parse(time.RFC3339, s)] *)
  time_Parse_RFC3339 : string -> option Z;
  (** [time.Parse(time.RFC1123, s)] *)
  time_Parse_RFC1123 : string -> option Z;
  (** [xml.Unmarshal(data, &idx)] with [idx : SitemapIndexRoot] *)
  xml_Unmarshal_SitemapIndexRoot : string -> option SitemapIndexRoot;
  (** [xml.Unmarshal(data, &urlset)] with [urlset : Sitemap] *)
  xml_Unmarshal_Sitemap : string -> option Sitemap;
  (** nothing is left of the empty string *)
  TrimSpace_empty : strings_TrimSpace ""%string = ""%string;
  (** a string [strconv.Atoi] accepts (a sign and decimal digits) is not an
      RFC 1123 date (which starts with the name of a weekday) *)
  Atoi_not_RFC1123 :
    forall s n, strconv_Atoi s = Some n -> time_Parse_RFC1123 s = None
}.

(* ===================================================================== *)
(** ** Executable models of the library functions *)
(* ===================================================================== *)

(** The functions [go_model] is made of. They cover the inputs the program
    itself produces and the usual sitemap documents: ASCII white space,
    decimal integers on 64 bits, RFC 3339 timestamps of the years 0000 to
    9999, RFC 1123 dates in GMT or UTC, and XML made of elements, text and
    the five predefined entities. No theorem below depends on them but the
    ones that evaluate the program on a concrete input. *)
Module GoModel.

Definition is_space (a : ascii) : bool :=
  let n := N_of_ascii a in
  ((9 <=? n)%N && (n <=? 13)%N) || (n =? 32)%N.

Fixpoint trim_left (l : list ascii) : list ascii :=
  match l with
  | a :: l' => if is_space a then trim_left l' else l
  | [] => []
  end.

Definition TrimSpace (s : string) : string :=
  string_of_list_ascii
    (rev (trim_left (rev (trim_left (list_ascii_of_string s))))).

Definition digit (a : ascii) : option Z :=
  let n := Z.of_N (N_of_ascii a) in
  if (48 <=? n) && (n <=? 57) then Some (n - 48) else None.

Fixpoint number_acc (acc : Z) (l : list ascii) : option Z :=
  match l with
  | [] => Some acc
  | a :: l' =>
      match digit a with
      | Some d => number_acc (10 * acc + d) l'
      | None => None
      end
  end.

(** A non-empty run of decimal digits. *)
Definition number (l : list ascii) : option Z :=
  match l with
  | [] => None
  | _ => number_acc 0 l
  end.

Definition in_int64 (z : Z) : option Z :=
  if (min_int64 <=? z) && (z <=? max_int64) then Some z else None.

Definition Atoi (s : string) : option Z :=
  match list_ascii_of_string s with
  | a :: ds =>
      if Ascii.eqb a "+" then n ← number ds; in_int64 n
      else if Ascii.eqb a "-" then n ← number ds; in_int64 (- n)
      else n ← number (a :: ds); in_int64 n
  | [] => None
  end.

(** Days since 1970-01-01 of a date of the proleptic Gregorian calendar, and
    back. *)
Definition days_from_civil (y m d : Z) : Z :=
  let y := if m <=? 2 then y - 1 else y in
  let era := y / 400 in
  let yoe := y - era * 400 in
  let doy := (153 * (if 2 <? m then m - 3 else m + 9) + 2) / 5 + d - 1 in
  let doe := yoe * 365 + yoe / 4 - yoe / 100 + doy in
  era * 146097 + doe - 719468.

Definition civil_from_days (z : Z) : Z * Z * Z :=
  let z := z + 719468 in
  let era := z / 146097 in
  let doe := z - era * 146097 in
  let yoe := (doe - doe / 1460 + doe / 36524 - doe / 146096) / 365 in
  let doy := doe - (365 * yoe + yoe / 4 - yoe / 100) in
  let mp := (5 * doy + 2) / 153 in
  let d := doy - (153 * mp + 2) / 5 + 1 in
  let m := if mp <? 10 then mp + 3 else mp - 9 in
  let y := yoe + era * 400 in
  (if m <=? 2 then y + 1 else y, m, d).

Definition is_leap (y : Z) : bool :=
  (y mod 4 =? 0) && (negb (y mod 100 =? 0) || (y mod 400 =? 0)).

Definition days_in_month (y m : Z) : Z :=
  if m =? 2 then (if is_leap y then 29 else 28)
  else if (m =? 4) || (m =? 6) || (m =? 9) || (m =? 11) then 30
  else 31.

Definition digit_char (d : Z) : ascii := ascii_of_N (Z.to_N (48 + d mod 10)).
Definition pad2 (n : Z) : list ascii := [digit_char (n / 10); digit_char n].
Definition pad4 (n : Z) : list ascii :=
  [digit_char (n / 1000); digit_char (n / 100); digit_char (n / 10);
   digit_char n].

Definition Format_RFC3339 (t : Z) : string :=
  let secs := t / Second in
  let sod := secs mod 86400 in
  let '(y, m, d) := civil_from_days (secs / 86400) in
  string_of_list_ascii
    (pad4 y ++ "-"%char :: pad2 m ++ "-"%char :: pad2 d ++ "T"%char ::
     pad2 (sod / 3600) ++ ":"%char :: pad2 (sod mod 3600 / 60) ++
     ":"%char :: pad2 (sod mod 60) ++ ["Z"%char]).

(** The instant of a checked calendar date and time of day, in seconds. *)
Definition civil_seconds (y mo d h mi s : Z) : option Z :=
  if (1 <=? mo) && (mo <=? 12) && (1 <=? d) && (d <=? days_in_month y mo)
     && (h <? 24) && (mi <? 60) && (s <? 60)
  then Some (days_from_civil y mo d * 86400 + h * 3600 + mi * 60 + s)
  else None.

Fixpoint take_digits (l : list ascii) : list ascii * list ascii :=
  match l with
  | a :: l' =>
      match digit a with
      | Some _ => let '(ds, r) := take_digits l' in (a :: ds, r)
      | None => ([], l)
      end
  | [] => ([], [])
  end.

(** An optional fraction of a second: its nanoseconds and what follows. *)
Definition fraction (l : list ascii) : option (Z * list ascii) :=
  match l with
  | a :: l' =>
      if Ascii.eqb a "." then
        let '(ds, r) := take_digits l' in
        n ← number (take 9 (ds ++ replicate 9 "0"%char));
        Some (n, r)
      else Some (0, l)
  | [] => Some (0, l)
  end.

(** The zone of an RFC 3339 timestamp, in seconds east of UTC. *)
Definition zone_offset (l : list ascii) : option Z :=
  match l with
  | [z] => if Ascii.eqb z "Z" then Some 0 else None
  | [sg; h1; h2; c; m1; m2] =>
      h ← number [h1; h2]; m ← number [m1; m2];
      if Ascii.eqb c ":" && (h <? 24) && (m <? 60) then
        if Ascii.eqb sg "+" then Some (h * 3600 + m * 60)
        else if Ascii.eqb sg "-" then Some (- (h * 3600 + m * 60))
        else None
      else None
  | _ => None
  end.

Definition Parse_RFC3339 (s : string) : option Z :=
  match list_ascii_of_string s with
  | y1 :: y2 :: y3 :: y4 :: c1 :: m1 :: m2 :: c2 :: d1 :: d2 :: c3 ::
    h1 :: h2 :: c4 :: n1 :: n2 :: c5 :: s1 :: s2 :: rest =>
      if Ascii.eqb c1 "-" && Ascii.eqb c2 "-" && Ascii.eqb c3 "T"
         && Ascii.eqb c4 ":" && Ascii.eqb c5 ":" then
        y ← number [y1; y2; y3; y4]; mo ← number [m1; m2];
        d ← number [d1; d2]; h ← number [h1; h2];
        mi ← number [n1; n2]; sc ← number [s1; s2];
        '(nanos, zone) ← fraction rest;
        off ← zone_offset zone;
        secs ← civil_seconds y mo d h mi sc;
        Some ((secs - off) * Second + nanos)
      else None
  | _ => None
  end.

Definition weekdays : list string :=
  ["Mon"; "Tue"; "Wed"; "Thu"; "Fri"; "Sat"; "Sun"]%string.

Definition months : list string :=
  ["Jan"; "Feb"; "Mar"; "Apr"; "May"; "Jun"; "Jul"; "Aug"; "Sep"; "Oct";
   "Nov"; "Dec"]%string.

Fixpoint index_of (x : string) (l : list string) (i : Z) : option Z :=
  match l with
  | y :: l' => if String.eqb x y then Some i else index_of x l' (i + 1)
  | [] => None
  end.

(** "Mon, 02 Jan 2006 15:04:05 GMT" *)
Definition Parse_RFC1123 (s : string) : option Z :=
  match list_ascii_of_string s with
  | w1 :: w2 :: w3 :: c0 :: rest =>
      if Ascii.eqb c0 "," then
        match rest with
        | [c1; d1; d2; c2; o1; o2; o3; c3; y1; y2; y3; y4; c4; h1; h2; c5;
           n1; n2; c6; s1; s2; c7; z1; z2; z3] =>
            let zone := string_of_list_ascii [z1; z2; z3] in
            if Ascii.eqb c1 " " && Ascii.eqb c2 " " && Ascii.eqb c3 " "
               && Ascii.eqb c4 " " && Ascii.eqb c5 ":" && Ascii.eqb c6 ":"
               && Ascii.eqb c7 " "
               && (String.eqb zone "GMT" || String.eqb zone "UTC") then
              _ ← index_of (string_of_list_ascii [w1; w2; w3]) weekdays 0;
              mo ← index_of (string_of_list_ascii [o1; o2; o3]) months 1;
              d ← number [d1; d2]; y ← number [y1; y2; y3; y4];
              h ← number [h1; h2]; mi ← number [n1; n2];
              sc ← number [s1; s2];
              secs ← civil_seconds y mo d h mi sc;
              Some (secs * Second)
            else None
        | _ => None
        end
      else None
  | _ => None
  end.

(** A document as a tree of elements and text. *)
#[local] Unset Elimination Schemes.
Inductive xnode : Type :=
  | XElem (name : string) (children : list xnode)
  | XText (s : string).
#[local] Set Elimination Schemes.

Inductive xtag : Type :=
  | TagSkip                 (* <?...?> and <!...> *)
  | TagOpen (name : string)
  | TagEmpty (name : string) (* <name/> *)
  | TagClose (name : string)
  | TagBad.

Fixpoint take_name (l : list ascii) : list ascii :=
  match l with
  | a :: l' =>
      if is_space a || Ascii.eqb a "/" then [] else a :: take_name l'
  | [] => []
  end.

(** What stands between "<" and ">". *)
Definition classify (t : list ascii) : xtag :=
  match t with
  | [] => TagBad
  | a :: t' =>
      if Ascii.eqb a "?" || Ascii.eqb a "!" then TagSkip
      else if Ascii.eqb a "/" then
        match take_name t' with
        | [] => TagBad
        | nm => TagClose (string_of_list_ascii nm)
        end
      else
        match take_name t with
        | [] => TagBad
        | nm =>
            match rev t with
            | z :: _ =>
                if Ascii.eqb z "/" then TagEmpty (string_of_list_ascii nm)
                else TagOpen (string_of_list_ascii nm)
            | [] => TagBad
            end
        end
  end.

Definition entity (nm : string) : option ascii :=
  if String.eqb nm "amp" then Some "&"%char
  else if String.eqb nm "lt" then Some "<"%char
  else if String.eqb nm "gt" then Some ">"%char
  else if String.eqb nm "quot" then Some (ascii_of_N 34)
  else if String.eqb nm "apos" then Some "'"%char
  else None.

(** Character data with its entity references replaced; [ent] holds the
    name of the reference being read, reversed. *)
Fixpoint unescape (l out : list ascii) (ent : option (list ascii))
  : option (list ascii) :=
  match l, ent with
  | [], None => Some (rev out)
  | [], Some _ => None
  | c :: l', None =>
      if Ascii.eqb c "&" then unescape l' out (Some [])
      else unescape l' (c :: out) None
  | c :: l', Some e =>
      if Ascii.eqb c ";" then
        match entity (string_of_list_ascii (rev e)) with
        | Some a => unescape l' (a :: out) None
        | None => None
        end
      else unescape l' out (Some (c :: e))
  end.

Definition add_child (n : xnode) (stack : list (string * list xnode))
  : list (string * list xnode) :=
  match stack with
  | (nm, ch) :: st => (nm, n :: ch) :: st
  | [] => []
  end.

(** One pass over the input up to the end of the root element; what follows
    the root is not read. [stack] holds the open elements, innermost first,
    each with its children so far (reversed); [buf] the text or tag being
    read (reversed). *)
Fixpoint scan (l : list ascii) (stack : list (string * list xnode))
    (intag : bool) (buf : list ascii) : option xnode :=
  match l with
  | [] => None
  | c :: l' =>
      if intag then
        if Ascii.eqb c ">" then
          match classify (rev buf) with
          | TagSkip => scan l' stack false []
          | TagOpen nm => scan l' ((nm, []) :: stack) false []
          | TagEmpty nm =>
              match stack with
              | [] => Some (XElem nm [])
              | _ => scan l' (add_child (XElem nm []) stack) false []
              end
          | TagClose nm =>
              match stack with
              | (nm', ch) :: st =>
                  if String.eqb nm nm' then
                    match st with
                    | [] => Some (XElem nm (rev ch))
                    | _ => scan l' (add_child (XElem nm (rev ch)) st) false []
                    end
                  else None
              | [] => None
              end
          | TagBad => None
          end
        else scan l' stack true (c :: buf)
      else if Ascii.eqb c "<" then
        match stack, buf with
        | [], _ => scan l' stack true []
        | _, [] => scan l' stack true []
        | _, _ =>
            match unescape (rev buf) [] None with
            | Some txt =>
                scan l' (add_child (XText (string_of_list_ascii txt)) stack)
                  true []
            | None => None
            end
        end
      else scan l' stack false (c :: buf)
  end.

(** The character data directly inside an element. *)
Fixpoint chardata (ch : list xnode) : string :=
  match ch with
  | XText s :: ch' => (s +:+ chardata ch')%string
  | XElem _ _ :: ch' => chardata ch'
  | [] => ""%string
  end.

(** The field [Loc string `xml:"loc"`]: the last <loc> child decides. *)
Fixpoint loc_of (ch : list xnode) (acc : string) : string :=
  match ch with
  | XElem nm c :: ch' =>
      loc_of ch' (if String.eqb nm "loc" then chardata c else acc)
  | XText _ :: ch' => loc_of ch' acc
  | [] => acc
  end.

(** The [Loc] of every child element named [tag], in document order. *)
Fixpoint locs (tag : string) (ch : list xnode) : list string :=
  match ch with
  | XElem nm c :: ch' =>
      if String.eqb nm tag then loc_of c ""%string :: locs tag ch'
      else locs tag ch'
  | XText _ :: ch' => locs tag ch'
  | [] => []
  end.

Definition Unmarshal_SitemapIndexRoot (data : string)
  : option SitemapIndexRoot :=
  match scan (list_ascii_of_string data) [] false [] with
  | Some (XElem nm ch) =>
      if String.eqb nm "sitemapindex" then
        Some {| Sitemaps := map Build_SitemapIndex (locs "sitemap" ch) |}
      else None
  | _ => None
  end.

Definition Unmarshal_Sitemap (data : string) : option Sitemap :=
  match scan (list_ascii_of_string data) [] false [] with
  | Some (XElem nm ch) =>
      if String.eqb nm "urlset" then
        Some {| URLs := map Build_SitemapURL (locs "url" ch);
                Sitemap_ := map Build_SitemapIndex (locs "sitemap" ch) |}
      else None
  | _ => None
  end.

End GoModel.
(* ===================================================================== *)
(** ** The state store *)
(* ===================================================================== *)

(** HTTP status code constants *)
Definition httpStatusOK : Z := 200.
Definition httpStatusClientErr : Z := 400.
Definition httpStatusSuccessMax : Z := 399.
Definition httpStatusTooMany : Z := 429.

(** A row of [warmed_url]; the key [url] is the key of the map. Every column
    but the key may hold NULL. [warmed_count] is an SQLite INTEGER; it grows
    by one per call of [MarkWarmed], so the promotion SQLite makes beyond
    2^63 - 1 is out of reach and the column is a [Z]. *)
Record WarmedURL := {
  last_warmed_utc : option string;
  last_status : option Z;
  last_error : option string;
  warmed_count : option Z
}.

(** A row of [sitemap_seen]. *)
Record SitemapSeen := {
  last_fetched_utc : option string;
  sitemap_last_error : option string
}.

(** The three tables of [schema]. *)
Record WarmDB := {
  warmed_url : gmap string WarmedURL;
  sitemap_seen : gmap string SitemapSeen;
  meta : gmap string (option string)
}.

(** The database [NewWarmDB] creates on a fresh path. *)
Definition empty_db : WarmDB :=
  {| warmed_url := ∅; sitemap_seen := ∅; meta := ∅ |}.

Record Stats_ := {
  WarmedTotal : Z;
  OKTotal : Z;
  ErrTotal : Z;
  LastFlushUTC : string
}.

(** [WHERE last_error IS NULL AND last_status BETWEEN ? AND ?] with
    [httpStatusOK] and [httpStatusSuccessMax]; a NULL status makes the
    condition NULL and the row is not selected. *)
Definition where_ok (r : WarmedURL) : bool :=
  match last_error r, last_status r with
  | None, Some st => (httpStatusOK <=? st) && (st <=? httpStatusSuccessMax)
  | _, _ => false
  end.

(** [WHERE last_error IS NOT NULL OR last_status >= ? OR last_status = 0]
    with [httpStatusClientErr]. *)
Definition where_err (r : WarmedURL) : bool :=
  match last_error r, last_status r with
  | Some _, _ => true
  | None, Some st => (httpStatusClientErr <=? st) || (st =? 0)
  | None, None => false
  end.

(** [SELECT COUNT( * ) FROM warmed_url WHERE ...] *)
Definition count_where (p : WarmedURL -> bool) (m : gmap string WarmedURL)
  : Z :=
  Z.of_nat (size (filter (fun kv : string * WarmedURL => Is_true (p kv.2)) m)).

Section Store.
Context {lib : GoLib}.

(** [Scan(&v)] fails on NULL; [sql.ErrNoRows] and an unparsable value both
    give [(nil, nil)]. *)
Definition GetLastFlush (w : WarmDB) : result (option Z) :=
  match meta w !! "last_flush_utc"%string with
  | None => Ok None
  | Some None => Err ErrScanNull
  | Some (Some v) =>
      match time_Parse_RFC3339 v with
      | None => Ok None
      | Some t => Ok (Some t)
      end
  end.

Definition MarkFlush (w : WarmDB) (now : Z) (reason : string) : WarmDB :=
  let now := time_Format_RFC3339 now in
  let m := <["last_flush_utc"%string := Some now]> (meta w) in
  let m :=
    if decide (reason = ""%string) then m
    else <["last_flush_reason"%string := Some reason]> m in
  {| warmed_url := warmed_url w; sitemap_seen := sitemap_seen w; meta := m |}.

Definition ShouldWarm (w : WarmDB) (now : Z) (url : string) (rewarmAfter : Z)
  : result bool :=
  match GetLastFlush w with
  | Err e => Err e
  | Ok lastFlush =>
      match warmed_url w !! url with
      | None => Ok true
      | Some r =>
          match last_warmed_utc r with
          | None => Err ErrScanNull
          | Some lastWarmedStr =>
              match time_Parse_RFC3339 lastWarmedStr with
              | None => Ok true
              | Some lastWarmed =>
                  (* If cache flush happened after last warm, rewarm *)
                  match lastFlush with
                  | Some f =>
                      if lastWarmed <? f then Ok true
                      else Ok (rewarmAfter <=? time_Since now lastWarmed)
                  | None => Ok (rewarmAfter <=? time_Since now lastWarmed)
                  end
              end
          end
      end
  end.

(** The new database and the error returned; on an error the database is
    left as it was. [errorMsg] is a Go string: [database/sql] hands it to the
    driver as a string and go-sqlite3 binds a string as TEXT, the empty one
    too, so [last_error] never receives NULL from here. *)
Definition MarkWarmed (w : WarmDB) (now : Z) (url : string) (status : Z)
    (errorMsg : string) : WarmDB * option error :=
  let now := time_Format_RFC3339 now in
  match warmed_url w !! url with
  | None =>
      ({| warmed_url :=
            <[url := {| last_warmed_utc := Some now;
                        last_status := Some status;
                        last_error := Some errorMsg;
                        warmed_count := Some 1 |}]> (warmed_url w);
          sitemap_seen := sitemap_seen w; meta := meta w |}, None)
  | Some r =>
      match warmed_count r with
      | None => (w, Some ErrScanNull)
      | Some count =>
          ({| warmed_url :=
                <[url := {| last_warmed_utc := Some now;
                            last_status := Some status;
                            last_error := Some errorMsg;
                            warmed_count := Some (count + 1) |}]>
                  (warmed_url w);
              sitemap_seen := sitemap_seen w; meta := meta w |}, None)
      end
  end.

(** [SELECT 1] never scans NULL, so no error is returned. *)
Definition MarkSitemap (w : WarmDB) (now : Z) (sitemapURL errorMsg : string)
  : WarmDB :=
  let now := time_Format_RFC3339 now in
  match sitemap_seen w !! sitemapURL with
  | None =>
      {| warmed_url := warmed_url w;
         sitemap_seen :=
           <[sitemapURL := {| last_fetched_utc := Some now;
                              sitemap_last_error := Some errorMsg |}]>
             (sitemap_seen w);
         meta := meta w |}
  | Some _ =>
      {| warmed_url := warmed_url w;
         sitemap_seen :=
           alter (fun _ => {| last_fetched_utc := Some now;
                              sitemap_last_error := Some errorMsg |})
             sitemapURL (sitemap_seen w);
         meta := meta w |}
  end.

(** [lastFlush.Format] prints in the zone [time.Parse] read; the timestamps
    [MarkFlush] writes are in UTC. *)
Definition Stats (w : WarmDB) : result Stats_ :=
  let warmedTotal := Z.of_nat (size (warmed_url w)) in
  let okTotal := count_where where_ok (warmed_url w) in
  let errTotal := count_where where_err (warmed_url w) in
  match GetLastFlush w with
  | Err e => Err e
  | Ok lastFlush =>
      Ok {| WarmedTotal := warmedTotal; OKTotal := okTotal;
            ErrTotal := errTotal;
            LastFlushUTC :=
              match lastFlush with
              | Some t => time_Format_RFC3339 t
              | None => ""%string
              end |}
  end.

(** A run of [MarkWarmed] calls, each given as (now, url, status, error
    message); the errors returned are dropped, as [runOnce] drops them. *)
Definition mark_all (w : WarmDB) (calls : list (Z * string * Z * string))
  : WarmDB :=
  fold_left
    (fun w c => let '(now, url, status, errorMsg) := c in
                fst (MarkWarmed w now url status errorMsg))
    calls w.

End Store.

(* ===================================================================== *)
(** ** Rate limiter (429 adaptive) *)
(* ===================================================================== *)

(** The fields the mutex guards; the mutex and the condition variable have
    no state of their own here. *)
Record rateLimiter := {
  currentConcurrency : Z;
  minConcurrency : Z;
  maxConcurrency : Z;
  activeWorkers : Z;
  cooldownUntil : Z;
  consecutiveOK : Z;
  recoverAfter : Z;
  cooldownSeconds : Z
}.

Definition newRateLimiter (concurrency cooldownSeconds recoverAfter : Z)
  : rateLimiter :=
  {| currentConcurrency := concurrency;
     minConcurrency := 1;
     maxConcurrency := concurrency;
     activeWorkers := 0;
     cooldownUntil := time_zero;
     consecutiveOK := 0;
     recoverAfter := recoverAfter;
     cooldownSeconds := cooldownSeconds |}.

(** Go's [/] on integers truncates towards zero: [Z.quot]. *)
Definition on429 (now retryAfter : Z) (rl : rateLimiter) : rateLimiter :=
  let newConcurrency := currentConcurrency rl ÷ 2 in
  let newConcurrency :=
    if newConcurrency <? minConcurrency rl then minConcurrency rl
    else newConcurrency in
  let cooldown := retryAfter in
  let cooldown :=
    if cooldown <? seconds (cooldownSeconds rl)
    then seconds (cooldownSeconds rl) else cooldown in
  {| currentConcurrency := newConcurrency;
     minConcurrency := minConcurrency rl;
     maxConcurrency := maxConcurrency rl;
     activeWorkers := activeWorkers rl;
     cooldownUntil := time_Add now cooldown;
     consecutiveOK := 0;
     recoverAfter := recoverAfter rl;
     cooldownSeconds := cooldownSeconds rl |}.

Definition onSuccess (rl : rateLimiter) : rateLimiter :=
  let ok := wrap64 (consecutiveOK rl + 1) in
  if (recoverAfter rl <=? ok) && (currentConcurrency rl <? maxConcurrency rl)
  then
    {| currentConcurrency := wrap64 (currentConcurrency rl + 1);
       minConcurrency := minConcurrency rl;
       maxConcurrency := maxConcurrency rl;
       activeWorkers := activeWorkers rl;
       cooldownUntil := cooldownUntil rl;
       consecutiveOK := 0;
       recoverAfter := recoverAfter rl;
       cooldownSeconds := cooldownSeconds rl |}
  else
    {| currentConcurrency := currentConcurrency rl;
       minConcurrency := minConcurrency rl;
       maxConcurrency := maxConcurrency rl;
       activeWorkers := activeWorkers rl;
       cooldownUntil := cooldownUntil rl;
       consecutiveOK := ok;
       recoverAfter := recoverAfter rl;
       cooldownSeconds := cooldownSeconds rl |}.

(** What the workers report to the limiter. *)
Inductive limiter_event : Type :=
  | On429 (now retryAfter : Z)
  | OnSuccess.

Definition limiter_step (rl : rateLimiter) (e : limiter_event) : rateLimiter :=
  match e with
  | On429 now retryAfter => on429 now retryAfter rl
  | OnSuccess => onSuccess rl
  end.

Definition limiter_run (rl : rateLimiter) (es : list limiter_event)
  : rateLimiter :=
  fold_left limiter_step es rl.

Section RetryAfter.
Context {lib : GoLib}.

(** [time.Until] reads the clock: [now]. *)
Definition parseRetryAfter (now : Z) (hdr : string) (defaultSec : Z) : Z :=
  let hdr := strings_TrimSpace hdr in
  if decide (hdr = ""%string) then seconds defaultSec
  else
    match
      match strconv_Atoi hdr with
      | Some sec => if 0 <=? sec then Some (seconds sec) else None
      | None => None
      end
    with
    | Some d => d
    | None =>
        match
          match time_Parse_RFC1123 hdr with
          | Some t =>
              let d := time_Until now t in
              if 0 <? d then Some d else None
          | None => None
          end
        with
        | Some d => d
        | None => seconds defaultSec
        end
    end.

End RetryAfter.

(* ===================================================================== *)
(** ** Sitemap parsing *)
(* ===================================================================== *)

Section SitemapParsing.
Context {lib : GoLib}.

(** The body of the three loops: [if loc != "" { l = append(l,
    strings.TrimSpace(loc)) }]. *)
Definition append_loc (l : list string) (loc : string) : list string :=
  if decide (loc = ""%string) then l else l ++ [strings_TrimSpace loc].

(** The child sitemaps, the page URLs, and the error, which is always nil. *)
Definition parseSitemapXML (data : string)
  : list string * list string * option error :=
  let childSitemaps := [] in
  let urls := [] in
  (* Try parsing as sitemapindex *)
  let childSitemaps :=
    match xml_Unmarshal_SitemapIndexRoot data with
    | Some idx =>
        if (0 <? length (Sitemaps idx))%nat then
          fold_left (fun l s => append_loc l (idx_Loc s)) (Sitemaps idx)
            childSitemaps
        else childSitemaps
    | None => childSitemaps
    end in
  (* Try parsing as urlset *)
  match xml_Unmarshal_Sitemap data with
  | Some urlset =>
      let urls :=
        fold_left (fun l u => append_loc l (url_Loc u)) (URLs urlset) urls in
      let childSitemaps :=
        fold_left (fun l s => append_loc l (idx_Loc s)) (Sitemap_ urlset)
          childSitemaps in
      (childSitemaps, urls, None)
  | None => (childSitemaps, urls, None)
  end.

End SitemapParsing.

(* ===================================================================== *)
(** ** Sitemap collector *)
(* ===================================================================== *)

(** What the collector does to the world, in order: a write to
    [seenSitemaps], a call of [fetchBytes], a call of [db.MarkSitemap]. *)
Inductive event : Type :=
  | EvSeen (sitemapURL : string)
  | EvFetch (sitemapURL : string)
  | EvMarkSitemap (sitemapURL errorMsg : string).

(** The fields of [CacheWarmer] the collector uses, and the events so far.
    [seenSitemaps] is a [map[string]bool] that only ever holds [true]: a
    set. *)
Record CacheWarmer := {
  db : WarmDB;
  seenSitemaps : gset string;
  events : list event
}.

(** [err.Error()] *)
Definition error_msg (e : error) : string :=
  match e with
  | ErrScanNull => "sql: Scan error: converting NULL is unsupported"
  | ErrContext => "context canceled"
  | ErrFetch msg => msg
  end.

(** The sitemap URLs fetched by a run of events, in order. *)
Definition fetched (es : list event) : list string :=
  omap (fun e => match e with EvFetch u => Some u | _ => None end) es.

Section Collector.
Context {lib : GoLib}.

(** The world of one run, each a function of the events so far: what
    [fetchBytes] returns for a URL (the network, the load gate, the retries
    and gzip), whether the context is cancelled, and the clock. *)
Variable fetchBytes : list event -> string -> result string.
Variable ctxDone : list event -> bool.
Variable clock : list event -> Z.

Definition log_event (c : CacheWarmer) (e : event) : CacheWarmer :=
  {| db := db c; seenSitemaps := seenSitemaps c; events := events c ++ [e] |}.

Definition mark_sitemap (c : CacheWarmer) (sitemapURL errorMsg : string)
  : CacheWarmer :=
  {| db := MarkSitemap (db c) (clock (events c)) sitemapURL errorMsg;
     seenSitemaps := seenSitemaps c;
     events := events c ++ [EvMarkSitemap sitemapURL errorMsg] |}.

Definition mark_seen (c : CacheWarmer) (sitemapURL : string) : CacheWarmer :=
  {| db := db c;
     seenSitemaps := {[sitemapURL]} ∪ seenSitemaps c;
     events := events c ++ [EvSeen sitemapURL] |}.

(** What a call returns: the URLs, the error and the new state; [None] when
    the fuel of the recursion is used up. *)
Definition collected : Type := option (list string * option error * CacheWarmer).

(** [for _, child := range childSitemaps { ... }] with [collect] for the
    recursive call. *)
Fixpoint collectChildren (collect : string -> CacheWarmer -> collected)
    (childSitemaps : list string) (acc : list string) (c : CacheWarmer)
  : collected :=
  match childSitemaps with
  | [] => Some (acc, None, c)
  | child :: rest =>
      if ctxDone (events c) then Some (acc, Some ErrContext, c)
      else
        match collect child c with
        | None => None
        | Some (_, Some _, c') => collectChildren collect rest acc c'
        | Some (childURLs, None, c') =>
            collectChildren collect rest (acc ++ childURLs) c'
        end
  end.

Fixpoint collectURLsFromSitemap (fuel : nat) (sitemapURL : string)
    (c : CacheWarmer) : collected :=
  match fuel with
  | O => None
  | S fuel' =>
      if decide (sitemapURL ∈ seenSitemaps c) then Some ([], None, c)
      else
        let c := mark_seen c sitemapURL in
        let data := fetchBytes (events c) sitemapURL in
        let c := log_event c (EvFetch sitemapURL) in
        match data with
        | Err err => Some ([], Some err, mark_sitemap c sitemapURL (error_msg err))
        | Ok data =>
            match parseSitemapXML data with
            | (_, _, Some err) =>
                Some ([], Some err, mark_sitemap c sitemapURL (error_msg err))
            | (childSitemaps, urls, None) =>
                let c := mark_sitemap c sitemapURL "" in
                collectChildren (collectURLsFromSitemap fuel') childSitemaps
                  urls c
            end
        end
  end.

(** The first loop of [runOnce]: [for _, sm := range c.cfg.Sitemaps.URLs]. A
    failed seed is logged and the loop goes on with what it returned. *)
Fixpoint collectSeeds (fuel : nat) (seeds : list string)
    (allURLs : list string) (c : CacheWarmer) : collected :=
  match seeds with
  | [] => Some (allURLs, None, c)
  | sm :: rest =>
      if ctxDone (events c) then Some ([], Some ErrContext, c)
      else
        match collectURLsFromSitemap fuel sm c with
        | None => None
        | Some (urls, _, c') => collectSeeds fuel rest (allURLs ++ urls) c'
        end
  end.

(** [runOnce] up to the end of the collection: the visited set is reset
    first. *)
Definition runOnce_collect (fuel : nat) (seeds : list string)
    (c : CacheWarmer) : collected :=
  collectSeeds fuel seeds []
    {| db := db c; seenSitemaps := ∅; events := events c |}.

End Collector.

(* ===================================================================== *)
(** ** Rate limiter: admission *)
(* ===================================================================== *)

(** What one pass of the loop of [acquire] reads while it holds the mutex:
    whether the context is done, the clock (read by [time.Now] and again by
    [time.Until]), whether the context gets done during a cooldown sleep, and
    the limiter as the other workers have left it. *)
Record acquire_view := {
  av_done : bool;
  av_now : Z;
  av_now_until : Z;
  av_done_asleep : bool;
  av_rl : rateLimiter
}.

Inductive acquire_pass : Type :=
  | PassError                        (* return ctx.Err() *)
  | PassAdmitted (rl : rateLimiter)  (* rl.activeWorkers++; return nil *)
  | PassSlept (d : Z)                (* <-time.After(d); continue *)
  | PassWaited                       (* rl.cond.Wait() *).

(** The body of the loop of [acquire]. *)
Definition acquire_pass_of (v : acquire_view) : acquire_pass :=
  if av_done v then PassError
  else if av_now v <? cooldownUntil (av_rl v) then
    let d := time_Until (av_now_until v) (cooldownUntil (av_rl v)) in
    if av_done_asleep v then PassError else PassSlept d
  else if activeWorkers (av_rl v) <? currentConcurrency (av_rl v) then
    PassAdmitted
      {| currentConcurrency := currentConcurrency (av_rl v);
         minConcurrency := minConcurrency (av_rl v);
         maxConcurrency := maxConcurrency (av_rl v);
         activeWorkers := wrap64 (activeWorkers (av_rl v) + 1);
         cooldownUntil := cooldownUntil (av_rl v);
         consecutiveOK := consecutiveOK (av_rl v);
         recoverAfter := recoverAfter (av_rl v);
         cooldownSeconds := cooldownSeconds (av_rl v) |}
  else PassWaited.

(** [acquire] over the passes of its loop, one view each: [Some (Ok rl)]
    when it returns nil and leaves the limiter [rl], [Some (Err _)] when it
    returns the error of the context, [None] while it is still blocked
    after the views given. *)
Fixpoint acquire (views : list acquire_view) : option (result rateLimiter) :=
  match views with
  | [] => None
  | v :: views' =>
      match acquire_pass_of v with
      | PassError => Some (Err ErrContext)
      | PassAdmitted rl => Some (Ok rl)
      | PassSlept _ => acquire views'
      | PassWaited => acquire views'
      end
  end.

Definition release (rl : rateLimiter) : rateLimiter :=
  {| currentConcurrency := currentConcurrency rl;
     minConcurrency := minConcurrency rl;
     maxConcurrency := maxConcurrency rl;
     activeWorkers := wrap64 (activeWorkers rl - 1);
     cooldownUntil := cooldownUntil rl;
     consecutiveOK := consecutiveOK rl;
     recoverAfter := recoverAfter rl;
     cooldownSeconds := cooldownSeconds rl |}.

(* ===================================================================== *)
(** ** Cache warmer: configuration and the limiter it gets *)
(* ===================================================================== *)

(** [HTTPConfig]; [RetryBackoffSeconds] is a float64. *)
Record HTTPConfig := {
  UserAgent : string;
  TimeoutSeconds : Z;
  ConnectTimeoutSeconds : Z;
  MaxRedirects : Z;
  Concurrency : Z;
  MinDelayMS : Z;
  Retries : Z;
  RetryBackoffSeconds : PrimFloat.float;
  RateLimitCooldownSeconds : Z;
  RateLimitRecoverAfter : Z
}.

(** The [cooldownSec] of [NewCacheWarmer] and of [warmOne]. *)
Definition cooldownSec_of (cfg : HTTPConfig) : Z :=
  if RateLimitCooldownSeconds cfg <=? 0 then 120
  else RateLimitCooldownSeconds cfg.

(** The limiter [NewCacheWarmer] builds. *)
Definition NewCacheWarmer_rl (cfg : HTTPConfig) : rateLimiter :=
  let cooldownSec := cooldownSec_of cfg in
  let recoverAfter :=
    if RateLimitRecoverAfter cfg <=? 0 then 50
    else RateLimitRecoverAfter cfg in
  newRateLimiter (Concurrency cfg) cooldownSec recoverAfter.

(** The bound of the retry loops: [c.cfg.HTTP.Retries+1]. *)
Definition attempts_limit (cfg : HTTPConfig) : Z := wrap64 (Retries cfg + 1).

(** [time.Millisecond] *)
Definition Millisecond : Z := 1000000.

(* ===================================================================== *)
(** ** Cache warmer: warming one URL *)
(* ===================================================================== *)

(** What a worker does to the world, in order. The time a backoff sleeps,
    [attempt * RetryBackoffSeconds], is a float64 product and is left out. *)
Inductive warm_event : Type :=
  | WSleep (d : Z)                 (* time.Sleep of the minimum delay *)
  | WLoadGate                      (* waitForLoad returned *)
  | WRequest (url : string)        (* client.Do and the read of the body *)
  | WBackoff (attempt : Z)         (* time.Sleep(backoff) *)
  | WOn429 (retryAfter : Z)        (* c.rl.on429(retryAfter429) *)
  | WOnSuccess                     (* c.rl.onSuccess() *)
  | WRelease                       (* c.rl.release() *)
  | WCooldown (d : Z)              (* <-time.After(retryAfter429) *)
  | WAcquire                       (* c.rl.acquire(ctx) returned nil *)
  | WMarkWarmed (url : string) (status : Z) (errMsg : string).

(** What a request comes to: [client.Do] fails, the read of the body fails,
    or a response with its status, its Retry-After header and its body. *)
Inductive http_outcome : Type :=
  | DoError (msg : string)
  | ReadError (msg : string)
  | Response (status : Z) (retryAfter : string) (body : string).

(** How the attempts of one round end: a [return] from inside the loop, or
    the end of the loop with [got429], [retryAfter429] and [lastErr]. *)
Inductive attempts_end : Type :=
  | AReturn (status : Z) (errMsg : string)
  | AExit (got429 : bool) (retryAfter429 : Z) (lastErr : option string).

Definition count_event (p : warm_event -> bool) (tr : list warm_event) : nat :=
  length (filter (fun e => Is_true (p e)) tr).

Definition is_WRequest (e : warm_event) : bool :=
  match e with WRequest _ => true | _ => false end.
Definition is_WRelease (e : warm_event) : bool :=
  match e with WRelease => true | _ => false end.
Definition is_WAcquire (e : warm_event) : bool :=
  match e with WAcquire => true | _ => false end.
Definition is_WOnSuccess (e : warm_event) : bool :=
  match e with WOnSuccess => true | _ => false end.
Definition is_WMarkWarmed (e : warm_event) : bool :=
  match e with WMarkWarmed _ _ _ => true | _ => false end.

Section Warming.
Context {lib : GoLib}.

(** The world of a worker, each a function of the events so far: whether
    the context is done, the error [waitForLoad] returns if any, what a
    request comes to, the error [rl.acquire] returns if any, the clock; and
    two functions of the standard library: the error of
    [http.NewRequestWithContext] for a URL, and [%d] of [fmt]. *)
Variable ctxDone : list warm_event -> bool.
Variable waitForLoad : list warm_event -> option string.
Variable doRequest : list warm_event -> string -> http_outcome.
Variable acquireSlot : list warm_event -> option string.
Variable clock : list warm_event -> Z.
Variable newRequest : string -> option string.
Variable fmt_d : Z -> string.

Variable cfg : HTTPConfig.

(** [fmt.Errorf("HTTP %d", status).Error()] *)
Definition http_status_error (status : Z) : string :=
  ("HTTP " +:+ fmt_d status)%string.

(** [for attempt := 1; attempt <= c.cfg.HTTP.Retries+1; attempt++] of
    [warmOne], from [attempt] on; [None] when the fuel is used up. *)
Fixpoint warm_attempts (fuel : nat) (url : string) (attempt : Z)
    (lastErr : option string) (tr : list warm_event)
  : option (attempts_end * list warm_event) :=
  if attempt <=? attempts_limit cfg then
    match fuel with
    | O => None
    | S fuel' =>
        match newRequest url with
        | Some err => Some (AReturn 0 err, tr)
        | None =>
            let out := doRequest tr url in
            let tr := tr ++ [WRequest url] in
            match out with
            | DoError err | ReadError err =>
                if attempts_limit cfg <=? attempt
                then Some (AExit false 0 (Some err), tr)
                else warm_attempts fuel' url (wrap64 (attempt + 1)) (Some err)
                       (tr ++ [WBackoff attempt])
            | Response status hdr _ =>
                if status =? httpStatusTooMany then
                  let retryAfter429 :=
                    parseRetryAfter (clock tr) hdr (cooldownSec_of cfg) in
                  Some (AExit true retryAfter429 lastErr,
                        tr ++ [WOn429 retryAfter429])
                else if httpStatusClientErr <=? status then
                  if attempts_limit cfg <=? attempt
                  then Some (AReturn status (http_status_error status), tr)
                  else warm_attempts fuel' url (wrap64 (attempt + 1))
                         (Some (http_status_error status))
                         (tr ++ [WBackoff attempt])
                else Some (AReturn status ""%string, tr ++ [WOnSuccess])
            end
        end
    end
  else Some (AExit false 0 lastErr, tr).

(** What [warmOne] returns, and the events so far. *)
Definition warmed : Type := option (Z * string * bool * list warm_event).

(** The outer [for] of [warmOne]; a round ends with a [return] or, after a
    429, goes on to the next one. [None] when the rounds given are used up:
    the URL is still answered 429. *)
Fixpoint warm_rounds (rounds : nat) (url : string) (tr : list warm_event)
  : warmed :=
  if ctxDone tr then Some (0, error_msg ErrContext, false, tr)
  else
    match warm_attempts (Z.to_nat (attempts_limit cfg)) url 1 None tr with
    | None => None
    | Some (AReturn status errMsg, tr) => Some (status, errMsg, false, tr)
    | Some (AExit got429 retryAfter429 lastErr, tr) =>
        if got429 then
          let tr := tr ++ [WRelease] in
          if ctxDone tr then Some (0, error_msg ErrContext, true, tr)
          else
            let tr := tr ++ [WCooldown retryAfter429] in
            match acquireSlot tr with
            | Some err => Some (0, err, true, tr)
            | None =>
                match rounds with
                | O => None
                | S rounds' => warm_rounds rounds' url (tr ++ [WAcquire])
                end
            end
        else
          match lastErr with
          | Some err => Some (0, err, false, tr)
          | None => Some (0, "unreachable"%string, false, tr)
          end
    end.

Definition warmOne (rounds : nat) (url : string) (tr : list warm_event)
  : warmed :=
  let tr :=
    if 0 <? MinDelayMS cfg
    then tr ++ [WSleep (wrap64 (MinDelayMS cfg * Millisecond))] else tr in
  let gate := waitForLoad tr in
  let tr := tr ++ [WLoadGate] in
  match gate with
  | Some err => Some (0, err, false, tr)
  | None => warm_rounds rounds url tr
  end.

(** How a worker of [runOnce] ends. *)
Inductive worker_end : Type :=
  | Skipped                                   (* WARM SKIP *)
  | Recorded (status : Z) (errMsg : string) (ok : bool).

(** The goroutine [runOnce] starts for a URL: the slot, [warmOne], the
    record in the store, the count as ok or fail, and the deferred release.
    It returns how it ended, the store and the events. *)
Definition warm_worker (rounds : nat) (url : string) (w : WarmDB)
    (tr : list warm_event) : option (worker_end * WarmDB * list warm_event) :=
  match acquireSlot tr with
  | Some _ => Some (Skipped, w, tr)
  | None =>
      match warmOne rounds url (tr ++ [WAcquire]) with
      | None => None
      | Some (status, errMsg, slotReleased, tr) =>
          let w := (MarkWarmed w (clock tr) url status errMsg).1 in
          let tr := tr ++ [WMarkWarmed url status errMsg] in
          let ok := if decide (errMsg = ""%string) then true else false in
          let tr := if slotReleased then tr else tr ++ [WRelease] in
          Some (Recorded status errMsg ok, w, tr)
      end
  end.

End Warming.

(* ===================================================================== *)
(** ** Cache warmer: fetching a sitemap *)
(* ===================================================================== *)

(** What [gzip.NewReader] and [io.ReadAll] make of a body. *)
Inductive gunzip_outcome : Type :=
  | GzHeaderError (msg : string)   (* gzip.NewReader fails *)
  | GzReadError (msg : string)     (* io.ReadAll(reader) fails *)
  | GzData (data : string).

Section Fetching.

(** The world of a fetch, as for a worker, and two more library calls:
    [strings.HasSuffix(strings.ToLower(url), ".gz")] and the gzip reader. *)
Variable waitForLoad : list warm_event -> option string.
Variable doRequest : list warm_event -> string -> http_outcome.
Variable newRequest : string -> option string.
Variable fmt_d : Z -> string.
Variable has_gz_suffix : string -> bool.
Variable gunzip : string -> gunzip_outcome.

Variable cfg : HTTPConfig.

(** What [fetchBytes] returns (a nil body is the empty one), and the events
    so far. *)
Definition fetched_bytes : Type := string * option string * list warm_event.

(** [for attempt := 1; attempt <= c.cfg.HTTP.Retries+1; attempt++] of
    [fetchBytes], from [attempt] on, and the [return nil, lastErr] after it;
    [None] when the fuel is used up. *)
Fixpoint fetch_attempts (fuel : nat) (url : string) (attempt : Z)
    (lastErr : option string) (tr : list warm_event) : option fetched_bytes :=
  if attempt <=? attempts_limit cfg then
    match fuel with
    | O => None
    | S fuel' =>
        let gate := waitForLoad tr in
        let tr := tr ++ [WLoadGate] in
        match gate with
        | Some err => Some (""%string, Some err, tr)
        | None =>
            match newRequest url with
            | Some err => Some (""%string, Some err, tr)
            | None =>
                let out := doRequest tr url in
                let tr := tr ++ [WRequest url] in
                (* lastErr = err; break on the last attempt, else sleep and
                   continue *)
                let retry (err : string) :=
                  if attempts_limit cfg <=? attempt
                  then Some (""%string, Some err, tr)
                  else fetch_attempts fuel' url (wrap64 (attempt + 1))
                         (Some err) (tr ++ [WBackoff attempt]) in
                match out with
                | DoError err => retry err
                | ReadError err => retry err
                | Response status _ body =>
                    if httpStatusClientErr <=? status
                    then retry (("HTTP " +:+ fmt_d status)%string)
                    else if has_gz_suffix url then
                      match gunzip body with
                      | GzHeaderError err =>
                          retry (("gzip.NewReader: " +:+ err)%string)
                      | GzReadError err =>
                          retry (("gzip read: " +:+ err)%string)
                      | GzData decompressed => Some (decompressed, None, tr)
                      end
                    else Some (body, None, tr)
                end
            end
        end
    end
  else Some (""%string, lastErr, tr).

Definition fetchBytes (url : string) (tr : list warm_event)
  : option fetched_bytes :=
  fetch_attempts (Z.to_nat (attempts_limit cfg)) url 1 None tr.

End Fetching.

(* ===================================================================== *)
(** ** Orchestrator: the URLs of a run *)
(* ===================================================================== *)

(** The de-duplication loop of [runOnce]: the [seen] map and the URLs kept
    so far. *)
Definition dedupe_step (st : gset string * list string) (u : string)
  : gset string * list string :=
  if decide (u = ""%string \/ u ∈ st.1) then st
  else ({[u]} ∪ st.1, st.2 ++ [u]).

Definition dedupe (allURLs : list string) : list string :=
  (fold_left dedupe_step allURLs (∅, [])).2.

(** [rewarmAfter] of [runOnce]:
    [time.Duration(c.cfg.App.RewarmAfterHours) * time.Hour]. *)
Definition rewarmAfter_of (RewarmAfterHours : Z) : Z := hours RewarmAfterHours.

Section Selecting.
Context {lib : GoLib}.

(** The clock [ShouldWarm] reads, a function of the URLs checked so far. *)
Variable clock : list string -> Z.

(** The filter loop of [runOnce], [checked] being the URLs gone through: a
    URL whose check fails is logged and left out. *)
Fixpoint select_stale (w : WarmDB) (rewarmAfter : Z) (checked : list string)
    (uniqueURLs : list string) : list string :=
  match uniqueURLs with
  | [] => []
  | u :: rest =>
      let toWarm := select_stale w rewarmAfter (checked ++ [u]) rest in
      match ShouldWarm w (clock checked) u rewarmAfter with
      | Err _ => toWarm
      | Ok shouldWarm => if shouldWarm then u :: toWarm else toWarm
      end
  end.

Definition toWarm (w : WarmDB) (RewarmAfterHours : Z)
    (uniqueURLs : list string) : list string :=
  select_stale w (rewarmAfter_of RewarmAfterHours) [] uniqueURLs.

End Selecting.

(* ===================================================================== *)
(** ** CLI commands *)
(* ===================================================================== *)

Section Commands.
Context {lib : GoLib}.

(** What [cmdFlush] does to an open store at the time [now], and the
    statistics it reads back to print them. *)
Definition cmdFlush_store (w : WarmDB) (now : Z) (reason : string)
  : WarmDB * result Stats_ :=
  let reason :=
    if decide (reason = ""%string) then "manual flush"%string else reason in
  let w := MarkFlush w now reason in
  (w, Stats w).

End Commands.

(* ===================================================================== *)
(** ** Configuration: validation *)
(* ===================================================================== *)

Record AppConfig := {
  DBPath : string;
  LogFile : string;
  LogLevel : string;
  RewarmAfterHours : Z;
  Loop : bool;
  LoopIntervalSeconds : Z
}.

Record LoadConfig := {
  MaxLoad : PrimFloat.float;
  CheckIntervalSeconds : Z
}.

(** [SitemapsConfig]: its field [URLs]. *)
Record SitemapsConfig := {
  Sitemaps_URLs : list string
}.

(** [Config]: its fields [App], [HTTP], [Load] and [Sitemaps]. *)
Record Config := {
  cfg_App : AppConfig;
  cfg_HTTP : HTTPConfig;
  cfg_Load : LoadConfig;
  cfg_Sitemaps : SitemapsConfig
}.

(** What [url.Parse] makes of a string: an error, or a URL with its scheme
    and its host. *)
Inductive parsed_url : Type :=
  | ParseError (msg : string)
  | ParsedURL (Scheme Host : string).

(** The errors of [validateConfig], each with the values its message
    prints. *)
Inductive config_error : Type :=
  | BadConcurrency (got : Z)            (* http.concurrency must be >= 1 *)
  | BadTimeoutSeconds (got : Z)         (* http.timeout_seconds must be > 0 *)
  | BadConnectTimeoutSeconds (got : Z)  (* http.connect_timeout_seconds must be > 0 *)
  | BadMaxRedirects (got : Z)           (* http.max_redirects must be >= 0 *)
  | BadMinDelayMS (got : Z)             (* http.min_delay_ms must be >= 0 *)
  | BadRetries (got : Z)                (* http.retries must be >= 0 *)
  | BadRetryBackoffSeconds (got : PrimFloat.float)
                                        (* http.retry_backoff_seconds must be >= 0 *)
  | BadRewarmAfterHours (got : Z)       (* app.rewarm_after_hours must be >= 1 *)
  | BadLoopIntervalSeconds (got : Z)    (* app.loop_interval_seconds must be >= 1 when loop=true *)
  | BadMaxLoad (got : PrimFloat.float)  (* load.max_load must be >= 0 *)
  | BadCheckIntervalSeconds (got : Z)   (* load.check_interval_seconds must be >= 1 *)
  | InvalidURL (i : Z) (u : string) (err : string)
                                        (* sitemaps.urls[i] invalid URL *)
  | NoSchemeOrHost (i : Z) (u : string) (* sitemaps.urls[i] must have scheme and host *)
  | BadScheme (i : Z) (u : string)      (* sitemaps.urls[i] scheme must be http or https *).

Section Validation.

Variable url_Parse : string -> parsed_url.

(** [for i, u := range cfg.Sitemaps.URLs] of [validateConfig], from index
    [i] on. *)
Fixpoint validate_urls (i : Z) (urls : list string) : option config_error :=
  match urls with
  | [] => None
  | u :: rest =>
      match url_Parse u with
      | ParseError err => Some (InvalidURL i u err)
      | ParsedURL scheme host =>
          if String.eqb scheme "" || String.eqb host ""
          then Some (NoSchemeOrHost i u)
          else if negb (String.eqb scheme "http")
                  && negb (String.eqb scheme "https")
          then Some (BadScheme i u)
          else validate_urls (i + 1) rest
      end
  end.

(** [validateConfig]: [None] for nil. *)
Definition validateConfig (cfg : Config) : option config_error :=
  let http := cfg_HTTP cfg in
  let app := cfg_App cfg in
  let load := cfg_Load cfg in
  if Concurrency http <? 1 then Some (BadConcurrency (Concurrency http))
  else if TimeoutSeconds http <? 1
  then Some (BadTimeoutSeconds (TimeoutSeconds http))
  else if ConnectTimeoutSeconds http <? 1
  then Some (BadConnectTimeoutSeconds (ConnectTimeoutSeconds http))
  else if MaxRedirects http <? 0
  then Some (BadMaxRedirects (MaxRedirects http))
  else if MinDelayMS http <? 0 then Some (BadMinDelayMS (MinDelayMS http))
  else if Retries http <? 0 then Some (BadRetries (Retries http))
  else if PrimFloat.ltb (RetryBackoffSeconds http) PrimFloat.zero
  then Some (BadRetryBackoffSeconds (RetryBackoffSeconds http))
  else if RewarmAfterHours app <? 1
  then Some (BadRewarmAfterHours (RewarmAfterHours app))
  else if Loop app && (LoopIntervalSeconds app <? 1)
  then Some (BadLoopIntervalSeconds (LoopIntervalSeconds app))
  else if PrimFloat.ltb (MaxLoad load) PrimFloat.zero
  then Some (BadMaxLoad (MaxLoad load))
  else if CheckIntervalSeconds load <? 1
  then Some (BadCheckIntervalSeconds (CheckIntervalSeconds load))
  else validate_urls 0 (Sitemaps_URLs (cfg_Sitemaps cfg)).

End Validation.

(* ===================================================================== *)
(** ** Load monitoring *)
(* ===================================================================== *)

(** What one pass of the loop of [waitForLoad] meets: whether the context
    is done, the load [getLoad1m] reads ([None] for its error), and whether
    the context gets done during the sleep. *)
Record load_view := {
  lv_done : bool;
  lv_load : option PrimFloat.float;
  lv_done_asleep : bool
}.

(** [waitForLoad] over the passes of its loop, one view each: [Some None]
    when it returns nil, [Some (Some _)] when it returns the error of the
    context, [None] while it still waits after the views given. *)
Fixpoint waitForLoad (cfg : LoadConfig) (views : list load_view)
  : option (option error) :=
  match views with
  | [] => None
  | v :: views' =>
      if lv_done v then Some (Some ErrContext)
      else
        match lv_load v with
        | None => Some None  (* Cannot measure load, don't block *)
        | Some load =>
            if PrimFloat.leb load (MaxLoad cfg) then Some None
            else if lv_done_asleep v then Some (Some ErrContext)
            else waitForLoad cfg views'
        end
  end.

(* ===================================================================== *)
(** ** Dashboard: cutting strings down *)
(* ===================================================================== *)

Fixpoint string_take (n : nat) (s : string) : string :=
  match n, s with
  | S n', String a s' => String a (string_take n' s')
  | _, _ => ""%string
  end.

(** [s[:n]]: a panic ([None]) when [n] is negative or beyond the length. *)
Definition slice_to (s : string) (n : Z) : option string :=
  if (0 <=? n) && (n <=? Z.of_nat (String.length s))
  then Some (string_take (Z.to_nat n) s) else None.

(** Display truncation limits for status output *)
Definition truncateURLLong : Z := 50.
Definition truncateURLShort : Z := 45.
Definition truncateURLSitemap : Z := 55.
Definition truncateErrorMsg : Z := 30.
Definition maxTimestampDisplay : Z := 19.

Definition truncate (s : string) (maxLen : Z) : option string :=
  if Z.of_nat (String.length s) <=? maxLen then Some s
  else
    match slice_to s (wrap64 (maxLen - 3)) with
    | Some p => Some (p +:+ "...")%string
    | None => None
    end.

Definition truncateTimestamp (s : string) : option string :=
  if maxTimestampDisplay <=? Z.of_nat (String.length s)
  then slice_to s maxTimestampDisplay
  else Some s.

(* ===================================================================== *)
(** * Properties *)
(* ===================================================================== *)

(** ** Arithmetic of 64-bit results *)

Lemma wrap64_small (z : Z) : min_int64 <= z <= max_int64 -> wrap64 z = z.
Proof.
  unfold wrap64, min_int64, max_int64; intros Hz.
  rewrite Z.mod_small by lia. lia.
Qed.

Lemma clamp64_small (z : Z) : min_int64 <= z <= max_int64 -> clamp64 z = z.
Proof. unfold clamp64. lia. Qed.

(** Saturation does not change a comparison with a Duration above the
    smallest one. *)
Lemma clamp64_le (d z : Z) :
  min_int64 < d <= max_int64 -> (d <= clamp64 z <-> d <= z).
Proof. unfold clamp64. lia. Qed.

Lemma clamp64_pos (z : Z) : 0 < clamp64 z <-> 0 < z.
Proof. unfold clamp64, min_int64, max_int64. lia. Qed.

(** Up to 9223372036 seconds, [time.Duration(n) * time.Second] is exact. *)
Lemma seconds_exact (n : Z) :
  - 9223372036 <= n <= 9223372036 -> seconds n = n * Second.
Proof.
  intros Hn. unfold seconds. apply wrap64_small.
  unfold min_int64, max_int64, Second. lia.
Qed.

(** ** The state store *)

Section StoreProperties.
Context {lib : GoLib}.

(** The counter of every row is a number, at least 1. *)
Definition counts_positive (w : WarmDB) : Prop :=
  forall url r, warmed_url w !! url = Some r ->
    exists n, warmed_count r = Some n /\ 1 <= n.

(** No row of [warmed_url] holds NULL as its error. *)
Definition errors_not_null (w : WarmDB) : Prop :=
  forall url r, warmed_url w !! url = Some r -> last_error r <> None.

Lemma MarkWarmed_insert (w : WarmDB) now url status errorMsg :
  warmed_url w !! url = None ->
  exists w', MarkWarmed w now url status errorMsg = (w', None) /\
    warmed_url w' !! url =
      Some {| last_warmed_utc := Some (time_Format_RFC3339 now);
              last_status := Some status; last_error := Some errorMsg;
              warmed_count := Some 1 |} /\
    (forall u, u <> url -> warmed_url w' !! u = warmed_url w !! u) /\
    sitemap_seen w' = sitemap_seen w /\ meta w' = meta w.
Proof.
  intros Hnone. unfold MarkWarmed. rewrite Hnone.
  eexists; split; [reflexivity|]; simpl.
  split; [apply lookup_insert_eq|].
  split; [|done]. intros u Hu. by apply lookup_insert_ne.
Qed.

Lemma MarkWarmed_update (w : WarmDB) now url status errorMsg r n :
  warmed_url w !! url = Some r -> warmed_count r = Some n ->
  exists w', MarkWarmed w now url status errorMsg = (w', None) /\
    warmed_url w' !! url =
      Some {| last_warmed_utc := Some (time_Format_RFC3339 now);
              last_status := Some status; last_error := Some errorMsg;
              warmed_count := Some (n + 1) |} /\
    (forall u, u <> url -> warmed_url w' !! u = warmed_url w !! u) /\
    sitemap_seen w' = sitemap_seen w /\ meta w' = meta w.
Proof.
  intros Hsome Hn. unfold MarkWarmed. rewrite Hsome, Hn.
  eexists; split; [reflexivity|]; simpl.
  split; [apply lookup_insert_eq|].
  split; [|done]. intros u Hu. by apply lookup_insert_ne.
Qed.

(** What a call leaves in the table, whatever was there. *)
Lemma MarkWarmed_lookup (w : WarmDB) now url status errorMsg u r :
  warmed_url (MarkWarmed w now url status errorMsg).1 !! u = Some r ->
  warmed_url w !! u = Some r \/
  (u = url /\ last_error r = Some errorMsg /\
   exists n, warmed_count r = Some n /\
     (n = 1 \/ exists r0 n0, warmed_url w !! url = Some r0 /\
                 warmed_count r0 = Some n0 /\ n = n0 + 1)).
Proof.
  unfold MarkWarmed.
  destruct (warmed_url w !! url) as [r0|] eqn:Hr0.
  - destruct (warmed_count r0) as [n0|] eqn:Hn0; simpl; [|by left].
    destruct (decide (u = url)) as [->|Hne].
    + rewrite lookup_insert_eq. intros [= <-]. right; simpl. eauto 10.
    + rewrite lookup_insert_ne by done. by left.
  - simpl. destruct (decide (u = url)) as [->|Hne].
    + rewrite lookup_insert_eq. intros [= <-]. right; simpl. eauto 10.
    + rewrite lookup_insert_ne by done. by left.
Qed.

Lemma MarkWarmed_counts_positive (w : WarmDB) now url status errorMsg :
  counts_positive w ->
  counts_positive (MarkWarmed w now url status errorMsg).1.
Proof.
  intros Hw u r Hr.
  destruct (MarkWarmed_lookup _ _ _ _ _ _ _ Hr)
    as [Hold | (-> & _ & n & Hn & [-> | (r0 & n0 & Hr0 & Hn0 & ->)])].
  - by apply (Hw u).
  - exists 1. split; [done | lia].
  - destruct (Hw _ _ Hr0) as (n1 & Hn1 & Hpos).
    exists (n0 + 1). split; [done|]. rewrite Hn0 in Hn1. simplify_eq. lia.
Qed.

Lemma MarkWarmed_errors_not_null (w : WarmDB) now url status errorMsg :
  errors_not_null w ->
  errors_not_null (MarkWarmed w now url status errorMsg).1.
Proof.
  intros Hw u r Hr.
  destruct (MarkWarmed_lookup _ _ _ _ _ _ _ Hr) as [Hold | (_ & He & _)].
  - by apply (Hw u).
  - by rewrite He.
Qed.

Lemma mark_all_invariant (P : WarmDB -> Prop) :
  (forall w now url status errorMsg,
     P w -> P (MarkWarmed w now url status errorMsg).1) ->
  forall calls w, P w -> P (mark_all w calls).
Proof.
  intros Hstep calls. unfold mark_all.
  induction calls as [|[[[now url] status] errorMsg] calls IH]; intros w Hw.
  - exact Hw.
  - simpl. apply IH, Hstep, Hw.
Qed.

Lemma mark_all_meta (calls : list (Z * string * Z * string)) (w : WarmDB) :
  meta (mark_all w calls) = meta w.
Proof.
  revert w. unfold mark_all.
  induction calls as [|[[[now url] status] errorMsg] calls IH]; intros w.
  - reflexivity.
  - simpl. rewrite IH. unfold MarkWarmed.
    destruct (warmed_url w !! url) as [r|]; [|reflexivity].
    destruct (warmed_count r); reflexivity.
Qed.

(** The rows the first count of [Stats] selects: error NULL and status
    from 200 to 399. *)
Lemma where_ok_iff (r : WarmedURL) :
  where_ok r = true <->
  last_error r = None /\
  exists st, last_status r = Some st /\ 200 <= st <= 399.
Proof.
  unfold where_ok, httpStatusOK, httpStatusSuccessMax.
  destruct (last_error r) as [e|], (last_status r) as [st|]; split;
    try (intros [? _]; discriminate); try discriminate.
  - intros Hb. apply andb_true_iff in Hb as [H1 H2].
    split; [done|]. exists st. split; [done | lia].
  - intros (_ & st' & [= <-] & Hst). apply andb_true_iff. lia.
  - intros (_ & st' & [=] & _).
Qed.

(** With no NULL error in the table, the first count of [Stats] selects no
    row and the second one every row. *)
Lemma count_where_ok_not_null (w : WarmDB) :
  errors_not_null w -> count_where where_ok (warmed_url w) = 0.
Proof.
  intros Hw. unfold count_where.
  rewrite (map_empty_filter_2 _ (warmed_url w)); [by rewrite map_size_empty|].
  intros url r Hr; simpl. unfold where_ok.
  specialize (Hw _ _ Hr). destruct (last_error r); [tauto | congruence].
Qed.

Lemma count_where_err_not_null (w : WarmDB) :
  errors_not_null w ->
  count_where where_err (warmed_url w) = Z.of_nat (size (warmed_url w)).
Proof.
  intros Hw. unfold count_where. rewrite map_filter_id; [done|].
  intros url r Hr; simpl. unfold where_err.
  specialize (Hw _ _ Hr). destruct (last_error r); [exact I | congruence].
Qed.

(** Whatever the statuses and messages recorded, [Stats] reports no
    success and every URL as failed. *)
Lemma Stats_after_mark_all (calls : list (Z * string * Z * string)) :
  exists s, Stats (mark_all empty_db calls) = Ok s /\
    OKTotal s = 0 /\ ErrTotal s = WarmedTotal s.
Proof.
  assert (Hnn : errors_not_null (mark_all empty_db calls)).
  { apply mark_all_invariant.
    - intros; by apply MarkWarmed_errors_not_null.
    - intros url r Hr. simpl in Hr. by rewrite lookup_empty in Hr. }
  unfold Stats, GetLastFlush. rewrite mark_all_meta. simpl.
  rewrite lookup_empty. eexists; split; [reflexivity|]; simpl.
  split; [by apply count_where_ok_not_null | by apply count_where_err_not_null].
Qed.

End StoreProperties.

Section StoreClaims.
Context {lib : GoLib}.

(** The store with the flush marker taken out of [meta]. *)
Definition forget_flush (w : WarmDB) : WarmDB :=
  {| warmed_url := warmed_url w; sitemap_seen := sitemap_seen w;
     meta := delete "last_flush_utc"%string (meta w) |}.

Lemma GetLastFlush_MarkFlush (w : WarmDB) (T : Z) (reason : string) :
  GetLastFlush (MarkFlush w T reason) =
  Ok (time_Parse_RFC3339 (time_Format_RFC3339 T)).
Proof.
  unfold GetLastFlush, MarkFlush; simpl.
  destruct (decide (reason = ""%string)).
  - rewrite lookup_insert_eq. by destruct (time_Parse_RFC3339 _).
  - rewrite lookup_insert_ne by done. rewrite lookup_insert_eq.
    by destruct (time_Parse_RFC3339 _).
Qed.

(** C4: [MarkWarmed] is an upsert: with no row for the URL it inserts one
    whose [warmed_count] is 1; with a row it replaces the timestamp, status
    and error and adds exactly 1 to [warmed_count]; the other rows and
    tables stay as they are. Hence after every sequence of [MarkWarmed]
    calls on a store where every counter is at least 1 (the empty store is
    one), every row of [warmed_url] has a counter of at least 1. *)
Theorem MarkWarmed_upsert_counts (w : WarmDB) (now : Z) (url : string)
    (status : Z) (errorMsg : string) :
  (warmed_url w !! url = None ->
   exists w', MarkWarmed w now url status errorMsg = (w', None) /\
     warmed_url w' !! url =
       Some {| last_warmed_utc := Some (time_Format_RFC3339 now);
               last_status := Some status; last_error := Some errorMsg;
               warmed_count := Some 1 |} /\
     (forall u, u <> url -> warmed_url w' !! u = warmed_url w !! u)) /\
  (forall r n, warmed_url w !! url = Some r -> warmed_count r = Some n ->
   exists w', MarkWarmed w now url status errorMsg = (w', None) /\
     warmed_url w' !! url =
       Some {| last_warmed_utc := Some (time_Format_RFC3339 now);
               last_status := Some status; last_error := Some errorMsg;
               warmed_count := Some (n + 1) |} /\
     (forall u, u <> url -> warmed_url w' !! u = warmed_url w !! u)) /\
  counts_positive empty_db /\
  (forall calls, counts_positive w -> counts_positive (mark_all w calls)).
Proof.
  split; [|split; [|split]].
  - intros Hnone.
    destruct (MarkWarmed_insert w now url status errorMsg Hnone)
      as (w' & Heq & Hrow & Hother & _). eauto.
  - intros r n Hr Hn.
    destruct (MarkWarmed_update w now url status errorMsg r n Hr Hn)
      as (w' & Heq & Hrow & Hother & _). eauto.
  - intros u r Hr. simpl in Hr. by rewrite lookup_empty in Hr.
  - intros calls Hw. revert calls w Hw. apply mark_all_invariant.
    intros; by apply MarkWarmed_counts_positive.
Qed.

(** A row warmed before the last flush is warmed again. *)
Lemma ShouldWarm_flushed (w : WarmDB) (now : Z) (url : string)
    (rewarmAfter : Z) (r : WarmedURL) (s : string) (t f : Z) :
  GetLastFlush w = Ok (Some f) ->
  warmed_url w !! url = Some r -> last_warmed_utc r = Some s ->
  time_Parse_RFC3339 s = Some t -> t < f ->
  ShouldWarm w now url rewarmAfter = Ok true.
Proof.
  intros Hlf Hr Hs Ht Hlt. unfold ShouldWarm.
  rewrite Hlf, Hr, Hs, Ht. by rewrite (proj2 (Z.ltb_lt t f) Hlt).
Qed.

(** C2: [ShouldWarm], when the flush marker can be read ([GetLastFlush]
    returns [lastFlush] and no error): it returns true if the URL has no
    row; true if a flush exists and the stored [last_warmed_utc] is before
    it; otherwise true exactly when [time.Since] of the stored timestamp is
    at least the rewarm interval (for an interval in the range of a
    Duration above the smallest one: exactly when [now] minus the timestamp
    is); and true if the stored timestamp does not parse. *)
Theorem ShouldWarm_cases (w : WarmDB) (now : Z) (url : string)
    (rewarmAfter : Z) (lastFlush : option Z) :
  GetLastFlush w = Ok lastFlush ->
  (warmed_url w !! url = None ->
   ShouldWarm w now url rewarmAfter = Ok true) /\
  (forall r s t f,
     warmed_url w !! url = Some r -> last_warmed_utc r = Some s ->
     time_Parse_RFC3339 s = Some t -> lastFlush = Some f -> t < f ->
     ShouldWarm w now url rewarmAfter = Ok true) /\
  (forall r s t,
     warmed_url w !! url = Some r -> last_warmed_utc r = Some s ->
     time_Parse_RFC3339 s = Some t ->
     (forall f, lastFlush = Some f -> f <= t) ->
     exists b, ShouldWarm w now url rewarmAfter = Ok b /\
       (b = true <-> rewarmAfter <= time_Since now t) /\
       (min_int64 < rewarmAfter <= max_int64 ->
        (b = true <-> rewarmAfter <= now - t))) /\
  (forall r s,
     warmed_url w !! url = Some r -> last_warmed_utc r = Some s ->
     time_Parse_RFC3339 s = None ->
     ShouldWarm w now url rewarmAfter = Ok true).
Proof.
  intros Hlf. split; [|split; [|split]].
  - intros Hr. unfold ShouldWarm. by rewrite Hlf, Hr.
  - intros r s t f Hr Hs Ht -> Hlt.
    by apply (ShouldWarm_flushed w now url rewarmAfter r s t f).
  - intros r s t Hr Hs Ht Hflush. unfold ShouldWarm.
    rewrite Hlf, Hr, Hs, Ht.
    assert (Hb : forall b : bool,
      b = (rewarmAfter <=? time_Since now t) ->
      (b = true <-> rewarmAfter <= time_Since now t) /\
      (min_int64 < rewarmAfter <= max_int64 ->
       (b = true <-> rewarmAfter <= now - t))).
    { intros b ->. rewrite Z.leb_le. split; [done|].
      intros Hd. unfold time_Since, time_Sub. by apply clamp64_le. }
    destruct lastFlush as [f|].
    + specialize (Hflush f eq_refl).
      rewrite (proj2 (Z.ltb_ge t f) Hflush). eauto.
    + eauto.
  - intros r s Hr Hs Ht. unfold ShouldWarm. by rewrite Hlf, Hr, Hs, Ht.
Qed.


(** C10: a [last_flush_utc] that is stored but does not parse makes
    [GetLastFlush] return no flush and no error; [ShouldWarm] then answers
    as on the store without the marker, by the rewarm interval alone. *)
Theorem GetLastFlush_unparsable (w : WarmDB) (v : string) :
  meta w !! "last_flush_utc"%string = Some (Some v) ->
  time_Parse_RFC3339 v = None ->
  GetLastFlush w = Ok None /\
  (forall now url rewarmAfter,
     ShouldWarm w now url rewarmAfter =
     ShouldWarm (forget_flush w) now url rewarmAfter) /\
  (forall now url rewarmAfter r s t,
     warmed_url w !! url = Some r -> last_warmed_utc r = Some s ->
     time_Parse_RFC3339 s = Some t ->
     ShouldWarm w now url rewarmAfter =
     Ok (rewarmAfter <=? time_Since now t)).
Proof.
  intros Hv Hparse.
  assert (Hget : GetLastFlush w = Ok None).
  { unfold GetLastFlush. by rewrite Hv, Hparse. }
  assert (Hforget : GetLastFlush (forget_flush w) = Ok None).
  { unfold GetLastFlush, forget_flush; simpl. by rewrite lookup_delete_eq. }
  split; [exact Hget|]. split.
  - intros now url rewarmAfter. unfold ShouldWarm.
    by rewrite Hget, Hforget.
  - intros now url rewarmAfter r s t Hr Hs Ht. unfold ShouldWarm.
    by rewrite Hget, Hr, Hs, Ht.
Qed.

End StoreClaims.

(** ** The rate limiter *)

(** What holds of a limiter made by [newRateLimiter c _ _] ever after. *)
Definition limiter_inv (c : Z) (rl : rateLimiter) : Prop :=
  minConcurrency rl = 1 /\ maxConcurrency rl = c /\
  1 <= currentConcurrency rl <= c.

Lemma on429_currentConcurrency (now retryAfter : Z) (rl : rateLimiter) :
  currentConcurrency (on429 now retryAfter rl) =
  Z.max (currentConcurrency rl ÷ 2) (minConcurrency rl).
Proof.
  unfold on429; simpl.
  destruct (Z.ltb_spec (currentConcurrency rl ÷ 2) (minConcurrency rl)); lia.
Qed.

Lemma on429_cooldownUntil (now retryAfter : Z) (rl : rateLimiter) :
  cooldownUntil (on429 now retryAfter rl) =
  now + Z.max retryAfter (seconds (cooldownSeconds rl)).
Proof.
  unfold on429, time_Add; simpl.
  destruct (Z.ltb_spec retryAfter (seconds (cooldownSeconds rl))); lia.
Qed.

Lemma quot2_bounds (n : Z) : 1 <= n -> 0 <= n ÷ 2 <= n /\ 2 * (n ÷ 2) <= n.
Proof.
  intros Hn. rewrite Z.quot_div_nonneg by lia.
  pose proof (Z.div_mod n 2 ltac:(lia)).
  pose proof (Z.mod_pos_bound n 2 ltac:(lia)). lia.
Qed.

Lemma limiter_inv_new (c cd ra : Z) :
  1 <= c -> limiter_inv c (newRateLimiter c cd ra).
Proof. intros Hc. unfold limiter_inv; simpl. lia. Qed.

Lemma limiter_inv_on429 (c now retryAfter : Z) (rl : rateLimiter) :
  limiter_inv c rl -> limiter_inv c (on429 now retryAfter rl).
Proof.
  intros (Hmin & Hmax & Hcur). unfold limiter_inv.
  rewrite on429_currentConcurrency. simpl. rewrite Hmin.
  pose proof (quot2_bounds (currentConcurrency rl) ltac:(lia)). lia.
Qed.

Lemma limiter_inv_onSuccess (c : Z) (rl : rateLimiter) :
  c <= max_int64 -> limiter_inv c rl -> limiter_inv c (onSuccess rl).
Proof.
  intros Hc (Hmin & Hmax & Hcur). unfold limiter_inv, onSuccess.
  destruct (recoverAfter rl <=? wrap64 (consecutiveOK rl + 1)); simpl;
    [|lia].
  destruct (Z.ltb_spec (currentConcurrency rl) (maxConcurrency rl)); simpl;
    [|lia].
  rewrite wrap64_small by (unfold min_int64; lia). lia.
Qed.

Lemma limiter_inv_run (c : Z) (es : list limiter_event) (rl : rateLimiter) :
  c <= max_int64 -> limiter_inv c rl -> limiter_inv c (limiter_run rl es).
Proof.
  intros Hc. revert rl. unfold limiter_run.
  induction es as [|e es IH]; intros rl Hrl; simpl; [exact Hrl|].
  apply IH. destruct e; simpl.
  - by apply limiter_inv_on429.
  - by apply limiter_inv_onSuccess.
Qed.

Definition is_On429 (e : limiter_event) : Prop :=
  match e with On429 _ _ => True | OnSuccess => False end.

(** [n] 429s in a row bring a capacity of at most 2^n down to 1. *)
Lemma sustained_429 (c : Z) (es : list limiter_event) (rl : rateLimiter) :
  Forall is_On429 es -> limiter_inv c rl ->
  currentConcurrency rl <= 2 ^ Z.of_nat (length es) ->
  currentConcurrency (limiter_run rl es) = 1.
Proof.
  unfold limiter_run. intros Hes. revert rl.
  induction Hes as [|e es He Hes IH]; intros rl Hrl Hle.
  - simpl in *. destruct Hrl as (_ & _ & Hcur). lia.
  - destruct e as [now retryAfter|]; [|destruct He]. simpl.
    apply IH; [by apply limiter_inv_on429|].
    rewrite on429_currentConcurrency.
    destruct Hrl as (Hmin & _ & Hcur). rewrite Hmin.
    pose proof (quot2_bounds (currentConcurrency rl) ltac:(lia)).
    replace (Z.of_nat (length (On429 now retryAfter :: es)))
      with (Z.succ (Z.of_nat (length es))) in Hle by (simpl length; lia).
    rewrite Z.pow_succ_r in Hle by lia.
    assert (0 < 2 ^ Z.of_nat (length es)) by (apply Z.pow_pos_nonneg; lia).
    lia.
Qed.


(** C6: a limiter initialised with a configured concurrency [c], 1 <= c
    (and [c] a Go int), keeps [currentConcurrency] within [1, c] after every
    finite sequence of [on429] and [onSuccess] calls; and after any such
    sequence, [n] further 429s in a row with c <= 2^n leave it at exactly
    1. *)
Theorem limiter_concurrency_bounds (c cd ra : Z) (es : list limiter_event) :
  1 <= c <= max_int64 ->
  1 <= currentConcurrency (limiter_run (newRateLimiter c cd ra) es) <= c /\
  (forall es429,
     Forall is_On429 es429 -> c <= 2 ^ Z.of_nat (length es429) ->
     currentConcurrency
       (limiter_run (newRateLimiter c cd ra) (es ++ es429)) = 1).
Proof.
  intros [Hc1 Hc2].
  assert (Hinv : limiter_inv c (limiter_run (newRateLimiter c cd ra) es))
    by (apply limiter_inv_run; [done | by apply limiter_inv_new]).
  split; [apply Hinv|].
  intros es429 Hall Hpow. unfold limiter_run. rewrite fold_left_app.
  apply (sustained_429 c); [done | exact Hinv |].
  destruct Hinv as (_ & _ & Hcur). unfold limiter_run in Hcur. lia.
Qed.

(** ** Retry-After *)

Section RetryAfterClaims.
Context {lib : GoLib}.

Lemma parseRetryAfter_default (now : Z) (hdr : string) (defaultSec : Z) :
  (strings_TrimSpace hdr = ""%string \/
   (forall sec, strconv_Atoi (strings_TrimSpace hdr) = Some sec -> sec < 0) /\
   (forall t, time_Parse_RFC1123 (strings_TrimSpace hdr) = Some t ->
      t <= now)) ->
  parseRetryAfter now hdr defaultSec = seconds defaultSec.
Proof.
  unfold parseRetryAfter. intros [Hempty | [Hint Hdate]].
  - rewrite Hempty. by rewrite decide_True.
  - destruct (decide (strings_TrimSpace hdr = ""%string)); [done|].
    destruct (strconv_Atoi (strings_TrimSpace hdr)) as [sec|].
    + specialize (Hint sec eq_refl).
      rewrite (proj2 (Z.leb_gt 0 sec) Hint).
      destruct (time_Parse_RFC1123 (strings_TrimSpace hdr)) as [t|] eqn:Ht;
        [|done].
      specialize (Hdate t eq_refl). unfold time_Until, time_Sub.
      destruct (Z.ltb_spec 0 (clamp64 (t - now))) as [Hpos|]; [|done].
      apply (proj1 (clamp64_pos (t - now))) in Hpos. lia.
    + destruct (time_Parse_RFC1123 (strings_TrimSpace hdr)) as [t|] eqn:Ht;
        [|done].
      specialize (Hdate t eq_refl). unfold time_Until, time_Sub.
      destruct (Z.ltb_spec 0 (clamp64 (t - now))) as [Hpos|]; [|done].
      apply (proj1 (clamp64_pos (t - now))) in Hpos. lia.
Qed.


End RetryAfterClaims.

(** ** The sitemap collector *)

Lemma fetched_app (es1 es2 : list event) :
  fetched (es1 ++ es2) = fetched es1 ++ fetched es2.
Proof. apply omap_app. Qed.

Lemma elem_of_fetched (u : string) (es : list event) :
  u ∈ fetched es <-> EvFetch u ∈ es.
Proof.
  unfold fetched. rewrite list_elem_of_omap. split.
  - intros ([] & Hin & Hf); by simplify_eq.
  - intros Hin. by exists (EvFetch u).
Qed.

(** In [es], every fetch of a URL comes after the URL was marked seen. *)
Definition seen_before_fetch (es : list event) : Prop :=
  forall pre u post, es = pre ++ EvFetch u :: post -> EvSeen u ∈ pre.

(** The state [c'] continues [c] by the events [new]: only URLs not seen in
    [c] are marked, each once, and only marked URLs are fetched, each
    once. *)
Record continues (c c' : CacheWarmer) (new : list event) : Prop := {
  cont_events : events c' = events c ++ new;
  cont_seen : forall u,
    u ∈ seenSitemaps c' <-> u ∈ seenSitemaps c \/ EvSeen u ∈ new;
  cont_fresh : forall u, EvSeen u ∈ new -> u ∉ seenSitemaps c;
  cont_order : seen_before_fetch new;
  cont_fetch_once : NoDup (fetched new)
}.

Lemma fetched_marked (es : list event) (u : string) :
  seen_before_fetch es -> EvFetch u ∈ es -> EvSeen u ∈ es.
Proof.
  intros Hord Hin. apply list_elem_of_split in Hin as (pre & post & ->).
  apply elem_of_app. left. by apply (Hord pre u post).
Qed.

Lemma seen_before_fetch_app (es1 es2 : list event) :
  seen_before_fetch es1 -> seen_before_fetch es2 ->
  seen_before_fetch (es1 ++ es2).
Proof.
  intros H1 H2 pre u post Heq.
  apply app_eq_app in Heq as [l [[-> Hl] | [-> Hl]]].
  - destruct l as [|e l]; simpl in Hl.
    + exfalso. specialize (H2 [] u post (eq_sym Hl)).
      by apply not_elem_of_nil in H2.
    + injection Hl as <- ->. by apply (H1 pre u l).
  - apply elem_of_app. right. by apply (H2 l u post).
Qed.

Lemma continues_refl (c : CacheWarmer) : continues c c [].
Proof.
  split.
  - by rewrite app_nil_r.
  - intros u. split; [by left|]. intros [?|Hin]; [done|].
    by apply not_elem_of_nil in Hin.
  - intros u Hin. by apply not_elem_of_nil in Hin.
  - intros [|??] ?? Heq; discriminate.
  - constructor.
Qed.

Lemma continues_trans (c c1 c2 : CacheWarmer) (n1 n2 : list event) :
  continues c c1 n1 -> continues c1 c2 n2 -> continues c c2 (n1 ++ n2).
Proof.
  intros [He1 Hs1 Hf1 Ho1 Hd1] [He2 Hs2 Hf2 Ho2 Hd2]. split.
  - by rewrite He2, He1, app_assoc.
  - intros u. rewrite Hs2, Hs1, elem_of_app. tauto.
  - intros u [Hin|Hin]%elem_of_app; [by apply Hf1|].
    intros Hc. apply (Hf2 u Hin). apply Hs1. by left.
  - by apply seen_before_fetch_app.
  - rewrite fetched_app. apply NoDup_app. split; [done|]. split; [|done].
    intros u Hu1 Hu2.
    apply elem_of_fetched, (fetched_marked _ _ Ho1) in Hu1.
    apply elem_of_fetched, (fetched_marked _ _ Ho2) in Hu2.
    apply (Hf2 u Hu2). apply Hs1. by right.
Qed.

Section CollectorProperties.
Context {lib : GoLib}.
Variable fetchBytes : list event -> string -> result string.
Variable ctxDone : list event -> bool.
Variable clock : list event -> Z.

Local Abbreviation collect_fuel := (collectURLsFromSitemap fetchBytes ctxDone clock).
Local Abbreviation collect_children := (collectChildren ctxDone).

Lemma continues_mark_sitemap (c : CacheWarmer) (u msg : string) :
  continues c (mark_sitemap clock c u msg) [EvMarkSitemap u msg].
Proof.
  split; simpl.
  - reflexivity.
  - intros v. split; [by left|]. intros [?|Hin]; [done|].
    apply list_elem_of_singleton in Hin. discriminate.
  - intros v Hin. apply list_elem_of_singleton in Hin. discriminate.
  - intros [|? [|??]] ?? Heq; discriminate.
  - constructor.
Qed.

(** The first steps of a call on a URL not seen yet. *)
Lemma continues_visit (c : CacheWarmer) (u : string) :
  u ∉ seenSitemaps c ->
  continues c (log_event (mark_seen c u) (EvFetch u)) [EvSeen u; EvFetch u].
Proof.
  intros Hnew. split; simpl.
  - by rewrite <- app_assoc.
  - intros v. rewrite elem_of_union, elem_of_singleton.
    rewrite elem_of_cons, list_elem_of_singleton. split.
    + intros [->|?]; [right; by left | by left].
    + intros [?|[[= ->]|[=]]]; [by right | by left].
  - intros v [[= ->]|Hin]%elem_of_cons; [done|].
    apply list_elem_of_singleton in Hin. discriminate.
  - intros [|e [|e' pre]] v post Heq; simpl in Heq.
    + discriminate.
    + injection Heq as <- <- <-. apply list_elem_of_singleton. reflexivity.
    + injection Heq as _ _ Heq. destruct pre; discriminate.
  - simpl. apply NoDup_singleton.
Qed.

Lemma collectChildren_continues
    (collect : string -> CacheWarmer -> collected) :
  (forall u c urls err c',
     collect u c = Some (urls, err, c') -> exists new, continues c c' new) ->
  forall children acc c urls err c',
    collect_children collect children acc c = Some (urls, err, c') ->
    exists new, continues c c' new.
Proof.
  intros Hcollect children.
  induction children as [|child rest IH]; intros acc c urls err c' Hrun;
    simpl in Hrun.
  - injection Hrun as <- <- <-. eexists. apply continues_refl.
  - destruct (ctxDone (events c)).
    { injection Hrun as <- <- <-. eexists. apply continues_refl. }
    destruct (collect child c) as [[[childURLs cerr] c1]|] eqn:Hchild;
      [|discriminate].
    destruct (Hcollect _ _ _ _ _ Hchild) as (n1 & Hn1).
    destruct cerr; apply IH in Hrun as (n2 & Hn2);
      exists (n1 ++ n2); by apply (continues_trans c c1 c').
Qed.

(** One unfolding of the recursion. *)
Lemma collect_unfold (fuel : nat) (seed : string) (c : CacheWarmer) :
  collect_fuel (S fuel) seed c =
  if decide (seed ∈ seenSitemaps c) then Some ([], None, c)
  else
    let c1 := log_event (mark_seen c seed) (EvFetch seed) in
    match fetchBytes (events (mark_seen c seed)) seed with
    | Err err => Some ([], Some err, mark_sitemap clock c1 seed (error_msg err))
    | Ok data =>
        match parseSitemapXML data with
        | (_, _, Some err) =>
            Some ([], Some err, mark_sitemap clock c1 seed (error_msg err))
        | (children, pages, None) =>
            collect_children (collect_fuel fuel) children pages
              (mark_sitemap clock c1 seed "")
        end
    end.
Proof. reflexivity. Qed.

Lemma collect_continues (fuel : nat) :
  forall seed c urls err c',
    collect_fuel fuel seed c = Some (urls, err, c') ->
    exists new, continues c c' new.
Proof.
  induction fuel as [|fuel IH]; intros seed c urls err c' Hrun;
    [discriminate|].
  rewrite collect_unfold in Hrun.
  destruct (decide (seed ∈ seenSitemaps c)) as [Hseen|Hnew].
  { injection Hrun as <- <- <-. eexists. apply continues_refl. }
  pose proof (continues_visit c seed Hnew) as Hvisit.
  cbv zeta in Hrun.
  set (c1 := log_event (mark_seen c seed) (EvFetch seed)) in *.
  destruct (fetchBytes (events (mark_seen c seed)) seed) as [data|e].
  - destruct (parseSitemapXML data) as [[children pages] [e|]].
    + injection Hrun as <- <- <-. eexists.
      eapply continues_trans; [exact Hvisit | apply continues_mark_sitemap].
    + apply (collectChildren_continues _ IH) in Hrun as (n2 & Hn2).
      eexists. eapply continues_trans; [|exact Hn2].
      eapply continues_trans; [exact Hvisit | apply continues_mark_sitemap].
  - injection Hrun as <- <- <-. eexists.
    eapply continues_trans; [exact Hvisit | apply continues_mark_sitemap].
Qed.

Lemma collectSeeds_continues (fuel : nat) (seeds : list string) :
  forall acc c urls err c',
    collectSeeds fetchBytes ctxDone clock fuel seeds acc c
      = Some (urls, err, c') ->
    exists new, continues c c' new.
Proof.
  induction seeds as [|sm rest IH]; intros acc c urls err c' Hrun;
    simpl in Hrun.
  - injection Hrun as <- <- <-. eexists. apply continues_refl.
  - destruct (ctxDone (events c)).
    { injection Hrun as <- <- <-. eexists. apply continues_refl. }
    destruct (collect_fuel fuel sm c) as [[[urls1 e1] c1]|] eqn:Hsm;
      [|discriminate].
    apply collect_continues in Hsm as (n1 & Hn1).
    apply IH in Hrun as (n2 & Hn2).
    exists (n1 ++ n2). by apply (continues_trans c c1 c').
Qed.

(** More fuel does not change what a call returns. *)
Lemma collectChildren_mono (collect1 collect2 : string -> CacheWarmer -> collected) :
  (forall u c r, collect1 u c = Some r -> collect2 u c = Some r) ->
  forall children acc c r,
    collect_children collect1 children acc c = Some r ->
    collect_children collect2 children acc c = Some r.
Proof.
  intros Hle children.
  induction children as [|child rest IH]; intros acc c r Hrun; simpl in *.
  - exact Hrun.
  - destruct (ctxDone (events c)); [exact Hrun|].
    destruct (collect1 child c) as [[[childURLs cerr] c1]|] eqn:Hchild;
      [|discriminate].
    rewrite (Hle _ _ _ Hchild). destruct cerr; by apply IH.
Qed.

Lemma collect_fuel_mono (fuel fuel' : nat) :
  (fuel <= fuel')%nat ->
  forall seed c r,
    collect_fuel fuel seed c = Some r -> collect_fuel fuel' seed c = Some r.
Proof.
  revert fuel'. induction fuel as [|fuel IH]; intros fuel' Hle seed c r Hrun;
    [discriminate|].
  destruct fuel' as [|fuel']; [lia|].
  rewrite collect_unfold in *.
  destruct (decide (seed ∈ seenSitemaps c)); [exact Hrun|].
  cbv zeta in *.
  destruct (fetchBytes (events (mark_seen c seed)) seed) as [data|e];
    [|exact Hrun].
  destruct (parseSitemapXML data) as [[children pages] [e|]]; [exact Hrun|].
  revert Hrun. apply collectChildren_mono.
  intros u c2 r2. apply IH. lia.
Qed.

(** Every child sitemap a fetched document can name lies in [U]. *)
Definition children_within (U : gset string) : Prop :=
  forall h u data, fetchBytes h u = Ok data ->
    forall child, child ∈ (parseSitemapXML data).1.1 -> child ∈ U.

Lemma continues_seen_mono (c c' : CacheWarmer) (new : list event) :
  continues c c' new -> seenSitemaps c ⊆ seenSitemaps c'.
Proof. intros Hc u Hu. apply (cont_seen _ _ _ Hc). by left. Qed.

Lemma collectChildren_returns (U S0 : gset string)
    (collect : string -> CacheWarmer -> collected) :
  (forall u c, u ∈ U -> S0 ⊆ seenSitemaps c -> exists r, collect u c = Some r) ->
  (forall u c urls err c',
     collect u c = Some (urls, err, c') -> exists new, continues c c' new) ->
  forall children acc c,
    (forall child, child ∈ children -> child ∈ U) ->
    S0 ⊆ seenSitemaps c ->
    exists r, collect_children collect children acc c = Some r.
Proof.
  intros Hret Hcont children.
  induction children as [|child rest IH]; intros acc c HU HS0; simpl.
  - eauto.
  - destruct (ctxDone (events c)); [eauto|].
    destruct (Hret child c) as [[[childURLs cerr] c1] Hchild];
      [apply HU; by left | done |].
    rewrite Hchild.
    destruct (Hcont _ _ _ _ _ Hchild) as (new & Hnew).
    apply continues_seen_mono in Hnew.
    assert (HU' : forall ch, ch ∈ rest -> ch ∈ U)
      by (intros ch Hch; apply HU; by right).
    destruct cerr; apply IH; (done || set_solver).
Qed.

(** On a finite web the recursion ends: more fuel than there are URLs of
    [U] not seen yet is enough. *)
Lemma collect_returns (U : gset string) :
  children_within U ->
  forall fuel seed c,
    seed ∈ U -> (size (U ∖ seenSitemaps c) < fuel)%nat ->
    exists r, collect_fuel fuel seed c = Some r.
Proof.
  intros HU fuel.
  induction fuel as [|fuel IH]; intros seed c Hseed Hfuel; [lia|].
  rewrite collect_unfold.
  destruct (decide (seed ∈ seenSitemaps c)) as [Hseen|Hnew]; [eauto|].
  cbv zeta.
  destruct (fetchBytes (events (mark_seen c seed)) seed) as [data|e] eqn:Hf;
    [|eauto].
  destruct (parseSitemapXML data) as [[children pages] [e|]] eqn:Hp; [eauto|].
  apply (collectChildren_returns U ({[seed]} ∪ seenSitemaps c)).
  - intros u c2 Hu Hsub. apply IH; [done|].
    assert (Hlt : (size (U ∖ ({[seed]} ∪ seenSitemaps c))
                   < size (U ∖ seenSitemaps c))%nat).
    { apply subset_size. split; [set_solver|].
      intros Hsub'. specialize (Hsub' seed). set_solver. }
    assert (Hle : (size (U ∖ seenSitemaps c2)
                   <= size (U ∖ ({[seed]} ∪ seenSitemaps c)))%nat)
      by (apply subseteq_size; set_solver).
    lia.
  - intros u c2 urls err c' Hrun. by apply (collect_continues fuel) in Hrun.
  - intros child Hchild. apply (HU _ _ _ Hf). by rewrite Hp.
  - simpl. set_solver.
Qed.

Lemma collectSeeds_returns (U : gset string) (fuel : nat) :
  children_within U ->
  forall seeds acc c,
    (forall sm, sm ∈ seeds -> sm ∈ U) ->
    (size (U ∖ seenSitemaps c) < fuel)%nat ->
    exists r, collectSeeds fetchBytes ctxDone clock fuel seeds acc c = Some r.
Proof.
  intros HU seeds.
  induction seeds as [|sm rest IH]; intros acc c Hseeds Hfuel; simpl.
  - eauto.
  - destruct (ctxDone (events c)); [eauto|].
    destruct (collect_returns U HU fuel sm c) as [[[urls e] c1] Hsm];
      [apply Hseeds; by left | done |].
    rewrite Hsm. apply collect_continues in Hsm as (new & Hnew).
    apply continues_seen_mono in Hnew.
    apply IH; [intros; apply Hseeds; by right|].
    assert ((size (U ∖ seenSitemaps c1) <= size (U ∖ seenSitemaps c))%nat)
      by (apply subseteq_size; set_solver).
    lia.
Qed.

(** C9: within a run the collector fetches no sitemap URL twice.
    - A call on a URL that is in the visited set returns the empty list and
      no error and leaves the state as it was: no event, hence no fetch.
    - A call that returns has added events among which every fetch of a URL
      comes after the event that marks this URL seen, no URL is fetched
      twice, and no URL seen before the call is fetched; the same holds of
      all the calls of a run, which starts from the empty visited set.
    - The recursion ends whatever the references between the sitemaps,
      cycles included: when the seeds and every child a fetched document
      names lie in a finite set [U], a call with more fuel than [U] has
      URLs not seen yet returns, and so does the collection of a run with
      more fuel than [U] has URLs; what a call returns is the same with any
      larger fuel. *)
Theorem collector_fetches_once (fuel : nat) (seed : string) (c : CacheWarmer) :
  (seed ∈ seenSitemaps c ->
   collect_fuel (S fuel) seed c = Some ([], None, c)) /\
  (forall urls err c',
     collect_fuel fuel seed c = Some (urls, err, c') ->
     exists new, events c' = events c ++ new /\
       seen_before_fetch new /\ NoDup (fetched new) /\
       (forall u, u ∈ fetched new -> u ∉ seenSitemaps c) /\
       (forall u, u ∈ seenSitemaps c' <->
                  u ∈ seenSitemaps c \/ EvSeen u ∈ new)) /\
  (forall seeds urls err c',
     runOnce_collect fetchBytes ctxDone clock fuel seeds c
       = Some (urls, err, c') ->
     exists new, events c' = events c ++ new /\
       seen_before_fetch new /\ NoDup (fetched new)) /\
  (forall r fuel',
     collect_fuel fuel seed c = Some r -> (fuel <= fuel')%nat ->
     collect_fuel fuel' seed c = Some r) /\
  (forall U : gset string,
     children_within U ->
     (seed ∈ U -> (size (U ∖ seenSitemaps c) < fuel)%nat ->
      exists r, collect_fuel fuel seed c = Some r) /\
     (forall seeds, (forall sm, sm ∈ seeds -> sm ∈ U) ->
      (size U < fuel)%nat ->
      exists r, runOnce_collect fetchBytes ctxDone clock fuel seeds c
                  = Some r)).
Proof.
  split; [|split; [|split; [|split]]].
  - intros Hseen. rewrite collect_unfold. by rewrite decide_True.
  - intros urls err c' Hrun.
    apply collect_continues in Hrun as (new & [He Hs Hf Ho Hd]).
    exists new. repeat split; try done.
    + intros u Hu. apply Hf, (fetched_marked _ _ Ho). by apply elem_of_fetched.
    + by apply Hs.
    + by apply Hs.
  - intros seeds urls err c' Hrun. unfold runOnce_collect in Hrun.
    apply collectSeeds_continues in Hrun as (new & [He Hs Hf Ho Hd]).
    exists new. by repeat split.
  - intros r fuel' Hrun Hle. by apply (collect_fuel_mono fuel).
  - intros U HU. split.
    + by apply collect_returns.
    + intros seeds Hseeds Hfuel. unfold runOnce_collect.
      apply (collectSeeds_returns U); [done | done |]. simpl.
      assert ((size (U ∖ ∅) <= size U)%nat)
        by (apply subseteq_size; set_solver).
      lia.
Qed.

End CollectorProperties.

(** ** Sitemap parsing *)

Section SitemapParsingProperties.
Context {lib : GoLib}.

(** The values that are not empty, each without the white space around
    it. *)
Definition trimmed_locs (locs : list string) : list string :=
  map strings_TrimSpace (filter (fun loc => loc <> ""%string) locs).

Lemma fold_append_loc {A : Type} (f : A -> string) (xs : list A)
    (acc : list string) :
  fold_left (fun l x => append_loc l (f x)) xs acc =
  acc ++ trimmed_locs (map f xs).
Proof.
  revert acc. unfold trimmed_locs.
  induction xs as [|x xs IH]; intros acc; simpl.
  - by rewrite app_nil_r.
  - rewrite IH. unfold append_loc. rewrite filter_cons.
    destruct (decide (f x = ""%string)) as [Heq|Hne].
    + by rewrite decide_False by (intros Hc; by apply Hc).
    + rewrite decide_True by done. simpl. by rewrite <- app_assoc.
Qed.

(** What [parseSitemapXML] returns, by what the two calls of
    [xml.Unmarshal] give: the trimmed non-empty values, in document order,
    and never an error; nothing at all when both calls fail. *)
Lemma parseSitemapXML_spec (data : string) :
  parseSitemapXML data =
  (match xml_Unmarshal_SitemapIndexRoot data with
   | Some idx => trimmed_locs (map idx_Loc (Sitemaps idx))
   | None => []
   end ++
   match xml_Unmarshal_Sitemap data with
   | Some urlset => trimmed_locs (map idx_Loc (Sitemap_ urlset))
   | None => []
   end,
   match xml_Unmarshal_Sitemap data with
   | Some urlset => trimmed_locs (map url_Loc (URLs urlset))
   | None => []
   end,
   None).
Proof.
  unfold parseSitemapXML.
  assert (Hidx :
    match xml_Unmarshal_SitemapIndexRoot data with
    | Some idx =>
        if (0 <? length (Sitemaps idx))%nat then
          fold_left (fun l s => append_loc l (idx_Loc s)) (Sitemaps idx) []
        else []
    | None => []
    end =
    match xml_Unmarshal_SitemapIndexRoot data with
    | Some idx => trimmed_locs (map idx_Loc (Sitemaps idx))
    | None => []
    end).
  { destruct (xml_Unmarshal_SitemapIndexRoot data) as [idx|]; [|done].
    destruct (Sitemaps idx) as [|s0 ss] eqn:Hs; [done|].
    change (0 <? length (s0 :: ss))%nat with true. cbv iota.
    by rewrite fold_append_loc. }
  rewrite Hidx.
  destruct (xml_Unmarshal_Sitemap data) as [urlset|].
  - by rewrite !fold_append_loc.
  - by rewrite app_nil_r.
Qed.

Lemma parseSitemapXML_malformed (data : string) :
  xml_Unmarshal_SitemapIndexRoot data = None ->
  xml_Unmarshal_Sitemap data = None ->
  parseSitemapXML data = ([], [], None).
Proof. intros Hidx Hset. rewrite parseSitemapXML_spec. by rewrite Hidx, Hset. Qed.

End SitemapParsingProperties.

(* ===================================================================== *)
(** * The executable instance of the library *)
(* ===================================================================== *)

(** A run of digits has no comma in it. *)
Lemma number_acc_comma (l1 l2 : list ascii) (acc : Z) :
  GoModel.number_acc acc (l1 ++ ","%char :: l2) = None.
Proof.
  revert acc; induction l1 as [|a l1 IH]; intros acc; simpl.
  - reflexivity.
  - destruct (GoModel.digit a); [apply IH | reflexivity].
Qed.

Lemma model_Atoi_not_RFC1123 (s : string) (n : Z) :
  GoModel.Atoi s = Some n -> GoModel.Parse_RFC1123 s = None.
Proof.
  unfold GoModel.Atoi, GoModel.Parse_RFC1123.
  destruct (list_ascii_of_string s) as [|w1 [|w2 [|w3 [|c0 rest]]]];
    try reflexivity.
  destruct (Ascii.eqb_spec c0 ","%char) as [->|]; [|reflexivity].
  intros H; exfalso; revert H.
  assert (Hall : forall acc, GoModel.number_acc acc
            (w1 :: w2 :: w3 :: ","%char :: rest) = None)
    by (intros; apply (number_acc_comma [w1; w2; w3])).
  assert (Htl : forall acc, GoModel.number_acc acc
            (w2 :: w3 :: ","%char :: rest) = None)
    by (intros; apply (number_acc_comma [w2; w3])).
  unfold GoModel.number.
  destruct (Ascii.eqb w1 "+"); [rewrite Htl; discriminate|].
  destruct (Ascii.eqb w1 "-"); [rewrite Htl; discriminate|].
  rewrite Hall; discriminate.
Qed.

Definition go_model : GoLib := {|
  strings_TrimSpace := GoModel.TrimSpace;
  strconv_Atoi := GoModel.Atoi;
  time_Format_RFC3339 := GoModel.Format_RFC3339;
  time_Parse_RFC3339 := GoModel.Parse_RFC3339;
  time_Parse_RFC1123 := GoModel.Parse_RFC1123;
  xml_Unmarshal_SitemapIndexRoot := GoModel.Unmarshal_SitemapIndexRoot;
  xml_Unmarshal_Sitemap := GoModel.Unmarshal_Sitemap;
  TrimSpace_empty := eq_refl;
  Atoi_not_RFC1123 := model_Atoi_not_RFC1123
|}.

(* ===================================================================== *)
(** * The properties on concrete runs *)
(* ===================================================================== *)

Section Examples.
#[local] Existing Instance go_model.

(** 2026-01-07T12:00:00Z *)
Definition t0 : Z := 1767787200 * Second.
Definition ms : Z := 1000000.

Definition url_a : string := "https://x/a".
Definition url_b : string := "https://x/b".

(** The store after the basic warm: both URLs answered 200. *)
Definition warmed2 : WarmDB :=
  mark_all empty_db
    [(t0 + 200 * ms, url_a, 200, ""%string);
     (t0 + 300 * ms, url_b, 200, ""%string)].

Definition row_a : WarmedURL :=
  {| last_warmed_utc := Some "2026-01-07T12:00:00Z"%string;
     last_status := Some 200; last_error := Some ""%string;
     warmed_count := Some 1 |}.

(** C1: after the basic warm of the specification (two URLs, both recorded
    by [MarkWarmed] with status 200 and the empty error message), [Stats]
    reports 2 warmed URLs, 0 successes and 2 failures: [MarkWarmed] stores
    the empty message as a text, not as NULL, and [Stats] counts as
    successes only rows whose error is NULL. *)
Theorem Stats_basic_warm :
  Stats warmed2 =
  Ok {| WarmedTotal := 2; OKTotal := 0; ErrTotal := 2;
        LastFlushUTC := ""%string |}.
Proof. vm_compute. reflexivity. Qed.

Lemma MarkWarmed_upsert_counts_witness :
  exists w',
    MarkWarmed warmed2 (t0 + Second) url_a 200 ""%string = (w', None) /\
    warmed_url w' !! url_a =
      Some {| last_warmed_utc := Some (time_Format_RFC3339 (t0 + Second));
              last_status := Some 200; last_error := Some ""%string;
              warmed_count := Some (1 + 1) |} /\
    (forall u, u <> url_a -> warmed_url w' !! u = warmed_url warmed2 !! u).
Proof.
  destruct (MarkWarmed_upsert_counts warmed2 (t0 + Second) url_a 200 ""%string)
    as (_ & Hupdate & _).
  apply (Hupdate row_a 1); vm_compute; reflexivity.
Defined.

Lemma ShouldWarm_cases_witness :
  ShouldWarm (MarkFlush warmed2 (t0 + 2 * Second) "deploy") (t0 + 3 * Second)
    url_a (hours 24) = Ok true.
Proof.
  destruct (ShouldWarm_cases
              (MarkFlush warmed2 (t0 + 2 * Second) "deploy") (t0 + 3 * Second)
              url_a (hours 24) (Some (t0 + 2 * Second)))
    as (_ & Hflushed & _).
  - vm_compute. reflexivity.
  - apply (Hflushed row_a "2026-01-07T12:00:00Z"%string t0 (t0 + 2 * Second));
      vm_compute; reflexivity.
Defined.



(** A store whose flush marker was overwritten by hand. *)
Definition bad_flush : WarmDB :=
  {| warmed_url := warmed_url warmed2; sitemap_seen := ∅;
     meta := {[ "last_flush_utc"%string := Some "yesterday"%string ]} |}.

Lemma GetLastFlush_unparsable_witness :
  GetLastFlush bad_flush = Ok None /\
  ShouldWarm bad_flush (t0 + Second) url_a (hours 24) =
    Ok (hours 24 <=? time_Since (t0 + Second) t0).
Proof.
  destruct (GetLastFlush_unparsable bad_flush "yesterday"%string)
    as (Hget & _ & Hinterval); [vm_compute; reflexivity ..|].
  split; [exact Hget|].
  apply (Hinterval _ _ _ row_a "2026-01-07T12:00:00Z"%string t0);
    vm_compute; reflexivity.
Defined.


Lemma limiter_concurrency_bounds_witness :
  1 <= currentConcurrency
         (limiter_run (newRateLimiter 8 120 50)
            [On429 t0 (seconds 1); OnSuccess]) <= 8 /\
  currentConcurrency
    (limiter_run (newRateLimiter 8 120 50)
       ([On429 t0 (seconds 1); OnSuccess] ++
        [On429 t0 0; On429 t0 0; On429 t0 0])) = 1.
Proof.
  destruct (limiter_concurrency_bounds 8 120 50
              [On429 t0 (seconds 1); OnSuccess]) as [Hbounds Hsustained].
  - unfold max_int64. lia.
  - split; [exact Hbounds|].
    apply Hsustained; [repeat constructor | simpl; lia].
Defined.


(** C8: a <loc> that holds white space only is not empty, so it passes the
    test, and trimming leaves the empty string: [parseSitemapXML] returns
    empty values, among the pages and among the child sitemaps. *)
Theorem parseSitemapXML_blank_loc :
  parseSitemapXML
    "<urlset><url><loc>https://x/a</loc></url><url><loc> </loc></url><sitemap><loc> </loc></sitemap></urlset>"
  = ([""%string], ["https://x/a"%string; ""%string], None).
Proof. vm_compute. reflexivity. Qed.

(** Two sitemaps that name each other. *)
Definition sitemap_a : string := "https://x/a.xml".
Definition sitemap_b : string := "https://x/b.xml".
Definition doc_a : string :=
  "<sitemapindex><sitemap><loc>https://x/b.xml</loc></sitemap></sitemapindex>".
Definition doc_b : string :=
  "<urlset><url><loc>https://x/p</loc></url><sitemap><loc>https://x/a.xml</loc></sitemap></urlset>".

Definition web (h : list event) (u : string) : result string :=
  if String.eqb u sitemap_a then Ok doc_a
  else if String.eqb u sitemap_b then Ok doc_b
  else Err (ErrFetch "HTTP 404").

Definition never_done (h : list event) : bool := false.
Definition clock0 (h : list event) : Z := t0 + Z.of_nat (length h) * Second.

Definition fresh : CacheWarmer :=
  {| db := empty_db; seenSitemaps := ∅; events := [] |}.

Lemma web_children : children_within web {[sitemap_a; sitemap_b]}.
Proof.
  intros h u data Hfetch child Hchild. unfold web in Hfetch.
  destruct (String.eqb u sitemap_a).
  - injection Hfetch as <-.
    replace (parseSitemapXML doc_a) with ([sitemap_b], @nil string, @None error)
      in Hchild by (vm_compute; reflexivity).
    simpl in Hchild. apply list_elem_of_singleton in Hchild as ->. set_solver.
  - destruct (String.eqb u sitemap_b); [|discriminate].
    injection Hfetch as <-.
    replace (parseSitemapXML doc_b)
      with ([sitemap_a], ["https://x/p"%string], @None error)
      in Hchild by (vm_compute; reflexivity).
    simpl in Hchild. apply list_elem_of_singleton in Hchild as ->. set_solver.
Qed.

(** The run on the cycle: each sitemap is fetched once, the page is found. *)
Example collect_cycle :
  exists c',
    collectURLsFromSitemap web never_done clock0 3 sitemap_a fresh
      = Some (["https://x/p"%string], None, c') /\
    events c' =
      [EvSeen sitemap_a; EvFetch sitemap_a; EvMarkSitemap sitemap_a "";
       EvSeen sitemap_b; EvFetch sitemap_b; EvMarkSitemap sitemap_b ""].
Proof. eexists. split; vm_compute; reflexivity. Qed.

Lemma collector_fetches_once_witness :
  (exists r,
     collectURLsFromSitemap web never_done clock0 3 sitemap_a fresh = Some r) /\
  (exists r,
     runOnce_collect web never_done clock0 3 [sitemap_a; sitemap_b] fresh
       = Some r).
Proof.
  destruct (collector_fetches_once web never_done clock0 3 sitemap_a fresh)
    as (_ & _ & _ & _ & Hends).
  destruct (Hends {[sitemap_a; sitemap_b]} web_children) as [Hcall Hrun].
  split.
  - apply Hcall; [set_solver|].
    replace (size ({[sitemap_a; sitemap_b]} ∖ seenSitemaps fresh))
      with 2%nat by (vm_compute; reflexivity).
    lia.
  - apply Hrun; [set_solver|].
    replace (size ({[sitemap_a; sitemap_b]} : gset string))
      with 2%nat by (vm_compute; reflexivity).
    lia.
Defined.

End Examples.

(* ===================================================================== *)
(** * Further properties of the state store *)
(* ===================================================================== *)

(** Two conditions no row meets together select at most as many rows as the
    table has. *)
Lemma count_where_disjoint (p q : WarmedURL -> bool)
    (m : gmap string WarmedURL) :
  (forall r, p r = true -> q r = true -> False) ->
  0 <= count_where p m /\ 0 <= count_where q m /\
  count_where p m + count_where q m <= Z.of_nat (size m).
Proof.
  intros Hpq. unfold count_where.
  induction m as [|url r m Hnone IH] using map_ind.
  - rewrite !map_filter_empty, !map_size_empty. lia.
  - rewrite !map_filter_insert, map_size_insert_None by done.
    rewrite !delete_id by done.
    assert (Hfp : filter (fun kv : string * WarmedURL => Is_true (p kv.2)) m
                    !! url = None)
      by (rewrite map_lookup_filter, Hnone; done).
    assert (Hfq : filter (fun kv : string * WarmedURL => Is_true (q kv.2)) m
                    !! url = None)
      by (rewrite map_lookup_filter, Hnone; done).
    specialize (Hpq r).
    repeat case_decide; simpl in *;
      rewrite ?map_size_insert_None by done;
      destruct (p r), (q r); simpl in *; try tauto; lia.
Qed.

Lemma where_ok_err_disjoint (r : WarmedURL) :
  where_ok r = true -> where_err r = true -> False.
Proof.
  unfold where_ok, where_err, httpStatusOK, httpStatusSuccessMax,
    httpStatusClientErr.
  destruct (last_error r), (last_status r) as [st|]; try discriminate.
  intros Hok Herr. apply andb_true_iff in Hok. apply orb_true_iff in Herr.
  lia.
Qed.

Section StoreExtras.
Context {lib : GoLib}.

(** The calls of a run that are about [url]. *)
Definition calls_on (url : string) (calls : list (Z * string * Z * string))
  : list (Z * string * Z * string) :=
  filter (fun c : Z * string * Z * string => c.1.1.2 = url) calls.

(** The row the calls on a URL leave: the timestamp, status and message of
    the last one and the number of them. *)
Definition row_after (cs : list (Z * string * Z * string))
  : option WarmedURL :=
  match last cs with
  | None => None
  | Some (now, _, status, errorMsg) =>
      Some {| last_warmed_utc := Some (time_Format_RFC3339 now);
              last_status := Some status; last_error := Some errorMsg;
              warmed_count := Some (Z.of_nat (length cs)) |}
  end.

Lemma mark_all_snoc (w : WarmDB) (calls : list (Z * string * Z * string))
    (now : Z) (url : string) (status : Z) (errorMsg : string) :
  mark_all w (calls ++ [(now, url, status, errorMsg)]) =
  (MarkWarmed (mark_all w calls) now url status errorMsg).1.
Proof. unfold mark_all. by rewrite fold_left_app. Qed.

Lemma mark_all_rows (calls : list (Z * string * Z * string)) (url : string) :
  warmed_url (mark_all empty_db calls) !! url = row_after (calls_on url calls).
Proof.
  induction calls as [|[[[now u] status] errorMsg] calls IH] using rev_ind.
  - apply lookup_empty.
  - rewrite mark_all_snoc. unfold calls_on in *. rewrite filter_app.
    rewrite filter_cons, filter_nil. simpl.
    destruct (decide (u = url)) as [->|Hne].
    + unfold row_after. rewrite last_snoc, length_app. simpl.
      unfold MarkWarmed. rewrite IH.
      destruct (filter _ calls) as [|c0 cs] eqn:Hcs.
      * simpl. by rewrite lookup_insert_eq.
      * unfold row_after.
        destruct (last (c0 :: cs)) as [[[[now0 u0] st0] msg0]|] eqn:Hlast.
        -- simpl. rewrite lookup_insert_eq. do 3 f_equal.
           lia.
        -- by apply last_None in Hlast.
    + rewrite app_nil_r, <- IH. unfold MarkWarmed.
      destruct (warmed_url (mark_all empty_db calls) !! u) as [r|]; simpl.
      * destruct (warmed_count r); simpl; [|done].
        by rewrite lookup_insert_ne.
      * by rewrite lookup_insert_ne.
Qed.

(** X1: The table after a run from the empty store: a URL has a row exactly
    when the run recorded it; the row holds the timestamp, status and
    message of the last record of the URL, and [warmed_count] is the number
    of records of the URL. *)
Theorem mark_all_counts_records (calls : list (Z * string * Z * string))
    (url : string) :
  warmed_url (mark_all empty_db calls) !! url = row_after (calls_on url calls) /\
  (is_Some (warmed_url (mark_all empty_db calls) !! url) <->
   exists now status errorMsg, (now, url, status, errorMsg) ∈ calls) /\
  (forall r, warmed_url (mark_all empty_db calls) !! url = Some r ->
     warmed_count r = Some (Z.of_nat (length (calls_on url calls)))).
Proof.
  pose proof (mark_all_rows calls url) as Hrow.
  split; [exact Hrow|]. split.
  - rewrite Hrow. unfold row_after. split.
    + intros [r Hr].
      destruct (last (calls_on url calls)) as [[[[now u] st] msg]|] eqn:Hlast;
        [|discriminate].
      apply last_Some_elem_of in Hlast.
      apply list_elem_of_filter in Hlast as [Hu Hin]. simpl in Hu. subst u.
      eauto.
    + intros (now & st & msg & Hin).
      assert (Hf : (now, url, st, msg) ∈ calls_on url calls)
        by (apply list_elem_of_filter; split; [done | exact Hin]).
      destruct (last (calls_on url calls)) as [[[[now0 u0] st0] msg0]|]
        eqn:Hlast; [eauto|].
      apply last_None in Hlast. rewrite Hlast in Hf.
      by apply not_elem_of_nil in Hf.
  - intros r. rewrite Hrow. unfold row_after.
    destruct (last (calls_on url calls)) as [[[[now u] st] msg]|];
      [|discriminate].
    by intros [= <-].
Qed.

(** X2: A URL just recorded is not warmed again before the rewarm interval
    has passed: after [MarkWarmed] at [now] (whose timestamp reads back as
    [now] cut to whole seconds) on a store whose last flush, if any, is not
    after that timestamp, [ShouldWarm] answers true exactly when
    [time.Since] of the timestamp is at least the interval. *)
Theorem MarkWarmed_then_ShouldWarm (w : WarmDB) (now : Z) (url : string)
    (status : Z) (errorMsg : string) (lastFlush : option Z)
    (now' rewarmAfter : Z) :
  (MarkWarmed w now url status errorMsg).2 = None ->
  time_Parse_RFC3339 (time_Format_RFC3339 now) = Some (truncate_seconds now) ->
  GetLastFlush w = Ok lastFlush ->
  (forall f, lastFlush = Some f -> f <= truncate_seconds now) ->
  ShouldWarm (MarkWarmed w now url status errorMsg).1 now' url rewarmAfter =
    Ok (rewarmAfter <=? time_Since now' (truncate_seconds now)) /\
  (min_int64 < rewarmAfter <= max_int64 ->
   now' - truncate_seconds now < rewarmAfter ->
   ShouldWarm (MarkWarmed w now url status errorMsg).1 now' url rewarmAfter =
     Ok false).
Proof.
  intros Hok Hparse Hlf Hflush.
  assert (Hrow : exists r,
    warmed_url (MarkWarmed w now url status errorMsg).1 !! url = Some r /\
    last_warmed_utc r = Some (time_Format_RFC3339 now) /\
    meta (MarkWarmed w now url status errorMsg).1 = meta w).
  { unfold MarkWarmed in *.
    destruct (warmed_url w !! url) as [r0|].
    - destruct (warmed_count r0); [|discriminate]. simpl.
      rewrite lookup_insert_eq. eauto.
    - simpl. rewrite lookup_insert_eq. eauto. }
  destruct Hrow as (r & Hr & Hts & Hmeta).
  assert (Hlf' : GetLastFlush (MarkWarmed w now url status errorMsg).1
                 = Ok lastFlush)
    by (unfold GetLastFlush in *; by rewrite Hmeta).
  assert (Heq :
    ShouldWarm (MarkWarmed w now url status errorMsg).1 now' url rewarmAfter =
    Ok (rewarmAfter <=? time_Since now' (truncate_seconds now))).
  { unfold ShouldWarm. rewrite Hlf', Hr, Hts, Hparse.
    destruct lastFlush as [f|]; [|done].
    by rewrite (proj2 (Z.ltb_ge (truncate_seconds now) f) (Hflush f eq_refl)). }
  split; [exact Heq|].
  intros Hd Hlt. rewrite Heq. f_equal. apply Z.leb_gt.
  unfold time_Since, time_Sub.
  destruct (Z.le_gt_cases rewarmAfter (clamp64 (now' - truncate_seconds now)))
    as [Hle|Hgt]; [|lia].
  apply (proj1 (clamp64_le rewarmAfter _ Hd)) in Hle. lia.
Qed.

(** X3: [MarkFlush] overwrites the flush timestamp, whatever the one stored
    (a later call wins, also with an earlier clock); it stores the reason
    only when the reason is not empty, so a flush with an empty reason keeps
    the reason of an earlier flush; it leaves the other keys of [meta] and
    the other two tables as they are. *)
Theorem MarkFlush_effect (w : WarmDB) (T : Z) (reason : string) :
  meta (MarkFlush w T reason) !! "last_flush_utc"%string =
    Some (Some (time_Format_RFC3339 T)) /\
  (reason <> ""%string ->
   meta (MarkFlush w T reason) !! "last_flush_reason"%string =
     Some (Some reason)) /\
  meta (MarkFlush w T ""%string) !! "last_flush_reason"%string =
    meta w !! "last_flush_reason"%string /\
  (forall k, k <> "last_flush_utc"%string -> k <> "last_flush_reason"%string ->
   meta (MarkFlush w T reason) !! k = meta w !! k) /\
  warmed_url (MarkFlush w T reason) = warmed_url w /\
  sitemap_seen (MarkFlush w T reason) = sitemap_seen w /\
  (forall T0 reason0,
     GetLastFlush (MarkFlush (MarkFlush w T0 reason0) T reason) =
     GetLastFlush (MarkFlush w T reason)).
Proof.
  assert (Hlast : forall T0 reason0,
     GetLastFlush (MarkFlush (MarkFlush w T0 reason0) T reason) =
     GetLastFlush (MarkFlush w T reason))
    by (intros; by rewrite !GetLastFlush_MarkFlush).
  unfold MarkFlush; simpl. repeat apply conj.
  - destruct (decide (reason = ""%string)).
    + apply lookup_insert_eq.
    + rewrite lookup_insert_ne by done. apply lookup_insert_eq.
  - intros Hne. rewrite decide_False by done. apply lookup_insert_eq.
  - by rewrite lookup_insert_ne.
  - intros k Hk1 Hk2. destruct (decide (reason = ""%string)).
    + by rewrite lookup_insert_ne.
    + by rewrite !lookup_insert_ne.
  - reflexivity.
  - reflexivity.
  - exact Hlast.
Qed.

(** X4: In every store [Stats] counts no row twice: the successes and the
    failures together are at most the rows of the table, and a row with no
    error and a status from 1 to 199 is in neither count. *)
Theorem Stats_counts_disjoint (w : WarmDB) (s : Stats_) :
  Stats w = Ok s ->
  0 <= OKTotal s /\ 0 <= ErrTotal s /\
  OKTotal s + ErrTotal s <= WarmedTotal s /\
  WarmedTotal s = Z.of_nat (size (warmed_url w)) /\
  (forall r st, last_error r = None -> last_status r = Some st ->
     1 <= st <= 199 -> where_ok r = false /\ where_err r = false).
Proof.
  unfold Stats. destruct (GetLastFlush w) as [lf|]; [|discriminate].
  intros [= <-]; simpl.
  pose proof (count_where_disjoint where_ok where_err (warmed_url w)
                where_ok_err_disjoint) as (H1 & H2 & H3).
  split; [done|]. split; [done|]. split; [done|]. split; [done|].
  intros r st Herr Hst Hrange. split.
  - unfold where_ok, httpStatusOK. rewrite Herr, Hst.
    apply andb_false_iff. left. lia.
  - unfold where_err, httpStatusClientErr. rewrite Herr, Hst.
    apply orb_false_iff. lia.
Qed.

(** [MarkSitemap] is an upsert on [sitemap_seen]: the row of the URL
    holds the new timestamp and message, a new URL adds one row and a known
    one adds none, and nothing else changes. *)
Lemma MarkSitemap_upsert (w : WarmDB) (now : Z) (sitemapURL errorMsg : string) :
  sitemap_seen (MarkSitemap w now sitemapURL errorMsg) !! sitemapURL =
    Some {| last_fetched_utc := Some (time_Format_RFC3339 now);
            sitemap_last_error := Some errorMsg |} /\
  (forall u, u <> sitemapURL ->
     sitemap_seen (MarkSitemap w now sitemapURL errorMsg) !! u =
     sitemap_seen w !! u) /\
  size (sitemap_seen (MarkSitemap w now sitemapURL errorMsg)) =
    (if decide (is_Some (sitemap_seen w !! sitemapURL))
     then size (sitemap_seen w) else S (size (sitemap_seen w))) /\
  warmed_url (MarkSitemap w now sitemapURL errorMsg) = warmed_url w /\
  meta (MarkSitemap w now sitemapURL errorMsg) = meta w.
Proof.
  unfold MarkSitemap.
  destruct (sitemap_seen w !! sitemapURL) as [r|] eqn:Hr; simpl.
  - repeat split.
    + by rewrite lookup_alter_eq, Hr.
    + intros u Hu. by rewrite lookup_alter_ne.
    + by rewrite <- !(size_dom (D := gset string)), dom_alter_L.
  - repeat split.
    + apply lookup_insert_eq.
    + intros u Hu. by rewrite lookup_insert_ne.
    + by apply map_size_insert_None.
Qed.

End StoreExtras.

(* ===================================================================== *)
(** * Further properties of the rate limiter *)
(* ===================================================================== *)

(** The slots in use are within the capacity. *)
Definition slots_ok (rl : rateLimiter) : Prop :=
  0 <= activeWorkers rl <= currentConcurrency rl.

Lemma acquire_pass_admitted (v : acquire_view) (rl' : rateLimiter) :
  acquire_pass_of v = PassAdmitted rl' ->
  av_done v = false /\ cooldownUntil (av_rl v) <= av_now v /\
  activeWorkers (av_rl v) < currentConcurrency (av_rl v) /\
  activeWorkers rl' = wrap64 (activeWorkers (av_rl v) + 1) /\
  currentConcurrency rl' = currentConcurrency (av_rl v) /\
  cooldownUntil rl' = cooldownUntil (av_rl v).
Proof.
  unfold acquire_pass_of.
  destruct (av_done v); [discriminate|].
  destruct (Z.ltb_spec (av_now v) (cooldownUntil (av_rl v))).
  { destruct (av_done_asleep v); discriminate. }
  destruct (Z.ltb_spec (activeWorkers (av_rl v)) (currentConcurrency (av_rl v)));
    [|discriminate].
  intros [= <-]. simpl. repeat split; done.
Qed.

Lemma acquire_admitted (views : list acquire_view) (rl' : rateLimiter) :
  acquire views = Some (Ok rl') ->
  exists v, v ∈ views /\ acquire_pass_of v = PassAdmitted rl'.
Proof.
  induction views as [|v views IH]; simpl; [discriminate|].
  destruct (acquire_pass_of v) as [|rl| |] eqn:Hpass; try discriminate.
  - intros [= <-]. exists v. split; [by left | done].
  - intros Hrest. destruct (IH Hrest) as (v' & Hin & Hv'). exists v'.
    split; [by right | done].
  - intros Hrest. destruct (IH Hrest) as (v' & Hin & Hv'). exists v'.
    split; [by right | done].
Qed.

(** X5: [acquire] returns nil only from a pass in which the context is not
    done, the cooldown is over and a slot is free, and then it takes exactly
    one slot. After [on429] at [now] nobody is admitted before [now] plus
    the larger of the hint and the configured cooldown, however many slots
    are free. *)
Theorem acquire_respects_cooldown (views : list acquire_view) :
  (forall rl', acquire views = Some (Ok rl') ->
     exists v, v ∈ views /\ av_done v = false /\
       cooldownUntil (av_rl v) <= av_now v /\
       activeWorkers (av_rl v) < currentConcurrency (av_rl v) /\
       activeWorkers rl' = wrap64 (activeWorkers (av_rl v) + 1) /\
       currentConcurrency rl' = currentConcurrency (av_rl v)) /\
  (forall rl0 now retryAfter,
     (forall v, v ∈ views ->
        cooldownUntil (av_rl v) = cooldownUntil (on429 now retryAfter rl0) /\
        av_now v < now + Z.max retryAfter (seconds (cooldownSeconds rl0))) ->
     forall rl', acquire views <> Some (Ok rl')).
Proof.
  split.
  - intros rl' Hacq. destruct (acquire_admitted _ _ Hacq) as (v & Hin & Hv).
    apply acquire_pass_admitted in Hv as (? & ? & ? & ? & ? & ?).
    exists v. repeat split; done.
  - intros rl0 now retryAfter Hviews rl' Hacq.
    destruct (acquire_admitted _ _ Hacq) as (v & Hin & Hv).
    apply acquire_pass_admitted in Hv as (_ & Hcool & _).
    destruct (Hviews v Hin) as [Heq Hnow].
    rewrite Heq, on429_cooldownUntil in Hcool. lia.
Qed.

(** X6: Admission, release of a held slot and [onSuccess] keep the slots in
    use within the capacity; [on429] does not: when every slot is in use and
    the capacity shrinks, more slots are in use than the capacity allows
    (the case the comment in [warmOne] describes). *)
Theorem slots_within_capacity (rl : rateLimiter) :
  slots_ok rl -> currentConcurrency rl <= max_int64 ->
  (forall v rl', av_rl v = rl ->
     acquire_pass_of v = PassAdmitted rl' -> slots_ok rl') /\
  (0 < activeWorkers rl -> slots_ok (release rl)) /\
  (maxConcurrency rl <= max_int64 -> slots_ok (onSuccess rl)) /\
  (forall now retryAfter,
     0 < activeWorkers rl -> activeWorkers rl = currentConcurrency rl ->
     minConcurrency rl < currentConcurrency rl ->
     currentConcurrency (on429 now retryAfter rl)
       < activeWorkers (on429 now retryAfter rl)).
Proof.
  intros [Hlo Hhi] Hmax. unfold slots_ok. repeat apply conj.
  - intros v rl' <- Hpass.
    apply acquire_pass_admitted in Hpass as (_ & _ & Hfree & -> & -> & _).
    rewrite wrap64_small by (unfold min_int64; lia). lia.
  - intros Hpos. simpl.
    rewrite wrap64_small by (unfold min_int64; lia). lia.
  - intros Hmax'. unfold onSuccess.
    destruct (recoverAfter rl <=? wrap64 (consecutiveOK rl + 1)); simpl;
      [|lia].
    destruct (Z.ltb_spec (currentConcurrency rl) (maxConcurrency rl)); simpl;
      [|lia].
    rewrite wrap64_small by (unfold min_int64; lia). lia.
  - intros now retryAfter Hpos Hfull Hmin.
    rewrite on429_currentConcurrency. simpl. rewrite Hfull.
    pose proof (quot2_bounds (currentConcurrency rl) ltac:(lia)). lia.
Qed.

(** The limiter with another count of consecutive successes. *)
Definition with_consecutiveOK (rl : rateLimiter) (n : Z) : rateLimiter :=
  {| currentConcurrency := currentConcurrency rl;
     minConcurrency := minConcurrency rl;
     maxConcurrency := maxConcurrency rl;
     activeWorkers := activeWorkers rl;
     cooldownUntil := cooldownUntil rl;
     consecutiveOK := n;
     recoverAfter := recoverAfter rl;
     cooldownSeconds := cooldownSeconds rl |}.

Lemma onSuccess_below_threshold (rl : rateLimiter) (k : nat) :
  0 <= consecutiveOK rl -> consecutiveOK rl + Z.of_nat k < recoverAfter rl ->
  recoverAfter rl <= max_int64 ->
  limiter_run rl (replicate k OnSuccess) =
  with_consecutiveOK rl (consecutiveOK rl + Z.of_nat k).
Proof.
  unfold limiter_run. revert rl.
  induction k as [|k IH]; intros rl Hok Hlt Hra; simpl.
  - rewrite Z.add_0_r. by destruct rl.
  - assert (Hstep : onSuccess rl =
                    with_consecutiveOK rl (consecutiveOK rl + 1)).
    { unfold onSuccess.
      rewrite wrap64_small by (unfold min_int64; lia).
      destruct (Z.leb_spec (recoverAfter rl) (consecutiveOK rl + 1)); [lia|].
      reflexivity. }
    rewrite Hstep, IH; simpl; try lia.
    unfold with_consecutiveOK; simpl. f_equal. lia.
Qed.

(** X7: Recovery is additive and gated on a streak: from a limiter below its
    maximum with no success counted yet, fewer than [recoverAfter]
    successes in a row change nothing but the count, and exactly
    [recoverAfter] of them raise the capacity by one and reset the count. *)
Theorem onSuccess_recovers_by_one (rl : rateLimiter) :
  consecutiveOK rl = 0 ->
  1 <= recoverAfter rl <= max_int64 ->
  1 <= currentConcurrency rl ->
  currentConcurrency rl < maxConcurrency rl <= max_int64 ->
  (forall k : nat, Z.of_nat k < recoverAfter rl ->
     limiter_run rl (replicate k OnSuccess) =
       with_consecutiveOK rl (Z.of_nat k)) /\
  currentConcurrency
    (limiter_run rl (replicate (Z.to_nat (recoverAfter rl)) OnSuccess))
    = currentConcurrency rl + 1 /\
  consecutiveOK
    (limiter_run rl (replicate (Z.to_nat (recoverAfter rl)) OnSuccess)) = 0.
Proof.
  intros Hzero Hra Hpos Hcur.
  assert (Hbelow : forall k : nat, Z.of_nat k < recoverAfter rl ->
     limiter_run rl (replicate k OnSuccess) =
       with_consecutiveOK rl (Z.of_nat k)).
  { intros k Hk. rewrite onSuccess_below_threshold by lia.
    by rewrite Hzero. }
  split; [exact Hbelow|].
  replace (Z.to_nat (recoverAfter rl))
    with (Z.to_nat (recoverAfter rl - 1) + 1)%nat by lia.
  rewrite replicate_add. unfold limiter_run in *. rewrite fold_left_app.
  rewrite Hbelow by lia. simpl. unfold onSuccess; simpl.
  rewrite Z2Nat.id by lia.
  rewrite wrap64_small by (unfold min_int64; lia).
  destruct (Z.leb_spec (recoverAfter rl) (recoverAfter rl - 1 + 1)); [|lia].
  destruct (Z.ltb_spec (currentConcurrency rl) (maxConcurrency rl)); [|lia].
  simpl. rewrite wrap64_small by (unfold min_int64; lia). done.
Qed.

Section CooldownFloor.
Context {lib : GoLib}.


End CooldownFloor.

(* ===================================================================== *)
(** * Properties of the warming of one URL *)
(* ===================================================================== *)

Lemma count_event_app (p : warm_event -> bool) (l1 l2 : list warm_event) :
  count_event p (l1 ++ l2) = (count_event p l1 + count_event p l2)%nat.
Proof. unfold count_event. by rewrite filter_app, length_app. Qed.

Lemma count_event_cons (p : warm_event -> bool) (e : warm_event)
    (l : list warm_event) :
  count_event p (e :: l) =
  ((if p e then 1 else 0) + count_event p l)%nat.
Proof.
  unfold count_event. rewrite filter_cons.
  destruct (decide (Is_true (p e))) as [Ht|Hf]; destruct (p e); simpl in *;
    done.
Qed.

Lemma count_event_nil (p : warm_event -> bool) : count_event p [] = 0%nat.
Proof. reflexivity. Qed.

(** Rewrites the counts of events down to the counts of the unknown parts. *)
Ltac count_events :=
  repeat (rewrite ?count_event_app, ?count_event_cons, ?count_event_nil);
  simpl.

Section WarmingProperties.
Context {lib : GoLib}.
Variable ctxDone : list warm_event -> bool.
Variable waitForLoad : list warm_event -> option string.
Variable doRequest : list warm_event -> string -> http_outcome.
Variable acquireSlot : list warm_event -> option string.
Variable clock : list warm_event -> Z.
Variable newRequest : string -> option string.
Variable fmt_d : Z -> string.
Variable cfg : HTTPConfig.

Local Abbreviation attempts := (warm_attempts doRequest clock newRequest fmt_d cfg).
Local Abbreviation rounds_of :=
  (warm_rounds ctxDone doRequest acquireSlot clock newRequest fmt_d cfg).
Local Abbreviation warm_one :=
  (warmOne ctxDone waitForLoad doRequest acquireSlot clock newRequest fmt_d cfg).
Local Abbreviation worker :=
  (warm_worker ctxDone waitForLoad doRequest acquireSlot clock newRequest
     fmt_d cfg).

(** An error message the retry loop can hold in [lastErr]: the message of
    a failed request or read, or the text made from a status of 400 or
    more. *)
Definition env_error (url msg : string) : Prop :=
  (exists tr0, doRequest tr0 url = DoError msg \/
               doRequest tr0 url = ReadError msg) \/
  (exists st, httpStatusClientErr <= st /\ msg = http_status_error fmt_d st).

(** What the events [new] of the attempts of one round and their end [e]
    have to do with each other: the limiter is told of a success exactly
    when the attempts return a status below 400 with no error, a status
    returned is never 429, and the slot is neither released nor acquired. *)
Definition attempts_spec (url : string) (lastErr : option string)
    (new : list warm_event) (e : attempts_end) : Prop :=
  count_event is_WRelease new = 0%nat /\
  count_event is_WAcquire new = 0%nat /\
  count_event is_WMarkWarmed new = 0%nat /\
  match e with
  | AReturn status errMsg =>
      status <> httpStatusTooMany /\
      ((errMsg = ""%string /\ status < httpStatusClientErr /\
        count_event is_WOnSuccess new = 1%nat /\
        exists tr0 hdr body, doRequest tr0 url = Response status hdr body) \/
       (count_event is_WOnSuccess new = 0%nat /\
        ((status = 0 /\ newRequest url = Some errMsg) \/
         (httpStatusClientErr <= status /\
          errMsg = http_status_error fmt_d status))))
  | AExit got429 retryAfter429 err =>
      count_event is_WOnSuccess new = 0%nat /\
      (got429 = true -> exists pre, new = pre ++ [WOn429 retryAfter429]) /\
      (got429 = false ->
       (new = [] /\ err = lastErr) \/
       (exists msg, err = Some msg /\ env_error url msg))
  end.

Lemma attempts_spec_no_pass (url : string) (lastErr : option string) :
  attempts_spec url lastErr [] (AExit false 0 lastErr).
Proof.
  unfold attempts_spec. split; [done|]. split; [done|]. split; [done|].
  split; [done|]. split; [discriminate|]. intros _. by left.
Qed.

Lemma attempts_spec_bad_request (url : string) (lastErr : option string)
    (err : string) :
  newRequest url = Some err -> attempts_spec url lastErr [] (AReturn 0 err).
Proof.
  intros Hreq. unfold attempts_spec.
  split; [done|]. split; [done|]. split; [done|]. split; [done|].
  right. split; [done|]. by left.
Qed.

Lemma attempts_spec_last_error (url : string) (lastErr : option string)
    (msg : string) :
  env_error url msg ->
  attempts_spec url lastErr [WRequest url] (AExit false 0 (Some msg)).
Proof.
  intros Henv. unfold attempts_spec.
  split; [done|]. split; [done|]. split; [done|]. split; [done|].
  split; [discriminate|]. intros _. right. by exists msg.
Qed.

Lemma attempts_spec_429 (url : string) (lastErr : option string) (ra : Z) :
  attempts_spec url lastErr ([WRequest url] ++ [WOn429 ra])
    (AExit true ra lastErr).
Proof.
  unfold attempts_spec.
  split; [done|]. split; [done|]. split; [done|]. split; [done|].
  split; [|discriminate]. intros _. by exists [WRequest url].
Qed.

Lemma attempts_spec_http_error (url : string) (lastErr : option string)
    (st : Z) :
  st <> httpStatusTooMany -> httpStatusClientErr <= st ->
  attempts_spec url lastErr [WRequest url]
    (AReturn st (http_status_error fmt_d st)).
Proof.
  intros Hne Hge. unfold attempts_spec.
  split; [done|]. split; [done|]. split; [done|]. split; [done|].
  right. split; [done|]. by right.
Qed.

Lemma attempts_spec_success (url : string) (lastErr : option string)
    (tr0 : list warm_event) (st : Z) (hdr body : string) :
  st <> httpStatusTooMany -> st < httpStatusClientErr ->
  doRequest tr0 url = Response st hdr body ->
  attempts_spec url lastErr ([WRequest url] ++ [WOnSuccess])
    (AReturn st ""%string).
Proof.
  intros Hne Hlt Hdo. unfold attempts_spec.
  split; [done|]. split; [done|]. split; [done|]. split; [done|].
  left. split; [done|]. split; [done|]. split; [done|]. eauto.
Qed.

Lemma attempts_spec_retry (url : string) (lastErr : option string)
    (msg : string) (attempt : Z) (new : list warm_event) (e : attempts_end) :
  env_error url msg ->
  attempts_spec url (Some msg) new e ->
  attempts_spec url lastErr ([WRequest url; WBackoff attempt] ++ new) e.
Proof.
  intros Henv (H1 & H2 & H3 & Hend). unfold attempts_spec.
  split; [count_events; lia|]. split; [count_events; lia|].
  split; [count_events; lia|].
  destruct e as [st em | g ra le].
  - destruct Hend as [Hne Hcases]. split; [done|].
    destruct Hcases as [(? & ? & ? & ?) | (? & ?)].
    + left. split; [done|]. split; [done|]. split; [count_events; lia|]. done.
    + right. split; [count_events; lia | done].
  - destruct Hend as (Hs & Hg & Hng).
    split; [count_events; lia|]. split.
    + intros Hgt. destruct (Hg Hgt) as (pre & ->).
      exists ([WRequest url; WBackoff attempt] ++ pre).
      by rewrite <- !app_assoc.
    + intros Hgf. right. destruct (Hng Hgf) as [[-> ->] | Hex]; [|exact Hex].
      by exists msg.
Qed.

Lemma attempts_events (fuel : nat) (url : string) :
  forall attempt lastErr tr e tr',
    attempts fuel url attempt lastErr tr = Some (e, tr') ->
    exists new, tr' = tr ++ new /\
      (count_event is_WRequest new <= fuel)%nat /\
      attempts_spec url lastErr new e.
Proof.
  induction fuel as [|fuel IH]; intros attempt lastErr tr e tr' Hrun;
    simpl in Hrun.
  - destruct (attempt <=? attempts_limit cfg); [discriminate|].
    injection Hrun as <- <-. exists []. rewrite app_nil_r.
    split; [done|]. split; [done|]. apply attempts_spec_no_pass.
  - destruct (attempt <=? attempts_limit cfg);
      [|injection Hrun as <- <-; exists []; rewrite app_nil_r;
        split; [done|]; split; [count_events; lia|];
        apply attempts_spec_no_pass].
    destruct (newRequest url) as [err|] eqn:Hreq.
    { injection Hrun as <- <-. exists []. rewrite app_nil_r.
      split; [done|]. split; [count_events; lia|].
      by apply attempts_spec_bad_request. }
    assert (Hretry : forall msg,
      env_error url msg ->
      attempts fuel url (wrap64 (attempt + 1)) (Some msg)
        ((tr ++ [WRequest url]) ++ [WBackoff attempt]) = Some (e, tr') ->
      exists new, tr' = tr ++ new /\
        (count_event is_WRequest new <= S fuel)%nat /\
        attempts_spec url lastErr new e).
    { intros msg Henv Hrest.
      apply IH in Hrest as (new & -> & Hcount & Hspec).
      exists ([WRequest url; WBackoff attempt] ++ new).
      split; [by rewrite <- !app_assoc|].
      split; [count_events; lia|].
      by apply attempts_spec_retry with (msg := msg). }
    assert (Hlast : forall msg,
      env_error url msg ->
      exists new, tr ++ [WRequest url] = tr ++ new /\
        (count_event is_WRequest new <= S fuel)%nat /\
        attempts_spec url lastErr new (AExit false 0 (Some msg))).
    { intros msg Henv. exists [WRequest url].
      split; [done|]. split; [count_events; lia|].
      by apply attempts_spec_last_error. }
    destruct (doRequest tr url) as [msg|msg|st hdr body] eqn:Hdo.
    + assert (Henv : env_error url msg) by (left; exists tr; by left).
      destruct (attempts_limit cfg <=? attempt).
      * injection Hrun as <- <-. by apply Hlast.
      * by apply (Hretry msg).
    + assert (Henv : env_error url msg) by (left; exists tr; by right).
      destruct (attempts_limit cfg <=? attempt).
      * injection Hrun as <- <-. by apply Hlast.
      * by apply (Hretry msg).
    + destruct (Z.eqb_spec st httpStatusTooMany) as [->|Hne].
      * injection Hrun as <- <-. eexists.
        split; [by rewrite <- app_assoc|].
        split; [count_events; lia|]. apply attempts_spec_429.
      * destruct (Z.leb_spec httpStatusClientErr st) as [Hge|Hlt].
        -- assert (Henv : env_error url (http_status_error fmt_d st))
             by (right; by exists st).
           destruct (attempts_limit cfg <=? attempt).
           ++ injection Hrun as <- <-. exists [WRequest url].
              split; [done|]. split; [count_events; lia|].
              by apply attempts_spec_http_error.
           ++ by apply (Hretry (http_status_error fmt_d st)).
        -- injection Hrun as <- <-. eexists.
           split; [by rewrite <- app_assoc|].
           split; [count_events; lia|].
           by apply (attempts_spec_success url lastErr tr st hdr body).
Qed.

Lemma wrap64_range (z : Z) : min_int64 <= wrap64 z <= max_int64.
Proof.
  unfold wrap64, min_int64, max_int64.
  pose proof (Z.mod_pos_bound (z + 2 ^ 63) (2 ^ 64) ltac:(lia)). lia.
Qed.

(** The attempts of a round end: the bound of the loop is fuel enough. *)
Lemma attempts_returns (fuel : nat) (url : string) :
  forall attempt lastErr tr,
    1 <= attempt ->
    (Z.to_nat (attempts_limit cfg - attempt + 1) <= fuel)%nat ->
    exists r, attempts fuel url attempt lastErr tr = Some r.
Proof.
  pose proof (wrap64_range (Retries cfg + 1)) as Hlimit.
  fold (attempts_limit cfg) in Hlimit.
  induction fuel as [|fuel IH]; intros attempt lastErr tr Hpos Hfuel; simpl.
  - destruct (Z.leb_spec attempt (attempts_limit cfg)); [lia | eauto].
  - destruct (Z.leb_spec attempt (attempts_limit cfg)); [|eauto].
    destruct (newRequest url); [eauto|].
    assert (Hnext : forall msg tr1,
      (attempts_limit cfg <=? attempt) = false ->
      exists r, attempts fuel url (wrap64 (attempt + 1)) (Some msg) tr1
                  = Some r).
    { intros msg tr1 Hlt. apply Z.leb_gt in Hlt.
      rewrite wrap64_small by (unfold min_int64 in *; lia).
      apply IH; lia. }
    destruct (doRequest tr url) as [msg|msg|st hdr body].
    + destruct (attempts_limit cfg <=? attempt) eqn:Hlast; [eauto|].
      by apply Hnext.
    + destruct (attempts_limit cfg <=? attempt) eqn:Hlast; [eauto|].
      by apply Hnext.
    + destruct (st =? httpStatusTooMany); [eauto|].
      destruct (httpStatusClientErr <=? st); [|eauto].
      destruct (attempts_limit cfg <=? attempt) eqn:Hlast; [eauto|].
      by apply Hnext.
Qed.

(** One round of [warmOne], with [next] for the rounds after it. *)
Definition round_body (next : list warm_event -> warmed) (url : string)
    (tr : list warm_event) : warmed :=
  if ctxDone tr then Some (0, error_msg ErrContext, false, tr)
  else
    match attempts (Z.to_nat (attempts_limit cfg)) url 1 None tr with
    | None => None
    | Some (AReturn status errMsg, tr1) => Some (status, errMsg, false, tr1)
    | Some (AExit got429 retryAfter429 lastErr, tr1) =>
        if got429 then
          if ctxDone (tr1 ++ [WRelease])
          then Some (0, error_msg ErrContext, true, tr1 ++ [WRelease])
          else
            match acquireSlot ((tr1 ++ [WRelease]) ++ [WCooldown retryAfter429])
            with
            | Some err =>
                Some (0, err, true,
                      (tr1 ++ [WRelease]) ++ [WCooldown retryAfter429])
            | None =>
                next (((tr1 ++ [WRelease]) ++ [WCooldown retryAfter429])
                      ++ [WAcquire])
            end
        else
          match lastErr with
          | Some err => Some (0, err, false, tr1)
          | None => Some (0, "unreachable"%string, false, tr1)
          end
    end.

Lemma rounds_unfold (rounds : nat) (url : string) (tr : list warm_event) :
  rounds_of rounds url tr =
  round_body
    (match rounds with
     | O => fun _ => None
     | S rounds' => rounds_of rounds' url
     end) url tr.
Proof. destruct rounds; reflexivity. Qed.

(** Where the message [warmOne] returns can come from when the limiter was
    not told of a success. *)
Definition failure_message (url msg : string) : Prop :=
  msg = error_msg ErrContext \/ msg = "unreachable"%string \/
  newRequest url = Some msg \/ env_error url msg \/
  (exists tr0, acquireSlot tr0 = Some msg) \/
  (exists tr0, waitForLoad tr0 = Some msg).

(** What [warmOne] returns against the events [new] it added. *)
Definition warmed_spec (url : string) (new : list warm_event)
    (status : Z) (errMsg : string) (slotReleased : bool) : Prop :=
  count_event is_WRelease new =
    (count_event is_WAcquire new + (if slotReleased then 1 else 0))%nat /\
  count_event is_WMarkWarmed new = 0%nat /\
  status <> httpStatusTooMany /\
  ((count_event is_WOnSuccess new = 1%nat /\ errMsg = ""%string /\
    status < httpStatusClientErr /\ slotReleased = false /\
    exists tr0 hdr body, doRequest tr0 url = Response status hdr body) \/
   (count_event is_WOnSuccess new = 0%nat /\ failure_message url errMsg)).

Lemma warmed_spec_failed (url : string) (new : list warm_event)
    (status : Z) (errMsg : string) (slotReleased : bool) :
  count_event is_WRelease new =
    (count_event is_WAcquire new + (if slotReleased then 1 else 0))%nat ->
  count_event is_WMarkWarmed new = 0%nat ->
  count_event is_WOnSuccess new = 0%nat ->
  status <> httpStatusTooMany -> failure_message url errMsg ->
  warmed_spec url new status errMsg slotReleased.
Proof. intros. split; [done|]. split; [done|]. split; [done|]. by right. Qed.

Lemma warmed_spec_prefix (url : string) (pre new : list warm_event)
    (status : Z) (errMsg : string) (slotReleased : bool) :
  count_event is_WRelease pre = count_event is_WAcquire pre ->
  count_event is_WMarkWarmed pre = 0%nat ->
  count_event is_WOnSuccess pre = 0%nat ->
  warmed_spec url new status errMsg slotReleased ->
  warmed_spec url (pre ++ new) status errMsg slotReleased.
Proof.
  intros Hbal Hmark Hok (H1 & H2 & H3 & H4).
  split; [count_events; lia|]. split; [count_events; lia|].
  split; [done|].
  destruct H4 as [(? & ? & ? & ? & ?) | (? & ?)].
  - left. split; [count_events; lia | done].
  - right. split; [count_events; lia | done].
Qed.

Lemma round_body_events (next : list warm_event -> warmed) (url : string) :
  (forall tr status errMsg slotReleased tr',
     next tr = Some (status, errMsg, slotReleased, tr') ->
     exists new, tr' = tr ++ new /\
       warmed_spec url new status errMsg slotReleased) ->
  forall tr status errMsg slotReleased tr',
    round_body next url tr = Some (status, errMsg, slotReleased, tr') ->
    exists new, tr' = tr ++ new /\
      warmed_spec url new status errMsg slotReleased.
Proof.
  intros Hnext tr status errMsg slotReleased tr' Hrun.
  unfold round_body in Hrun.
  destruct (ctxDone tr).
  { injection Hrun as <- <- <- <-. exists []. rewrite app_nil_r.
    split; [done|]. apply warmed_spec_failed; try done. by left. }
  destruct (attempts _ url 1 None tr) as [[e tr1]|] eqn:Hatt; [|discriminate].
  apply attempts_events in Hatt as (n1 & -> & _ & Hrel & Hacq & Hmark & Hend).
  destruct e as [st em | got429 ra lastErr].
  { injection Hrun as <- <- <- <-. exists n1. split; [done|].
    destruct Hend as [Hne [(-> & Hlt & Hone & Hresp) | (Hzero & Hwhy)]].
    - split; [lia|]. split; [done|]. split; [done|]. by left.
    - apply warmed_spec_failed; try done; try lia.
      destruct Hwhy as [[_ Hreq] | [Hge ->]].
      + right; right; by left.
      + right; right; right; left. right. by exists st. }
  destruct Hend as (Hzero & Hg & Hng).
  destruct got429.
  - destruct (ctxDone ((tr ++ n1) ++ [WRelease])).
    { injection Hrun as <- <- <- <-. exists (n1 ++ [WRelease]).
      split; [by rewrite app_assoc|].
      apply warmed_spec_failed; try done; try (count_events; lia). by left. }
    destruct (acquireSlot _) as [err|] eqn:Hslot.
    { injection Hrun as <- <- <- <-. exists (n1 ++ [WRelease; WCooldown ra]).
      split; [by rewrite <- !app_assoc|].
      apply warmed_spec_failed; try done; try (count_events; lia).
      right; right; right; right; left. eauto. }
    apply Hnext in Hrun as (n2 & -> & Hspec).
    exists ((n1 ++ [WRelease; WCooldown ra; WAcquire]) ++ n2).
    split; [by rewrite <- !app_assoc|].
    apply warmed_spec_prefix; try done; count_events; lia.
  - destruct (Hng eq_refl) as [[-> ->] | (msg & -> & Henv)].
    + injection Hrun as <- <- <- <-. exists []. split; [done|].
      apply warmed_spec_failed; try done. right; by left.
    + injection Hrun as <- <- <- <-. exists n1. split; [done|].
      apply warmed_spec_failed; try done; try lia.
      right; right; right; by left.
Qed.

Lemma rounds_events (rounds : nat) (url : string) :
  forall tr status errMsg slotReleased tr',
    rounds_of rounds url tr = Some (status, errMsg, slotReleased, tr') ->
    exists new, tr' = tr ++ new /\
      warmed_spec url new status errMsg slotReleased.
Proof.
  induction rounds as [|rounds IH]; intros tr status errMsg slotReleased tr';
    rewrite rounds_unfold; apply round_body_events.
  - discriminate.
  - exact IH.
Qed.

Lemma warmOne_events (rounds : nat) (url : string) :
  forall tr status errMsg slotReleased tr',
    warm_one rounds url tr = Some (status, errMsg, slotReleased, tr') ->
    exists new, tr' = tr ++ new /\
      warmed_spec url new status errMsg slotReleased.
Proof.
  intros tr status errMsg slotReleased tr' Hrun. unfold warmOne in Hrun.
  set (tr1 := if 0 <? MinDelayMS cfg
              then tr ++ [WSleep (wrap64 (MinDelayMS cfg * Millisecond))]
              else tr) in *.
  assert (Hpre : exists pre, tr1 ++ [WLoadGate] = tr ++ pre /\
            count_event is_WRelease pre = count_event is_WAcquire pre /\
            count_event is_WMarkWarmed pre = 0%nat /\
            count_event is_WOnSuccess pre = 0%nat).
  { subst tr1. destruct (0 <? MinDelayMS cfg).
    - eexists. split; [by rewrite <- app_assoc|]. done.
    - eexists. split; [done|]. done. }
  destruct Hpre as (pre & Hpre & Hbal & Hmark & Hok). rewrite Hpre in Hrun.
  destruct (waitForLoad tr1) as [err|] eqn:Hgate.
  - injection Hrun as <- <- <- <-. exists pre. split; [done|].
    apply warmed_spec_failed; try done; try lia.
    right; right; right; right; right. eauto.
  - apply rounds_events in Hrun as (new & -> & Hspec).
    exists (pre ++ new). split; [by rewrite app_assoc|].
    by apply warmed_spec_prefix.
Qed.

(** The text made from a status is not empty. *)
Lemma http_status_error_nonempty (st : Z) :
  http_status_error fmt_d st <> ""%string.
Proof. unfold http_status_error. simpl. discriminate. Qed.

(** X9: The slot protocol of [warmOne]: among the events it adds, the
    releases of the slot are as many as the acquisitions when it returns
    [slotReleased = false] (the caller still holds the slot) and one more
    when it returns [slotReleased = true] (the caller holds none); it never
    writes to the store itself. *)
Theorem warmOne_slot_protocol (rounds : nat) (url : string)
    (tr : list warm_event) (status : Z) (errMsg : string)
    (slotReleased : bool) (tr' : list warm_event) :
  warm_one rounds url tr = Some (status, errMsg, slotReleased, tr') ->
  exists new, tr' = tr ++ new /\
    count_event is_WRelease new =
      (count_event is_WAcquire new + (if slotReleased then 1 else 0))%nat /\
    count_event is_WMarkWarmed new = 0%nat.
Proof.
  intros Hrun. apply warmOne_events in Hrun as (new & -> & H1 & H2 & _).
  exists new. done.
Qed.

(** X10: What [warmOne] reports: the status is never 429; the limiter is
    told of a success at most once, and when it is, the result is a status
    below 400 that a request returned, the empty message and
    [slotReleased = false]. When no error of the environment has an empty
    message, the message returned is empty exactly when the limiter was
    told of a success: a URL is counted ok only after such a response. *)
Theorem warmOne_success_report (rounds : nat) (url : string)
    (tr : list warm_event) (status : Z) (errMsg : string)
    (slotReleased : bool) (tr' : list warm_event) :
  warm_one rounds url tr = Some (status, errMsg, slotReleased, tr') ->
  exists new, tr' = tr ++ new /\
    status <> httpStatusTooMany /\
    (count_event is_WOnSuccess new <= 1)%nat /\
    (count_event is_WOnSuccess new = 1%nat ->
     errMsg = ""%string /\ status < httpStatusClientErr /\
     slotReleased = false /\
     exists tr0 hdr body, doRequest tr0 url = Response status hdr body) /\
    ((forall err, newRequest url = Some err -> err <> ""%string) ->
     (forall tr0 err, doRequest tr0 url = DoError err -> err <> ""%string) ->
     (forall tr0 err, doRequest tr0 url = ReadError err -> err <> ""%string) ->
     (forall tr0 err, acquireSlot tr0 = Some err -> err <> ""%string) ->
     (forall tr0 err, waitForLoad tr0 = Some err -> err <> ""%string) ->
     (errMsg = ""%string <-> count_event is_WOnSuccess new = 1%nat)).
Proof.
  intros Hrun. apply warmOne_events in Hrun as (new & -> & _ & _ & Hne & Hend).
  exists new. split; [done|]. split; [done|].
  destruct Hend as [(Hone & -> & Hlt & -> & Hresp) | (Hzero & Hwhy)].
  - split; [lia|]. split; [done|]. intros _ _ _ _ _. done.
  - split; [lia|]. split; [intros Hc; lia|].
    intros Hreq Hdo Hread Hslot Hgate. split; [|intros Hc; lia].
    intros ->. exfalso.
    destruct Hwhy as [Hc | [Hc | [Hc | [Hc | [[tr0 Hc] | [tr0 Hc]]]]]].
    + discriminate.
    + discriminate.
    + by apply (Hreq _ Hc).
    + destruct Hc as [[tr0 [Hc|Hc]] | (st & _ & Hc)].
      * by apply (Hdo _ _ Hc).
      * by apply (Hread _ _ Hc).
      * symmetry in Hc. by apply http_status_error_nonempty in Hc.
    + by apply (Hslot _ _ Hc).
    + by apply (Hgate _ _ Hc).
Qed.

(** The first pass of the attempts when the budget is not empty and the
    request can be built: what the response decides. *)
Lemma attempts_first_response (url : string) (tr : list warm_event)
    (st : Z) (hdr body : string) :
  1 <= attempts_limit cfg -> newRequest url = None ->
  doRequest tr url = Response st hdr body ->
  (st = httpStatusTooMany ->
   attempts (Z.to_nat (attempts_limit cfg)) url 1 None tr =
     Some (AExit true
             (parseRetryAfter (clock (tr ++ [WRequest url])) hdr
                (cooldownSec_of cfg)) None,
           (tr ++ [WRequest url]) ++
           [WOn429 (parseRetryAfter (clock (tr ++ [WRequest url])) hdr
                      (cooldownSec_of cfg))])) /\
  (st < httpStatusClientErr ->
   attempts (Z.to_nat (attempts_limit cfg)) url 1 None tr =
     Some (AReturn st ""%string, (tr ++ [WRequest url]) ++ [WOnSuccess])).
Proof.
  intros Hlim Hreq Hdo.
  destruct (Z.to_nat (attempts_limit cfg)) as [|fuel] eqn:Hfuel; [lia|].
  simpl. rewrite (proj2 (Z.leb_le 1 (attempts_limit cfg)) Hlim), Hreq, Hdo.
  split.
  - intros ->. reflexivity.
  - intros Hlt.
    destruct (Z.eqb_spec st httpStatusTooMany) as [->|Hne];
      [unfold httpStatusTooMany, httpStatusClientErr in Hlt; lia|].
    by rewrite (proj2 (Z.leb_gt httpStatusClientErr st) Hlt).
Qed.

(** With a budget, the attempts either fail to build the request or send
    one. *)
Lemma attempts_first_pass (fuel : nat) (url : string) (lastErr : option string)
    (tr : list warm_event) (e : attempts_end) (tr' : list warm_event) :
  1 <= attempts_limit cfg -> newRequest url = None ->
  attempts fuel url 1 lastErr tr = Some (e, tr') ->
  exists rest, tr' = tr ++ WRequest url :: rest.
Proof.
  intros Hlim Hreq Hrun. destruct fuel as [|fuel]; simpl in Hrun;
    rewrite (proj2 (Z.leb_le 1 (attempts_limit cfg)) Hlim) in Hrun;
    [discriminate|].
  rewrite Hreq in Hrun.
  assert (Hretry : forall msg,
    attempts fuel url (wrap64 (1 + 1)) (Some msg)
      ((tr ++ [WRequest url]) ++ [WBackoff 1]) = Some (e, tr') ->
    exists rest, tr' = tr ++ WRequest url :: rest).
  { intros msg Hrest.
    apply attempts_events in Hrest as (new & -> & _).
    exists (WBackoff 1 :: new). by rewrite <- !app_assoc. }
  destruct (doRequest tr url) as [msg|msg|st hdr body].
  - destruct (attempts_limit cfg <=? 1); [|by apply (Hretry msg)].
    injection Hrun as <- <-. by exists [].
  - destruct (attempts_limit cfg <=? 1); [|by apply (Hretry msg)].
    injection Hrun as <- <-. by exists [].
  - destruct (st =? httpStatusTooMany).
    { injection Hrun as <- <-. eexists. by rewrite <- app_assoc. }
    destruct (httpStatusClientErr <=? st).
    + destruct (attempts_limit cfg <=? 1);
        [|by apply (Hretry (http_status_error fmt_d st))].
      injection Hrun as <- <-. by exists [].
    + injection Hrun as <- <-. eexists. by rewrite <- app_assoc.
Qed.

(** X11: The retry budget at its edges, for the loop of [warmOne] (what it
    does once past the minimum delay and the load gate).  With
    [Retries + 1] below 1 the attempts are never entered: the loop sends no
    request and, unless the context is done, returns the message
    [unreachable] with status 0.  [Retries >= 0], as [validateConfig] asks,
    makes the budget at least 1 (for [Retries] below the largest int);
    then the loop, with the context alive and a request it can build,
    sends at least one request. *)
Theorem warmOne_retry_budget (rounds : nat) (url : string)
    (tr : list warm_event) :
  (attempts_limit cfg < 1 ->
   rounds_of rounds url tr =
     Some (0, (if ctxDone tr then error_msg ErrContext
               else "unreachable"%string), false, tr)) /\
  (0 <= Retries cfg < max_int64 -> 1 <= attempts_limit cfg) /\
  (1 <= attempts_limit cfg -> ctxDone tr = false -> newRequest url = None ->
   forall status errMsg slotReleased tr',
     rounds_of rounds url tr = Some (status, errMsg, slotReleased, tr') ->
     exists rest, tr' = tr ++ WRequest url :: rest).
Proof.
  split; [|split].
  - intros Hlim. rewrite rounds_unfold. unfold round_body.
    destruct (ctxDone tr); [done|].
    replace (Z.to_nat (attempts_limit cfg)) with 0%nat by lia. simpl.
    by rewrite (proj2 (Z.leb_gt 1 (attempts_limit cfg)) ltac:(lia)).
  - intros Hret. unfold attempts_limit.
    rewrite wrap64_small by (unfold min_int64, max_int64 in *; lia). lia.
  - intros Hlim Hctx Hreq status errMsg slotReleased tr' Hrun.
    rewrite rounds_unfold in Hrun. unfold round_body in Hrun.
    rewrite Hctx in Hrun. clear Hctx.
    destruct (attempts _ url 1 None tr) as [[e tr1]|] eqn:Hatt;
      [|discriminate].
    apply attempts_first_pass in Hatt as (r1 & ->); [|done..].
    destruct e as [st em | got429 ra lastErr].
    { injection Hrun as <- <- <- <-. eauto. }
    destruct got429.
    + destruct (ctxDone _).
      { injection Hrun as <- <- <- <-. eexists. by rewrite <- app_assoc. }
      destruct (acquireSlot _).
      { injection Hrun as <- <- <- <-. eexists. by rewrite <- !app_assoc. }
      destruct rounds as [|rounds]; [discriminate|].
      apply rounds_events in Hrun as (n2 & -> & _).
      eexists. by rewrite <- !app_assoc.
    + destruct lastErr; injection Hrun as <- <- <- <-; eauto.
Qed.

(** X12: Answers 429 are not counted against the retry budget. In a world
    where the context stays alive, the slot is always given back and the
    URL is answered 429 until [n] requests have been sent and then with a
    status below 400, the loop of [warmOne], given at least as many rounds
    as answers 429 are still to come, sends every one of these requests,
    tells the limiter of the success and returns the last status with no
    error, whatever [Retries] is (the budget being at least 1). *)
Theorem warmOne_429_not_counted (n : nat) (st : Z) (url : string) :
  1 <= attempts_limit cfg -> newRequest url = None ->
  (forall tr, ctxDone tr = false) ->
  (forall tr, acquireSlot tr = None) ->
  st < httpStatusClientErr ->
  (forall tr, (count_event is_WRequest tr < n)%nat ->
     exists hdr body, doRequest tr url = Response httpStatusTooMany hdr body) ->
  (forall tr, count_event is_WRequest tr = n ->
     exists hdr body, doRequest tr url = Response st hdr body) ->
  forall (k rounds : nat) (tr : list warm_event),
    (count_event is_WRequest tr + k)%nat = n -> (k <= rounds)%nat ->
    exists new,
      rounds_of rounds url tr = Some (st, ""%string, false, tr ++ new) /\
      count_event is_WRequest new = S k /\
      count_event is_WOnSuccess new = 1%nat.
Proof.
  intros Hlim Hreq Hctx Hslot Hst H429 Hok.
  induction k as [|k IH]; intros rounds tr Hcount Hrounds;
    rewrite rounds_unfold; unfold round_body; rewrite Hctx.
  - destruct (Hok tr ltac:(lia)) as (hdr & body & Hdo).
    destruct (attempts_first_response url tr st hdr body Hlim Hreq Hdo)
      as [_ Hsucc].
    rewrite (Hsucc Hst). exists [WRequest url; WOnSuccess].
    split; [by rewrite <- app_assoc|]. done.
  - destruct (H429 tr ltac:(lia)) as (hdr & body & Hdo).
    destruct (attempts_first_response url tr _ hdr body Hlim Hreq Hdo)
      as [Hlimited _].
    rewrite (Hlimited eq_refl), Hctx, Hslot.
    destruct rounds as [|rounds]; [lia|].
    set (ra := parseRetryAfter (clock (tr ++ [WRequest url])) hdr
                 (cooldownSec_of cfg)).
    destruct (IH rounds
                (((((tr ++ [WRequest url]) ++ [WOn429 ra]) ++ [WRelease])
                  ++ [WCooldown ra]) ++ [WAcquire]))
      as (new & Hrun & Hreqs & Hsucc).
    + count_events. lia.
    + lia.
    + rewrite Hrun.
      exists ([WRequest url; WOn429 ra; WRelease; WCooldown ra; WAcquire]
              ++ new).
      split; [by rewrite <- !app_assoc|].
      split; count_events; lia.
Qed.


End WarmingProperties.

(* ===================================================================== *)
(** * Properties of the fetching of a sitemap *)
(* ===================================================================== *)

Section FetchingProperties.
Variable waitForLoad : list warm_event -> option string.
Variable doRequest : list warm_event -> string -> http_outcome.
Variable newRequest : string -> option string.
Variable fmt_d : Z -> string.
Variable has_gz_suffix : string -> bool.
Variable gunzip : string -> gunzip_outcome.
Variable cfg : HTTPConfig.

Local Abbreviation fetch_from :=
  (fetch_attempts waitForLoad doRequest newRequest fmt_d has_gz_suffix gunzip
     cfg).
Local Abbreviation fetch :=
  (fetchBytes waitForLoad doRequest newRequest fmt_d has_gz_suffix gunzip cfg).

(** The body [fetchBytes] hands out comes from the answer to the last
    request of [new], sent after the events [tr]: a status below 400, and
    the body as sent, or what the gzip reader made of it for a [.gz] URL. *)
Definition fetched_from_response (url : string) (tr new : list warm_event)
    (body : string) : Prop :=
  exists pre st hdr b,
    new = pre ++ [WRequest url] /\
    doRequest (tr ++ pre) url = Response st hdr b /\
    st < httpStatusClientErr /\
    ((has_gz_suffix url = false /\ body = b) \/
     (has_gz_suffix url = true /\ gunzip b = GzData body)).

Definition fetch_spec (url : string) (attempt : Z) (tr new : list warm_event)
    (body : string) (err : option string) : Prop :=
  match err with
  | None =>
      (attempts_limit cfg < attempt /\ new = [] /\ body = ""%string) \/
      fetched_from_response url tr new body
  | Some _ => body = ""%string
  end.

Lemma fetched_from_response_later (url : string) (tr pre new : list warm_event)
    (body : string) :
  fetched_from_response url (tr ++ pre) new body ->
  fetched_from_response url tr (pre ++ new) body.
Proof.
  intros (p & st & hdr & b & -> & Hdo & Hst & Hbody).
  exists (pre ++ p), st, hdr, b.
  rewrite <- !app_assoc. rewrite <- app_assoc in Hdo. done.
Qed.

Lemma fetch_attempts_spec (fuel : nat) (url : string) :
  forall attempt lastErr tr,
    1 <= attempt ->
    (Z.to_nat (attempts_limit cfg - attempt + 1) <= fuel)%nat ->
    exists body err new,
      fetch_from fuel url attempt lastErr tr = Some (body, err, tr ++ new) /\
      (count_event is_WRequest new
       <= Z.to_nat (attempts_limit cfg - attempt + 1))%nat /\
      (err = None -> lastErr = None \/ fetched_from_response url tr new body) /\
      fetch_spec url attempt tr new body err.
Proof.
  pose proof (wrap64_range (Retries cfg + 1)) as Hlimit.
  fold (attempts_limit cfg) in Hlimit.
  induction fuel as [|fuel IH]; intros attempt lastErr tr Hpos Hfuel; simpl.
  - destruct (Z.leb_spec attempt (attempts_limit cfg)); [lia|].
    exists ""%string, lastErr, []. rewrite app_nil_r.
    split; [done|]. split; [count_events; lia|].
    split; [by left|].
    destruct lastErr; simpl; [done|]. by left.
  - destruct (Z.leb_spec attempt (attempts_limit cfg)) as [Hle|Hgt].
    2:{ exists ""%string, lastErr, []. rewrite app_nil_r.
        split; [done|]. split; [count_events; lia|].
        split; [by left|].
        destruct lastErr; simpl; [done|]. by left. }
    destruct (waitForLoad tr) as [err|].
    { exists ""%string, (Some err), [WLoadGate].
      split; [done|]. split; [count_events; lia|]. by split. }
    destruct (newRequest url) as [err|].
    { exists ""%string, (Some err), [WLoadGate].
      split; [done|]. split; [count_events; lia|]. by split. }
    assert (Hretry : forall msg,
      exists body err new,
        (if attempts_limit cfg <=? attempt
         then Some (""%string, Some msg, (tr ++ [WLoadGate]) ++ [WRequest url])
         else fetch_from fuel url (wrap64 (attempt + 1)) (Some msg)
                (((tr ++ [WLoadGate]) ++ [WRequest url]) ++ [WBackoff attempt]))
        = Some (body, err, tr ++ new) /\
        (count_event is_WRequest new
         <= Z.to_nat (attempts_limit cfg - attempt + 1))%nat /\
        (err = None -> lastErr = None \/ fetched_from_response url tr new body) /\
        fetch_spec url attempt tr new body err).
    { intros msg. destruct (Z.leb_spec (attempts_limit cfg) attempt) as [Hl|Hl].
      - exists ""%string, (Some msg), [WLoadGate; WRequest url].
        split; [by rewrite <- !app_assoc|].
        split; [count_events; lia|]. by split.
      - rewrite wrap64_small by (unfold min_int64 in *; lia).
        destruct (IH (attempt + 1) (Some msg)
                    (((tr ++ [WLoadGate]) ++ [WRequest url])
                       ++ [WBackoff attempt]))
          as (body & err & new & Hrun & Hcount & Hnone & Hspec); [lia..|].
        exists body, err, ([WLoadGate; WRequest url; WBackoff attempt] ++ new).
        split; [rewrite Hrun; by rewrite <- !app_assoc|].
        split; [count_events; lia|].
        assert (Hlater : fetched_from_response url
                  (((tr ++ [WLoadGate]) ++ [WRequest url])
                     ++ [WBackoff attempt]) new body ->
                fetched_from_response url tr
                  ([WLoadGate; WRequest url; WBackoff attempt] ++ new) body).
        { intros Hf. apply fetched_from_response_later.
          by rewrite <- !app_assoc in *. }
        split.
        + intros ->. right. destruct (Hnone eq_refl) as [?|Hf]; [done|].
          by apply Hlater.
        + destruct err as [e|]; simpl in *; [done|].
          right. destruct (Hnone eq_refl) as [?|Hf]; [done|]. by apply Hlater. }
    assert (Hgot : forall st hdr b body,
      doRequest (tr ++ [WLoadGate]) url = Response st hdr b ->
      st < httpStatusClientErr ->
      (has_gz_suffix url = false /\ body = b) \/
      (has_gz_suffix url = true /\ gunzip b = GzData body) ->
      exists body' err new,
        Some (body, @None string, (tr ++ [WLoadGate]) ++ [WRequest url])
        = Some (body', err, tr ++ new) /\
        (count_event is_WRequest new
         <= Z.to_nat (attempts_limit cfg - attempt + 1))%nat /\
        (err = None -> lastErr = None \/ fetched_from_response url tr new body') /\
        fetch_spec url attempt tr new body' err).
    { intros st hdr b body Hdo Hst Hbody.
      exists body, None, [WLoadGate; WRequest url].
      split; [by rewrite <- !app_assoc|].
      split; [count_events; lia|].
      assert (Hf : fetched_from_response url tr [WLoadGate; WRequest url] body).
      { by exists [WLoadGate], st, hdr, b. }
      split; [by right | by right]. }
    destruct (doRequest (tr ++ [WLoadGate]) url) as [msg|msg|st hdr b] eqn:Hdo;
      [apply Hretry | apply Hretry |].
    destruct (Z.leb_spec httpStatusClientErr st) as [Hge|Hlt]; [apply Hretry|].
    destruct (has_gz_suffix url) eqn:Hgz.
    + destruct (gunzip b) as [e|e|data] eqn:Hgunzip;
        [apply Hretry | apply Hretry |].
      apply (Hgot st hdr b data); [done | done |]. by right.
    + apply (Hgot st hdr b b); [done | done |]. by left.
Qed.


End FetchingProperties.

(* ===================================================================== *)
(** * Properties of the URLs of a run *)
(* ===================================================================== *)

(** What the de-duplication loop keeps true of its [seen] map and of the
    URLs kept so far, [gone] being the URLs it has gone through. *)
Definition dedupe_inv (gone : list string) (st : gset string * list string)
  : Prop :=
  NoDup st.2 /\
  (forall u, u ∈ st.1 <-> u ∈ st.2) /\
  (forall u, u ∈ st.2 <-> u ∈ gone /\ u <> ""%string) /\
  st.2 `sublist_of` gone.

Lemma dedupe_step_inv (gone : list string) (st : gset string * list string)
    (u : string) :
  dedupe_inv gone st -> dedupe_inv (gone ++ [u]) (dedupe_step st u).
Proof.
  intros (Hnd & Hseen & Hmem & Hsub). unfold dedupe_step.
  destruct (decide (u = ""%string \/ u ∈ st.1)) as [Hskip|Hkeep].
  - split; [done|]. split; [done|]. split.
    + intros v. rewrite Hmem, elem_of_app, list_elem_of_singleton.
      split; [naive_solver|].
      intros [[Hin | ->] Hne]; [done|].
      destruct Hskip as [->|Hin]; [done|].
      apply Hmem. by apply Hseen.
    + by apply sublist_inserts_r.
  - unfold dedupe_inv. simpl. split.
    + apply NoDup_app. split; [done|]. split; [|apply NoDup_singleton].
      intros v Hv ->%list_elem_of_singleton. apply Hkeep. right.
      by apply Hseen.
    + split.
      * intros v. rewrite elem_of_app, list_elem_of_singleton, <- Hseen.
        set_solver.
      * split.
        -- intros v. rewrite !elem_of_app, !list_elem_of_singleton, Hmem.
           split; [|naive_solver].
           intros [[? ?] | ->]; [naive_solver|].
           split; [by right|]. intros ->. apply Hkeep. by left.
        -- by apply sublist_app.
Qed.

Lemma dedupe_fold_inv (urls gone : list string)
    (st : gset string * list string) :
  dedupe_inv gone st ->
  dedupe_inv (gone ++ urls) (fold_left dedupe_step urls st).
Proof.
  revert gone st. induction urls as [|u urls IH]; intros gone st Hinv; simpl.
  - by rewrite app_nil_r.
  - replace (gone ++ u :: urls) with ((gone ++ [u]) ++ urls)
      by (by rewrite <- app_assoc).
    apply IH. by apply dedupe_step_inv.
Qed.

(** Going on from a state whose kept URLs all are in [seen]: a URL in
    [seen] is not added again. *)
Lemma dedupe_fold_app (urls : list string) (st : gset string * list string) :
  (fold_left dedupe_step urls st).2 =
  st.2 ++ (fold_left dedupe_step urls (st.1, [])).2 /\
  (fold_left dedupe_step urls st).1 = (fold_left dedupe_step urls (st.1, [])).1.
Proof.
  revert st. induction urls as [|u urls IH]; intros st; simpl.
  - by rewrite app_nil_r.
  - destruct (IH (dedupe_step st u)) as [IH2 IH1].
    destruct (IH (dedupe_step (st.1, []) u)) as [IH2' IH1'].
    rewrite IH2, IH1, IH2', IH1'. unfold dedupe_step. simpl.
    destruct (decide (u = ""%string \/ u ∈ st.1)); simpl.
    + done.
    + by rewrite <- app_assoc.
Qed.

Lemma dedupe_fold_seen (urls : list string) :
  forall X Y : gset string,
    (fold_left dedupe_step urls (X ∪ Y, [])).2 =
    filter (fun u => u ∉ X) (fold_left dedupe_step urls (Y, [])).2.
Proof.
  induction urls as [|u urls IH]; intros X Y; simpl; [done|].
  unfold dedupe_step at 2 4. simpl.
  destruct (decide (u = ""%string \/ u ∈ Y)) as [Hskip|Hkeep].
  - rewrite decide_True by set_solver. apply IH.
  - destruct (decide (u ∈ X)) as [HS|HS].
    + rewrite decide_True by set_solver.
      rewrite (proj1 (dedupe_fold_app urls ({[u]} ∪ Y, [] ++ [u]))). simpl.
      rewrite filter_cons_False by (intros Hn; by apply Hn).
      rewrite <- IH. by replace (X ∪ ({[u]} ∪ Y)) with (X ∪ Y) by set_solver.
    + rewrite decide_False by set_solver.
      rewrite (proj1 (dedupe_fold_app urls ({[u]} ∪ Y, [] ++ [u]))).
      rewrite (proj1 (dedupe_fold_app urls ({[u]} ∪ (X ∪ Y), [] ++ [u]))).
      simpl. rewrite filter_cons_True by done.
      rewrite <- IH.
      by replace (X ∪ ({[u]} ∪ Y)) with ({[u]} ∪ (X ∪ Y)) by set_solver.
Qed.

Lemma filter_ext_elem_of {A : Type} (P Q : A -> Prop)
    `{!forall x, Decision (P x)} `{!forall x, Decision (Q x)} (l : list A) :
  (forall x, x ∈ l -> P x <-> Q x) -> filter P l = filter Q l.
Proof.
  induction l as [|a l IH]; intros Hext; [done|].
  assert (Htail : filter P l = filter Q l).
  { apply IH. intros x Hx. apply Hext. by right. }
  destruct (decide (P a)) as [HP|HP].
  - rewrite !filter_cons_True; [by rewrite Htail | | done].
    apply Hext; [by left | done].
  - rewrite !filter_cons_False; [done | | done].
    intros HQ. apply HP. apply Hext; [by left | done].
Qed.

(** X15: The URLs [runOnce] goes on with after de-duplication: every URL
    collected, except the empty string, exactly once, each where it first
    occurs.  So the URLs kept are a subsequence of those collected, and
    those kept of [l1 ++ l2] are those kept of [l1], then those kept of
    [l2] that are not in [l1]. *)
Theorem dedupe_spec (l1 l2 : list string) :
  NoDup (dedupe l1) /\
  (forall u, u ∈ dedupe l1 <-> u ∈ l1 /\ u <> ""%string) /\
  dedupe l1 `sublist_of` l1 /\
  dedupe (l1 ++ l2) = dedupe l1 ++ filter (fun u => u ∉ l1) (dedupe l2).
Proof.
  destruct (dedupe_fold_inv l1 [] (∅, [])) as (Hnd & Hseen & Hmem & Hsub).
  { split; [apply NoDup_nil_2|]. split; [set_solver|].
    split; [set_solver | done]. }
  destruct (dedupe_fold_inv l2 [] (∅, [])) as (_ & _ & Hmem2 & _).
  { split; [apply NoDup_nil_2|]. split; [set_solver|].
    split; [set_solver | done]. }
  simpl in *. fold (dedupe l1) in *. fold (dedupe l2) in *.
  split; [done|]. split; [done|]. split; [done|].
  unfold dedupe at 1. rewrite fold_left_app.
  rewrite (proj1 (dedupe_fold_app l2 _)). fold (dedupe l1). f_equal.
  replace ((fold_left dedupe_step l1 (∅, [])).1)
    with ((fold_left dedupe_step l1 (∅, [])).1 ∪ (∅ : gset string))
    by set_solver.
  rewrite dedupe_fold_seen. fold (dedupe l2).
  apply filter_ext_elem_of. intros u Hu.
  rewrite Hseen, Hmem. apply Hmem2 in Hu. naive_solver.
Qed.

(* ===================================================================== *)
(** * Properties of the cutting down of strings *)
(* ===================================================================== *)

Lemma string_length_app (s1 s2 : string) :
  String.length (s1 +:+ s2) = (String.length s1 + String.length s2)%nat.
Proof. induction s1 as [|a s1 IH]; simpl; [done | by rewrite IH]. Qed.

Lemma string_take_length (n : nat) (s : string) :
  String.length (string_take n s) = Nat.min n (String.length s).
Proof.
  revert s. induction n as [|n IH]; intros [|a s]; simpl; try done.
  by rewrite IH.
Qed.

Lemma string_take_prefix (n : nat) (s : string) :
  exists rest, s = (string_take n s +:+ rest)%string.
Proof.
  revert s. induction n as [|n IH]; intros [|a s]; simpl;
    try (by eexists).
  destruct (IH s) as (rest & Hrest). exists rest.
  change (String a s = String a (string_take n s +:+ rest)). by f_equal.
Qed.

Lemma string_take_all (n : nat) (s : string) :
  (String.length s <= n)%nat -> string_take n s = s.
Proof.
  revert s. induction n as [|n IH]; intros [|a s]; simpl; intros Hle;
    try done; try lia.
  rewrite IH; [done | lia].
Qed.

(** X16: [truncate] leaves a string of at most [maxLen] bytes as it is.  A
    longer one becomes its first [maxLen-3] bytes and three dots, [maxLen]
    bytes in all, when [maxLen] is 3 or more; below 3 the slice bound is
    negative and the call panics. *)
Theorem truncate_spec (s : string) (maxLen : Z) :
  (Z.of_nat (String.length s) <= maxLen -> truncate s maxLen = Some s) /\
  (3 <= maxLen <= max_int64 -> maxLen < Z.of_nat (String.length s) ->
   exists p rest,
     truncate s maxLen = Some (p +:+ "...")%string /\
     s = (p +:+ rest)%string /\
     Z.of_nat (String.length (p +:+ "...")) = maxLen) /\
  (min_int64 + 3 <= maxLen < 3 -> maxLen < Z.of_nat (String.length s) ->
   truncate s maxLen = None).
Proof.
  unfold truncate, slice_to. split; [|split].
  - intros Hle. by rewrite (proj2 (Z.leb_le _ _) Hle).
  - intros [Hge Hmax] Hlt. rewrite (proj2 (Z.leb_gt _ _) Hlt).
    rewrite wrap64_small by (unfold min_int64, max_int64 in *; lia).
    rewrite (proj2 (Z.leb_le 0 (maxLen - 3))) by lia.
    rewrite (proj2 (Z.leb_le (maxLen - 3) _)) by lia. simpl.
    destruct (string_take_prefix (Z.to_nat (maxLen - 3)) s) as (rest & Hrest).
    exists (string_take (Z.to_nat (maxLen - 3)) s), rest.
    split; [done|]. split; [done|].
    rewrite string_length_app, string_take_length. simpl. lia.
  - intros [Hge Hlt3] Hlt. rewrite (proj2 (Z.leb_gt _ _) Hlt).
    rewrite wrap64_small by (unfold min_int64, max_int64 in *; lia).
    by rewrite (proj2 (Z.leb_gt 0 (maxLen - 3))) by lia.
Qed.

(** X17: [truncateTimestamp] never panics: it gives the first 19 bytes of a
    string that has as many, and a shorter string as it is; on its own
    result it changes nothing. *)
Theorem truncateTimestamp_spec (s : string) :
  exists r rest,
    truncateTimestamp s = Some r /\
    s = (r +:+ rest)%string /\
    String.length r = Nat.min 19 (String.length s) /\
    truncateTimestamp r = Some r.
Proof.
  assert (Hidem : forall r, (String.length r <= 19)%nat ->
            truncateTimestamp r = Some r).
  { intros r Hr. unfold truncateTimestamp, slice_to, maxTimestampDisplay.
    destruct (Z.leb_spec 19 (Z.of_nat (String.length r))) as [Hge|Hlt];
      [|done].
    change ((0 <=? 19) && true) with true. cbv iota.
    f_equal. apply string_take_all. lia. }
  unfold truncateTimestamp at 1. unfold slice_to, maxTimestampDisplay.
  destruct (Z.leb_spec 19 (Z.of_nat (String.length s))) as [Hge|Hlt].
  - change ((0 <=? 19) && true) with true. cbv iota.
    destruct (string_take_prefix (Z.to_nat 19) s) as (rest & Hrest).
    exists (string_take (Z.to_nat 19) s), rest.
    split; [done|]. split; [done|].
    rewrite string_take_length. split; [lia|].
    apply Hidem. rewrite string_take_length. lia.
  - exists s, ""%string. split; [done|].
    split; [|split; [lia | apply Hidem; lia]].
    clear. induction s as [|a s IH]; [done|].
    change (String a s = String a (s +:+ "")). by f_equal.
Qed.

(* ===================================================================== *)
(** * Further properties of the sitemap collector *)
(* ===================================================================== *)

Section CollectorExtras.
Context {lib : GoLib}.
Variable fetchBytes : list event -> string -> result string.
Variable ctxDone : list event -> bool.
Variable clock : list event -> Z.

Local Abbreviation collect_fuel :=
  (collectURLsFromSitemap fetchBytes ctxDone clock).
Local Abbreviation collect_children := (collectChildren ctxDone).

(** The page URLs of a document. *)
Definition pages_of (data : string) : list string := (parseSitemapXML data).1.2.

(** The message [MarkSitemap] gets for what [fetchBytes] returned. *)
Definition sitemap_verdict (r : result string) : string :=
  match r with
  | Ok _ => ""
  | Err err => error_msg err
  end.

(** [x] is a page of a document fetched after the events [base], [h] being
    the events so far. *)
Definition sourced_in (base h : list event) (x : string) : Prop :=
  exists pre u post data,
    h = base ++ pre ++ EvFetch u :: post /\
    fetchBytes (base ++ pre) u = Ok data /\
    x ∈ pages_of data.

Lemma sourced_in_later (base h more : list event) (x : string) :
  sourced_in base h x -> sourced_in base (h ++ more) x.
Proof.
  intros (pre & u & post & data & -> & Hf & Hx).
  exists pre, u, (post ++ more), data.
  split; [by rewrite <- !app_assoc | done].
Qed.

Lemma sourced_in_earlier (base n h : list event) (x : string) :
  sourced_in (base ++ n) h x -> sourced_in base h x.
Proof.
  intros (pre & u & post & data & -> & Hf & Hx).
  exists (n ++ pre), u, post, data.
  rewrite <- !app_assoc in *. done.
Qed.

(** The rows of [sitemap_seen] after the events [new] of a call: a row for
    each sitemap fetched, with the time of the write and the outcome of the
    fetch; nothing else of the store is touched. *)
Record records (c c' : CacheWarmer) (new : list event) : Prop := {
  rec_continues : continues c c' new;
  rec_warmed : warmed_url (db c') = warmed_url (db c);
  rec_meta : meta (db c') = meta (db c);
  rec_others : forall u,
    u ∉ fetched new -> sitemap_seen (db c') !! u = sitemap_seen (db c) !! u;
  rec_fetched : forall pre u post,
    new = pre ++ EvFetch u :: post ->
    sitemap_seen (db c') !! u =
    Some {| last_fetched_utc :=
              Some (time_Format_RFC3339
                      (clock (events c ++ pre ++ [EvFetch u])));
            sitemap_last_error :=
              Some (sitemap_verdict (fetchBytes (events c ++ pre) u)) |}
}.

Lemma records_refl (c : CacheWarmer) : records c c [].
Proof.
  split; try done.
  - apply continues_refl.
  - intros [|??] ?? Heq; discriminate.
Qed.

Lemma fetched_split (pre post : list event) (u : string) :
  u ∈ fetched (pre ++ EvFetch u :: post).
Proof. rewrite fetched_app, elem_of_app. right. simpl. by left. Qed.

Lemma records_trans (c c1 c2 : CacheWarmer) (n1 n2 : list event) :
  records c c1 n1 -> records c1 c2 n2 -> records c c2 (n1 ++ n2).
Proof.
  intros [Hc1 Hw1 Hm1 Ho1 Hf1] [Hc2 Hw2 Hm2 Ho2 Hf2].
  pose proof (continues_trans _ _ _ _ _ Hc1 Hc2) as Hc.
  pose proof (cont_fetch_once _ _ _ Hc) as Hnd.
  rewrite fetched_app in Hnd. apply NoDup_app in Hnd as (_ & Hdisj & _).
  split.
  - exact Hc.
  - by rewrite Hw2.
  - by rewrite Hm2.
  - intros u Hu. rewrite fetched_app, elem_of_app in Hu.
    rewrite Ho2, Ho1; [done | tauto | tauto].
  - intros pre u post Heq.
    apply app_eq_app in Heq as [l [[-> Hl] | [-> Hl]]].
    + destruct l as [|e l]; simpl in Hl.
      * rewrite (Hf2 [] u post (eq_sym Hl)), (cont_events _ _ _ Hc1).
        simpl. by rewrite !app_nil_r, <- ?app_assoc.
      * injection Hl as <- ->.
        rewrite Ho2; [by apply (Hf1 pre u l)|].
        apply Hdisj. apply fetched_split.
    + rewrite (Hf2 l u post Hl).
      by rewrite (cont_events _ _ _ Hc1), <- !app_assoc.
Qed.

(** The first steps of a call on a URL not seen yet, up to the write of
    the row. *)
Lemma records_visit (c : CacheWarmer) (u : string) :
  u ∉ seenSitemaps c ->
  let msg := sitemap_verdict (fetchBytes (events (mark_seen c u)) u) in
  records c
    (mark_sitemap clock (log_event (mark_seen c u) (EvFetch u)) u msg)
    [EvSeen u; EvFetch u; EvMarkSitemap u msg].
Proof.
  intros Hnew msg.
  assert (Hrow : forall v,
    sitemap_seen
      (MarkSitemap (db c) (clock ((events c ++ [EvSeen u]) ++ [EvFetch u]))
         u msg) !! v =
    if decide (v = u)
    then Some {| last_fetched_utc :=
                   Some (time_Format_RFC3339
                           (clock ((events c ++ [EvSeen u]) ++ [EvFetch u])));
                 sitemap_last_error := Some msg |}
    else sitemap_seen (db c) !! v).
  { intros v. unfold MarkSitemap.
    destruct (sitemap_seen (db c) !! u) eqn:Hu; simpl;
      destruct (decide (v = u)) as [->|Hne].
    - by rewrite lookup_alter_eq, Hu.
    - by rewrite lookup_alter_ne.
    - by rewrite lookup_insert_eq.
    - by rewrite lookup_insert_ne. }
  split.
  - apply (continues_trans c (log_event (mark_seen c u) (EvFetch u)) _
             [EvSeen u; EvFetch u] [EvMarkSitemap u msg]).
    + by apply continues_visit.
    + apply continues_mark_sitemap.
  - simpl. unfold MarkSitemap. by destruct (sitemap_seen (db c) !! u).
  - simpl. unfold MarkSitemap. by destruct (sitemap_seen (db c) !! u).
  - intros v Hv. simpl in *. rewrite Hrow.
    rewrite decide_False; [done|]. intros ->. apply Hv. by left.
  - intros pre v post Heq.
    destruct pre as [|e0 [|e1 [|e2 pre]]]; simpl in Heq;
      try discriminate.
    + injection Heq as <- <-. simpl. rewrite Hrow, decide_True by done.
      by rewrite <- !app_assoc.
    + injection Heq as _ _ _ Heq. destruct pre; discriminate.
Qed.

Lemma collectChildren_records
    (collect : string -> CacheWarmer -> collected) :
  (forall u c urls err c',
     collect u c = Some (urls, err, c') -> exists new, records c c' new) ->
  forall children acc c urls err c',
    collect_children collect children acc c = Some (urls, err, c') ->
    exists new, records c c' new.
Proof.
  intros Hcollect children.
  induction children as [|child rest IH]; intros acc c urls err c' Hrun;
    simpl in Hrun.
  - injection Hrun as <- <- <-. eexists. apply records_refl.
  - destruct (ctxDone (events c)).
    { injection Hrun as <- <- <-. eexists. apply records_refl. }
    destruct (collect child c) as [[[childURLs cerr] c1]|] eqn:Hchild;
      [|discriminate].
    destruct (Hcollect _ _ _ _ _ Hchild) as (n1 & Hn1).
    destruct cerr; apply IH in Hrun as (n2 & Hn2);
      exists (n1 ++ n2); by apply (records_trans c c1 c').
Qed.

Lemma parseSitemapXML_no_error (data : string) :
  (parseSitemapXML data).2 = None.
Proof. by rewrite parseSitemapXML_spec. Qed.

Lemma collect_records (fuel : nat) :
  forall seed c urls err c',
    collect_fuel fuel seed c = Some (urls, err, c') ->
    exists new, records c c' new.
Proof.
  induction fuel as [|fuel IH]; intros seed c urls err c' Hrun;
    [discriminate|].
  rewrite collect_unfold in Hrun.
  destruct (decide (seed ∈ seenSitemaps c)) as [Hseen|Hnew].
  { injection Hrun as <- <- <-. eexists. apply records_refl. }
  pose proof (records_visit c seed Hnew) as Hvisit.
  cbv zeta in Hrun, Hvisit.
  destruct (fetchBytes (events (mark_seen c seed)) seed) as [data|e].
  - pose proof (parseSitemapXML_no_error data) as Hnone.
    destruct (parseSitemapXML data) as [[children pages] [e|]];
      [discriminate|].
    apply (collectChildren_records _ IH) in Hrun as (n2 & Hn2).
    eexists. eapply records_trans; [exact Hvisit | exact Hn2].
  - injection Hrun as <- <- <-. eexists. exact Hvisit.
Qed.

(** X18: What a call of the collector leaves in the store: for every
    sitemap it fetched, a row of [sitemap_seen] that holds the time of the
    write and the outcome of that fetch (the empty message for a success,
    the text of the error otherwise); every other row of [sitemap_seen],
    [warmed_url] and [meta] are as before. *)
Theorem collector_records_sitemaps (fuel : nat) (seed : string)
    (c c' : CacheWarmer) (urls : list string) (err : option error) :
  collect_fuel fuel seed c = Some (urls, err, c') ->
  exists new,
    events c' = events c ++ new /\
    warmed_url (db c') = warmed_url (db c) /\
    meta (db c') = meta (db c) /\
    (forall u, u ∉ fetched new ->
       sitemap_seen (db c') !! u = sitemap_seen (db c) !! u) /\
    (forall pre u post,
       new = pre ++ EvFetch u :: post ->
       sitemap_seen (db c') !! u =
       Some {| last_fetched_utc :=
                 Some (time_Format_RFC3339
                         (clock (events c ++ pre ++ [EvFetch u])));
               sitemap_last_error :=
                 Some (sitemap_verdict (fetchBytes (events c ++ pre) u)) |}).
Proof.
  intros Hrun. apply collect_records in Hrun as (new & [Hc Hw Hm Ho Hf]).
  exists new. split; [apply (cont_events _ _ _ Hc)|]. done.
Qed.

Lemma collectChildren_sourced (base : list event)
    (collect : string -> CacheWarmer -> collected) :
  (forall u c urls err c',
     collect u c = Some (urls, err, c') ->
     (exists new, continues c c' new) /\
     forall x, x ∈ urls -> sourced_in (events c) (events c') x) ->
  forall children acc c urls err c',
    collect_children collect children acc c = Some (urls, err, c') ->
    (exists n, events c = base ++ n) ->
    (forall x, x ∈ acc -> sourced_in base (events c) x) ->
    (exists rest, urls = acc ++ rest) /\
    (err = None \/ err = Some ErrContext) /\
    forall x, x ∈ urls -> sourced_in base (events c') x.
Proof.
  intros Hcollect children.
  induction children as [|child rest IH];
    intros acc c urls err c' Hrun Hbase Hacc; simpl in Hrun.
  - injection Hrun as <- <- <-.
    split; [exists []; by rewrite app_nil_r|]. split; [by left | done].
  - destruct (ctxDone (events c)).
    { injection Hrun as <- <- <-.
      split; [exists []; by rewrite app_nil_r|]. split; [by right | done]. }
    destruct (collect child c) as [[[childURLs cerr] c1]|] eqn:Hchild;
      [|discriminate].
    destruct (Hcollect _ _ _ _ _ Hchild) as [(n1 & Hn1) Hsrc].
    destruct Hbase as (n & Hn).
    pose proof (cont_events _ _ _ Hn1) as He1.
    assert (Hbase1 : exists n', events c1 = base ++ n').
    { exists (n ++ n1). by rewrite He1, Hn, app_assoc. }
    assert (Hacc1 : forall x, x ∈ acc -> sourced_in base (events c1) x).
    { intros x Hx. rewrite He1. by apply sourced_in_later, Hacc. }
    destruct cerr as [e|].
    + by apply (IH acc c1).
    + destruct (IH (acc ++ childURLs) c1 urls err c' Hrun Hbase1)
        as ((more & ->) & Herr & Hall).
      { intros x [Hx|Hx]%elem_of_app; [by apply Hacc1|].
        apply (sourced_in_earlier base n). rewrite <- Hn. by apply Hsrc. }
      split; [exists (childURLs ++ more); by rewrite app_assoc|]. done.
Qed.

Lemma collect_sourced (fuel : nat) :
  forall seed c urls err c',
    collect_fuel fuel seed c = Some (urls, err, c') ->
    forall x, x ∈ urls -> sourced_in (events c) (events c') x.
Proof.
  induction fuel as [|fuel IH]; intros seed c urls err c' Hrun;
    [discriminate|].
  rewrite collect_unfold in Hrun.
  destruct (decide (seed ∈ seenSitemaps c)) as [Hseen|Hnew].
  { injection Hrun as <- <- <-. intros x Hx. by apply not_elem_of_nil in Hx. }
  cbv zeta in Hrun.
  destruct (fetchBytes (events (mark_seen c seed)) seed) as [data|e] eqn:Hf.
  - destruct (parseSitemapXML data) as [[children pages] [e|]] eqn:Hp.
    { injection Hrun as <- <- <-. intros x Hx.
      by apply not_elem_of_nil in Hx. }
    apply (collectChildren_sourced (events c)) in Hrun as (_ & _ & Hall).
    + exact Hall.
    + intros u c2 urls2 err2 c2' Hrun2. split.
      * by apply (collect_continues _ _ _ fuel) in Hrun2.
      * by apply (IH u c2 urls2 err2 c2').
    + simpl. eexists. by rewrite <- !app_assoc.
    + intros x Hx. exists [EvSeen seed], seed, [EvMarkSitemap seed ""], data.
      simpl. split; [by rewrite <- !app_assoc|]. split; [exact Hf|].
      unfold pages_of. by rewrite Hp.
  - injection Hrun as <- <- <-. intros x Hx. by apply not_elem_of_nil in Hx.
Qed.

(** X19: What a call of the collector on a sitemap not seen yet returns.
    When the fetch fails: no URL and the error of the fetch.  When it
    succeeds: the pages of the document first, then pages of sitemaps below
    it, and no error unless the context was cancelled, whatever went wrong
    below.  Every URL returned is a page of a document fetched during the
    call. *)
Theorem collector_result (fuel : nat) (seed : string) (c c' : CacheWarmer)
    (urls : list string) (err : option error) :
  collect_fuel fuel seed c = Some (urls, err, c') ->
  seed ∉ seenSitemaps c ->
  match fetchBytes (events c ++ [EvSeen seed]) seed with
  | Err e => urls = [] /\ err = Some e
  | Ok data =>
      (exists rest, urls = pages_of data ++ rest) /\
      (err = None \/ err = Some ErrContext)
  end /\
  forall x, x ∈ urls -> sourced_in (events c) (events c') x.
Proof.
  intros Hrun Hnew. split; [|by apply (collect_sourced fuel seed c urls err)].
  destruct fuel as [|fuel]; [discriminate|].
  rewrite collect_unfold in Hrun. rewrite decide_False in Hrun by done.
  cbv zeta in Hrun.
  change (events (mark_seen c seed)) with (events c ++ [EvSeen seed]) in Hrun.
  destruct (fetchBytes (events c ++ [EvSeen seed]) seed) as [data|e] eqn:Hf.
  - pose proof (parseSitemapXML_no_error data) as Hnone. unfold pages_of.
    destruct (parseSitemapXML data) as [[children pages] [e|]] eqn:Hp;
      [discriminate|].
    apply (collectChildren_sourced (events c)) in Hrun as (Hpre & Herr & _).
    + done.
    + intros u c2 urls2 err2 c2' Hrun2. split.
      * by apply (collect_continues _ _ _ fuel) in Hrun2.
      * by apply (collect_sourced fuel u c2 urls2 err2 c2').
    + simpl. eexists. by rewrite <- !app_assoc.
    + intros x Hx. exists [EvSeen seed], seed, [EvMarkSitemap seed ""], data.
      simpl. split; [by rewrite <- !app_assoc|]. split; [exact Hf|].
      unfold pages_of. by rewrite Hp.
  - by injection Hrun as <- <- <-.
Qed.

End CollectorExtras.

(* ===================================================================== *)
(** * Further properties of the sitemap parser *)
(* ===================================================================== *)

Section SitemapParsingExtras.
Context {lib : GoLib}.

(** X20: [parseSitemapXML] never returns an error, whatever the bytes: a
    document neither decoder accepts gives no child sitemap and no page.
    The child sitemaps are those of the index, then those of the URL set,
    the pages those of the URL set, each in document order: the values that
    are not the empty string, with the white space around them removed. *)
Theorem parseSitemapXML_result (data : string) :
  (parseSitemapXML data).2 = None /\
  (parseSitemapXML data).1.1 =
    match xml_Unmarshal_SitemapIndexRoot data with
    | Some idx => trimmed_locs (map idx_Loc (Sitemaps idx))
    | None => []
    end ++
    match xml_Unmarshal_Sitemap data with
    | Some urlset => trimmed_locs (map idx_Loc (Sitemap_ urlset))
    | None => []
    end /\
  (parseSitemapXML data).1.2 =
    match xml_Unmarshal_Sitemap data with
    | Some urlset => trimmed_locs (map url_Loc (URLs urlset))
    | None => []
    end /\
  (forall x, x ∈ (parseSitemapXML data).1.1 ++ (parseSitemapXML data).1.2 ->
     exists loc, loc <> ""%string /\ x = strings_TrimSpace loc).
Proof.
  rewrite parseSitemapXML_spec. simpl.
  split; [done|]. split; [done|]. split; [done|].
  assert (Htrim : forall locs x, x ∈ trimmed_locs locs ->
            exists loc, loc <> ""%string /\ x = strings_TrimSpace loc).
  { intros locs x (loc & -> & Hloc)%list_elem_of_fmap.
    apply list_elem_of_filter in Hloc as [Hne _]. by exists loc. }
  intros x Hx. rewrite !elem_of_app in Hx.
  destruct (xml_Unmarshal_SitemapIndexRoot data) as [idx|];
    destruct (xml_Unmarshal_Sitemap data) as [urlset|];
    destruct Hx as [[Hx|Hx]|Hx];
    try (by apply not_elem_of_nil in Hx); by apply Htrim in Hx.
Qed.

End SitemapParsingExtras.

(* ===================================================================== *)
(** * Properties of the selection of the URLs to warm *)
(* ===================================================================== *)

Section SelectingProperties.
Context {lib : GoLib}.
Variable clock : list string -> Z.

Local Abbreviation select := (select_stale clock).

Lemma select_stale_sublist (w : WarmDB) (rewarmAfter : Z)
    (urls : list string) :
  forall checked, select w rewarmAfter checked urls `sublist_of` urls.
Proof.
  induction urls as [|u rest IH]; intros checked; simpl; [done|].
  destruct (ShouldWarm w (clock checked) u rewarmAfter) as [[|]|e].
  - by apply sublist_skip.
  - by apply sublist_cons.
  - by apply sublist_cons.
Qed.

Lemma select_stale_elem_of (w : WarmDB) (rewarmAfter : Z)
    (urls : list string) (u : string) :
  forall checked,
    u ∈ select w rewarmAfter checked urls <->
    exists pre post,
      urls = pre ++ u :: post /\
      ShouldWarm w (clock (checked ++ pre)) u rewarmAfter = Ok true.
Proof.
  induction urls as [|u0 rest IH]; intros checked; simpl.
  - split; [by intros ?%not_elem_of_nil|].
    intros ([|??] & post & Heq & _); discriminate.
  - assert (Hrest :
      u ∈ select w rewarmAfter (checked ++ [u0]) rest <->
      exists pre post,
        u0 :: rest = (u0 :: pre) ++ u :: post /\
        ShouldWarm w (clock (checked ++ u0 :: pre)) u rewarmAfter = Ok true).
    { rewrite IH. split.
      - intros (pre & post & -> & Hs). exists pre, post.
        split; [done|]. by rewrite <- app_assoc in Hs.
      - intros (pre & post & [= ->] & Hs). exists pre, post.
        split; [done|]. by rewrite <- app_assoc. }
    assert (Hlater :
      (exists pre post,
         u0 :: rest = pre ++ u :: post /\
         ShouldWarm w (clock (checked ++ pre)) u rewarmAfter = Ok true) <->
      (u = u0 /\ ShouldWarm w (clock checked) u0 rewarmAfter = Ok true) \/
      u ∈ select w rewarmAfter (checked ++ [u0]) rest).
    { rewrite Hrest. split.
      - intros ([|e pre] & post & Heq & Hs).
        + injection Heq as <- _. left. split; [done|].
          by rewrite app_nil_r in Hs.
        + injection Heq as <- ->. right. by exists pre, post.
      - intros [[-> Hs] | (pre & post & Heq & Hs)].
        + exists [], rest. split; [done|]. by rewrite app_nil_r.
        + by exists (u0 :: pre), post. }
    rewrite Hlater.
    destruct (ShouldWarm w (clock checked) u0 rewarmAfter) as [[|]|e].
    + rewrite elem_of_cons. naive_solver.
    + naive_solver.
    + naive_solver.
Qed.

(** The URL has no row, or a row whose [last_warmed_utc] is a time before
    [f]. *)
Definition warmed_before (w : WarmDB) (f : Z) (u : string) : Prop :=
  warmed_url w !! u = None \/
  exists r s t, warmed_url w !! u = Some r /\
    last_warmed_utc r = Some s /\ time_Parse_RFC3339 s = Some t /\ t < f.

Lemma select_stale_flushed (w : WarmDB) (rewarmAfter : Z)
    (urls : list string) (f : Z) :
  GetLastFlush w = Ok (Some f) ->
  forall checked,
    (forall u, u ∈ urls -> warmed_before w f u) ->
    select w rewarmAfter checked urls = urls.
Proof.
  intros Hlf. induction urls as [|u rest IH]; intros checked Hall; simpl;
    [done|].
  assert (Hu : ShouldWarm w (clock checked) u rewarmAfter = Ok true).
  { destruct (Hall u) as [Hnone | (r & s & t & Hr & Hs & Ht & Hlt)];
      [by left | |].
    - unfold ShouldWarm. by rewrite Hlf, Hnone.
    - by apply (ShouldWarm_flushed w _ u _ r s t f). }
  rewrite Hu. f_equal. apply IH. intros v Hv. apply Hall. by right.
Qed.

(** X21: The URLs [runOnce] warms: those of the de-duplicated list for which
    [ShouldWarm] answers true when their turn comes, in the order of the
    list; a URL whose check fails is left out.  So when the flush marker
    cannot be read nothing is warmed; when it can, every URL never warmed
    is; and after a flush later than every stored warm, the whole list
    is. *)
Theorem toWarm_spec (w : WarmDB) (RewarmAfterHours : Z)
    (uniqueURLs : list string) :
  toWarm clock w RewarmAfterHours uniqueURLs `sublist_of` uniqueURLs /\
  (NoDup uniqueURLs -> NoDup (toWarm clock w RewarmAfterHours uniqueURLs)) /\
  (forall u,
     u ∈ toWarm clock w RewarmAfterHours uniqueURLs <->
     exists pre post,
       uniqueURLs = pre ++ u :: post /\
       ShouldWarm w (clock pre) u (rewarmAfter_of RewarmAfterHours) = Ok true) /\
  (forall e, GetLastFlush w = Err e ->
     toWarm clock w RewarmAfterHours uniqueURLs = []) /\
  (forall lastFlush u,
     GetLastFlush w = Ok lastFlush -> u ∈ uniqueURLs ->
     warmed_url w !! u = None ->
     u ∈ toWarm clock w RewarmAfterHours uniqueURLs) /\
  (forall f,
     GetLastFlush w = Ok (Some f) ->
     (forall u, u ∈ uniqueURLs -> warmed_before w f u) ->
     toWarm clock w RewarmAfterHours uniqueURLs = uniqueURLs).
Proof.
  unfold toWarm.
  pose proof (select_stale_sublist w (rewarmAfter_of RewarmAfterHours)
                uniqueURLs []) as Hsub.
  split; [exact Hsub|].
  split; [intros Hnd; eauto using sublist_NoDup|].
  split; [intros u; by rewrite select_stale_elem_of|].
  split; [|split].
  - intros e He.
    destruct (select (w) (rewarmAfter_of RewarmAfterHours) [] uniqueURLs)
      as [|u l] eqn:Hsel; [done|].
    assert (Hu : u ∈ select w (rewarmAfter_of RewarmAfterHours) []
                     uniqueURLs) by (rewrite Hsel; by left).
    apply select_stale_elem_of in Hu as (pre & post & _ & Hs).
    unfold ShouldWarm in Hs. rewrite He in Hs. discriminate.
  - intros lastFlush u Hlf Hu Hrow.
    apply select_stale_elem_of.
    apply list_elem_of_split in Hu as (pre & post & ->).
    exists pre, post. split; [done|].
    unfold ShouldWarm. by rewrite Hlf, Hrow.
  - intros f Hlf Hall. by apply (select_stale_flushed w _ _ f).
Qed.

End SelectingProperties.

(* ===================================================================== *)
(** * Properties of the flush command *)
(* ===================================================================== *)

Section CommandProperties.
Context {lib : GoLib}.
Variable clock : list string -> Z.


End CommandProperties.

(* ===================================================================== *)
(** * Properties of the load gate *)
(* ===================================================================== *)

(** A float that is not a number compares false with everything. *)
Lemma Prim2SF_is_nan (x : PrimFloat.float) :
  PrimFloat.is_nan x = true -> FloatOps.Prim2SF x = SpecFloat.S754_nan.
Proof.
  unfold PrimFloat.is_nan. rewrite FloatAxioms.eqb_spec.
  destruct (FloatOps.Prim2SF x) as [s|s| |s m e]; try done.
  - by destruct s.
  - unfold SpecFloat.SFeqb, SpecFloat.SFcompare.
    rewrite Z.compare_refl, Pos.compare_refl. by destruct s.
Qed.

Lemma leb_nan (x y : PrimFloat.float) :
  PrimFloat.is_nan y = true -> PrimFloat.leb x y = false.
Proof.
  intros Hy. rewrite FloatAxioms.leb_spec, (Prim2SF_is_nan y Hy).
  unfold SpecFloat.SFleb, SpecFloat.SFcompare.
  destruct (FloatOps.Prim2SF x) as [s|s| |s m e]; try done; by destruct s.
Qed.

Lemma ltb_nan (x y : PrimFloat.float) :
  PrimFloat.is_nan x = true -> PrimFloat.ltb x y = false.
Proof.
  intros Hx. rewrite FloatAxioms.ltb_spec, (Prim2SF_is_nan x Hx).
  reflexivity.
Qed.

(** A pass of [waitForLoad] that goes on to the next one. *)
Definition load_too_high (cfg : LoadConfig) (v : load_view) : Prop :=
  lv_done v = false /\ lv_done_asleep v = false /\
  exists load, lv_load v = Some load /\
    PrimFloat.leb load (MaxLoad cfg) = false.

(** A pass of [waitForLoad] that returns nil. *)
Definition load_passes (cfg : LoadConfig) (v : load_view) : Prop :=
  lv_done v = false /\
  (lv_load v = None \/
   exists load, lv_load v = Some load /\
     PrimFloat.leb load (MaxLoad cfg) = true).

Lemma waitForLoad_nil (cfg : LoadConfig) (views : list load_view) :
  waitForLoad cfg views = Some None <->
  exists pre v post,
    views = pre ++ v :: post /\
    (forall p, p ∈ pre -> load_too_high cfg p) /\ load_passes cfg v.
Proof.
  induction views as [|v0 rest IH]; simpl.
  - split; [discriminate|]. intros ([|??] & v & post & Heq & _); discriminate.
  - assert (Hlater :
      (exists pre v post,
         v0 :: rest = pre ++ v :: post /\
         (forall p, p ∈ pre -> load_too_high cfg p) /\ load_passes cfg v) <->
      load_passes cfg v0 \/
      (load_too_high cfg v0 /\ waitForLoad cfg rest = Some None)).
    { rewrite IH. split.
      - intros ([|p pre] & v & post & Heq & Hpre & Hv).
        + injection Heq as <- _. by left.
        + injection Heq as <- ->. right. split; [apply Hpre; by left|].
          exists pre, v, post. split; [done|]. split; [|done].
          intros q Hq. apply Hpre. by right.
      - intros [Hv | (Hhigh & pre & v & post & -> & Hpre & Hv)].
        + exists [], v0, rest. split; [done|]. split; [|done].
          intros q Hq. by apply not_elem_of_nil in Hq.
        + exists (v0 :: pre), v, post. split; [done|]. split; [|done].
          intros q [->|Hq]%elem_of_cons; [done | by apply Hpre]. }
    rewrite Hlater. unfold load_passes, load_too_high.
    destruct (lv_done v0).
    { split; [discriminate|].
      intros [[? _] | [[? _] _]]; discriminate. }
    destruct (lv_load v0) as [load|].
    2:{ split; [intros _; left; split; [done | by left]|done]. }
    destruct (PrimFloat.leb load (MaxLoad cfg)) eqn:Hle.
    { split; [|done]. intros _. left. split; [done|]. right. by exists load. }
    destruct (lv_done_asleep v0).
    + split; [discriminate|].
      intros [[_ [? | (l & [= <-] & Hl)]] | [(_ & ? & _) _]];
        [discriminate | congruence | discriminate].
    + split.
      * intros Hrest. right. split; [|done].
        split; [done|]. split; [done|]. by exists load.
      * intros [[_ [? | (l & [= <-] & Hl)]] | [_ Hrest]];
          [discriminate | congruence | done].
Qed.

(** X23: The load gate.  [waitForLoad] returns nil from the first pass that
    finds the context alive and the load unreadable or at most [MaxLoad],
    every pass before it having slept through a load above [MaxLoad]; the
    only error it returns is that of the context.  A [MaxLoad] that is not
    a number is not below zero, the test of [validateConfig], and with it
    the gate never opens while the load can be read. *)
Theorem waitForLoad_spec (cfg : LoadConfig) (views : list load_view) :
  (waitForLoad cfg views = Some None <->
   exists pre v post,
     views = pre ++ v :: post /\
     (forall p, p ∈ pre -> load_too_high cfg p) /\ load_passes cfg v) /\
  (forall e, waitForLoad cfg views = Some (Some e) -> e = ErrContext) /\
  (PrimFloat.is_nan (MaxLoad cfg) = true ->
   PrimFloat.ltb (MaxLoad cfg) PrimFloat.zero = false /\
   ((forall v, v ∈ views -> lv_load v <> None) ->
    waitForLoad cfg views <> Some None)).
Proof.
  split; [apply waitForLoad_nil|]. split.
  - induction views as [|v rest IH]; simpl; intros e He; [discriminate|].
    destruct (lv_done v); [by injection He as <-|].
    destruct (lv_load v) as [load|]; [|discriminate].
    destruct (PrimFloat.leb load (MaxLoad cfg)); [discriminate|].
    destruct (lv_done_asleep v); [by injection He as <- | by apply IH].
  - intros Hnan. split; [by apply ltb_nan|].
    intros Hread (pre & v & post & -> & _ & _ & Hv)%waitForLoad_nil.
    destruct Hv as [Hnone | (load & _ & Hle)].
    + apply (Hread v); [|done]. apply elem_of_app. right. by left.
    + by rewrite leb_nan in Hle.
Qed.

(* ===================================================================== *)
(** * Properties of the validation of the configuration *)
(* ===================================================================== *)

Section ValidationProperties.
Variable url_Parse : string -> parsed_url.

Lemma validate_urls_sound (urls : list string) :
  forall i, validate_urls url_Parse i urls = None ->
    forall u, u ∈ urls ->
      exists scheme host,
        url_Parse u = ParsedURL scheme host /\ host <> ""%string /\
        (scheme = "http"%string \/ scheme = "https"%string).
Proof.
  induction urls as [|u0 rest IH]; intros i Hrun u Hu.
  - by apply not_elem_of_nil in Hu.
  - simpl in Hrun.
    destruct (url_Parse u0) as [err|scheme host] eqn:Hparse; [discriminate|].
    destruct (String.eqb_spec scheme "") as [|Hscheme]; [discriminate|].
    destruct (String.eqb_spec host "") as [|Hhost]; [discriminate|].
    simpl in Hrun.
    assert (Hok : scheme = "http"%string \/ scheme = "https"%string).
    { destruct (String.eqb_spec scheme "http") as [|Hhttp]; [by left|].
      destruct (String.eqb_spec scheme "https") as [|Hhttps]; [by right|].
      discriminate. }
    assert (Hrest : validate_urls url_Parse (i + 1) rest = None).
    { destruct Hok as [-> | ->]; exact Hrun. }
    apply elem_of_cons in Hu as [->|Hu]; [|by apply (IH (i + 1))].
    by exists scheme, host.
Qed.

(** X24: A configuration [validateConfig] accepts: every bound it checks
    holds, neither float is below zero, and every sitemap URL parses with a
    host and the scheme http or https.  The limiter [NewCacheWarmer]
    builds from it has a floor of 1 and admits between 1 and [Concurrency]
    workers; the retry loops make at least one attempt unless [Retries] is
    the largest int; and the rewarm interval is [RewarmAfterHours] hours,
    positive, up to 2562047 hours (beyond, the Duration overflows). *)
Theorem validateConfig_sound (cfg : Config) :
  validateConfig url_Parse cfg = None ->
  (1 <= Concurrency (cfg_HTTP cfg) /\
   1 <= TimeoutSeconds (cfg_HTTP cfg) /\
   1 <= ConnectTimeoutSeconds (cfg_HTTP cfg) /\
   0 <= MaxRedirects (cfg_HTTP cfg) /\
   0 <= MinDelayMS (cfg_HTTP cfg) /\
   0 <= Retries (cfg_HTTP cfg) /\
   1 <= RewarmAfterHours (cfg_App cfg) /\
   (Loop (cfg_App cfg) = true -> 1 <= LoopIntervalSeconds (cfg_App cfg)) /\
   1 <= CheckIntervalSeconds (cfg_Load cfg)) /\
  PrimFloat.ltb (RetryBackoffSeconds (cfg_HTTP cfg)) PrimFloat.zero = false /\
  PrimFloat.ltb (MaxLoad (cfg_Load cfg)) PrimFloat.zero = false /\
  (forall u, u ∈ Sitemaps_URLs (cfg_Sitemaps cfg) ->
     exists scheme host,
       url_Parse u = ParsedURL scheme host /\ host <> ""%string /\
       (scheme = "http"%string \/ scheme = "https"%string)) /\
  limiter_inv (Concurrency (cfg_HTTP cfg)) (NewCacheWarmer_rl (cfg_HTTP cfg)) /\
  (Retries (cfg_HTTP cfg) < max_int64 -> 1 <= attempts_limit (cfg_HTTP cfg)) /\
  (RewarmAfterHours (cfg_App cfg) <= 2562047 ->
   rewarmAfter_of (RewarmAfterHours (cfg_App cfg))
     = RewarmAfterHours (cfg_App cfg) * Hour /\
   0 < rewarmAfter_of (RewarmAfterHours (cfg_App cfg))).
Proof.
  unfold validateConfig. cbv zeta.
  destruct (Z.ltb_spec (Concurrency (cfg_HTTP cfg)) 1); [discriminate|].
  destruct (Z.ltb_spec (TimeoutSeconds (cfg_HTTP cfg)) 1); [discriminate|].
  destruct (Z.ltb_spec (ConnectTimeoutSeconds (cfg_HTTP cfg)) 1);
    [discriminate|].
  destruct (Z.ltb_spec (MaxRedirects (cfg_HTTP cfg)) 0); [discriminate|].
  destruct (Z.ltb_spec (MinDelayMS (cfg_HTTP cfg)) 0); [discriminate|].
  destruct (Z.ltb_spec (Retries (cfg_HTTP cfg)) 0); [discriminate|].
  destruct (PrimFloat.ltb (RetryBackoffSeconds (cfg_HTTP cfg)) PrimFloat.zero);
    [discriminate|].
  destruct (Z.ltb_spec (RewarmAfterHours (cfg_App cfg)) 1); [discriminate|].
  destruct (Loop (cfg_App cfg) && (LoopIntervalSeconds (cfg_App cfg) <? 1))
    eqn:Hloop; [discriminate|].
  destruct (PrimFloat.ltb (MaxLoad (cfg_Load cfg)) PrimFloat.zero);
    [discriminate|].
  destruct (Z.ltb_spec (CheckIntervalSeconds (cfg_Load cfg)) 1);
    [discriminate|].
  intros Hurls.
  split.
  { repeat (split; [done|]). split; [|done].
    intros Hl. rewrite Hl in Hloop. simpl in Hloop.
    by apply Z.ltb_ge in Hloop. }
  split; [done|]. split; [done|].
  split; [exact (validate_urls_sound _ 0 Hurls)|].
  split.
  { unfold limiter_inv, NewCacheWarmer_rl, newRateLimiter. simpl. lia. }
  split.
  { intros Hmax. unfold attempts_limit.
    rewrite wrap64_small by (unfold min_int64, max_int64 in *; lia). lia. }
  intros Hhours. unfold rewarmAfter_of, hours.
  assert (HHour : Hour = 3600000000000) by reflexivity.
  rewrite wrap64_small by (unfold min_int64, max_int64; lia). lia.
Qed.

End ValidationProperties.

(* ===================================================================== *)
(** * Examples of the further properties *)
(* ===================================================================== *)

Section FurtherExamples.
#[local] Existing Instance go_model.

Lemma MarkWarmed_then_ShouldWarm_witness :
  ShouldWarm (MarkWarmed warmed2 (t0 + Second) url_a 200 ""%string).1
    (t0 + 2 * Second) url_a (hours 24) = Ok false.
Proof.
  destruct (MarkWarmed_then_ShouldWarm warmed2 (t0 + Second) url_a 200
              ""%string None (t0 + 2 * Second) (hours 24)) as [_ Hfresh].
  - vm_compute. reflexivity.
  - vm_compute. reflexivity.
  - vm_compute. reflexivity.
  - intros f Hf. discriminate.
  - apply Hfresh.
    + split; [vm_compute; reflexivity | vm_compute; discriminate].
    + vm_compute. reflexivity.
Defined.

Lemma Stats_counts_disjoint_witness :
  0 + 2 <= 2 /\ 2 = Z.of_nat (size (warmed_url warmed2)).
Proof.
  destruct (Stats_counts_disjoint warmed2
              {| WarmedTotal := 2; OKTotal := 0; ErrTotal := 2;
                 LastFlushUTC := ""%string |})
    as (_ & _ & Hsum & Htotal & _).
  - vm_compute. reflexivity.
  - split; [exact Hsum | exact Htotal].
Defined.

Lemma slots_within_capacity_witness :
  slots_ok (onSuccess (newRateLimiter 8 120 50)).
Proof.
  destruct (slots_within_capacity (newRateLimiter 8 120 50))
    as (_ & _ & Hsuccess & _).
  - split; vm_compute; discriminate.
  - vm_compute. discriminate.
  - apply Hsuccess. vm_compute. discriminate.
Defined.

Lemma onSuccess_recovers_by_one_witness :
  currentConcurrency
    (limiter_run (on429 t0 0 (newRateLimiter 8 120 50))
       (replicate (Z.to_nat 50) OnSuccess)) = 4 + 1.
Proof.
  destruct (onSuccess_recovers_by_one (on429 t0 0 (newRateLimiter 8 120 50)))
    as (_ & Hup & _).
  - reflexivity.
  - split; vm_compute; discriminate.
  - vm_compute. discriminate.
  - split; [vm_compute; reflexivity | vm_compute; discriminate].
  - exact Hup.
Defined.

(** A worker whose URL is answered 429 once, then 200. *)
Definition cfg0 : HTTPConfig :=
  {| UserAgent := "cache-warmer"; TimeoutSeconds := 30;
     ConnectTimeoutSeconds := 10; MaxRedirects := 5; Concurrency := 8;
     MinDelayMS := 0; Retries := 2; RetryBackoffSeconds := PrimFloat.one;
     RateLimitCooldownSeconds := 120; RateLimitRecoverAfter := 50 |}.

Definition ctx_live (tr : list warm_event) : bool := false.
Definition load_ok (tr : list warm_event) : option string := None.
Definition slot_free (tr : list warm_event) : option string := None.
Definition clock_w (tr : list warm_event) : Z :=
  t0 + Z.of_nat (length tr) * Second.
Definition request_ok (url : string) : option string := None.

(** [%d] of a status of three digits. *)
Definition fmt_d3 (z : Z) : string :=
  string_of_list_ascii
    [GoModel.digit_char (z / 100); GoModel.digit_char (z / 10);
     GoModel.digit_char z].

Definition throttled_once (tr : list warm_event) (url : string)
  : http_outcome :=
  if (count_event is_WRequest tr <? 1)%nat
  then Response 429 "1" ""
  else Response 200 "" "ok".

Definition warm_trace : list warm_event :=
  [WLoadGate; WRequest url_a; WOn429 (1 * Second); WRelease;
   WCooldown (1 * Second); WAcquire; WRequest url_a; WOnSuccess].

Lemma warm_trace_run :
  warmOne ctx_live load_ok throttled_once slot_free clock_w request_ok fmt_d3
    cfg0 1 url_a [] = Some (200, ""%string, false, warm_trace).
Proof. vm_compute. reflexivity. Qed.

Lemma warmOne_slot_protocol_witness :
  exists new, warm_trace = [] ++ new /\
    count_event is_WRelease new = (count_event is_WAcquire new + 0)%nat /\
    count_event is_WMarkWarmed new = 0%nat.
Proof.
  apply (warmOne_slot_protocol ctx_live load_ok throttled_once slot_free
           clock_w request_ok fmt_d3 cfg0 1 url_a [] 200 ""%string false).
  exact warm_trace_run.
Defined.

Lemma warmOne_success_report_witness :
  exists new, warm_trace = [] ++ new /\
    (count_event is_WOnSuccess new <= 1)%nat.
Proof.
  destruct (warmOne_success_report ctx_live load_ok throttled_once slot_free
              clock_w request_ok fmt_d3 cfg0 1 url_a [] 200 ""%string false
              warm_trace warm_trace_run) as (new & Hnew & _ & Hle & _).
  exists new. split; [exact Hnew | exact Hle].
Defined.

Lemma warmOne_429_not_counted_witness :
  exists new,
    warm_rounds ctx_live throttled_once slot_free clock_w request_ok fmt_d3
      cfg0 1 url_a [] = Some (200, ""%string, false, [] ++ new) /\
    count_event is_WRequest new = 2%nat /\
    count_event is_WOnSuccess new = 1%nat.
Proof.
  apply (warmOne_429_not_counted ctx_live throttled_once slot_free clock_w
           request_ok fmt_d3 cfg0 1 200 url_a).
  - vm_compute. discriminate.
  - reflexivity.
  - intros tr. reflexivity.
  - intros tr. reflexivity.
  - vm_compute. reflexivity.
  - intros tr Hlt. unfold throttled_once.
    destruct (Nat.ltb_spec (count_event is_WRequest tr) 1); [eauto | lia].
  - intros tr Heq. unfold throttled_once.
    destruct (Nat.ltb_spec (count_event is_WRequest tr) 1); [lia | eauto].
  - reflexivity.
  - lia.
Defined.

Definition worker_trace : list warm_event :=
  [WAcquire] ++ warm_trace ++ [WMarkWarmed url_a 200 ""; WRelease].


(** The end of the run of the collector on the cycle. *)
Definition cycle_end : CacheWarmer :=
  match collectURLsFromSitemap web never_done clock0 3 sitemap_a fresh with
  | Some (_, _, c') => c'
  | None => fresh
  end.

Lemma cycle_run :
  collectURLsFromSitemap web never_done clock0 3 sitemap_a fresh
  = Some (["https://x/p"%string], None, cycle_end).
Proof. vm_compute. reflexivity. Qed.

Lemma collector_records_sitemaps_witness :
  sitemap_seen (db cycle_end) !! sitemap_b =
  Some {| last_fetched_utc := Some "2026-01-07T12:00:05Z"%string;
          sitemap_last_error := Some ""%string |}.
Proof.
  destruct (collector_records_sitemaps web never_done clock0 3 sitemap_a fresh
              cycle_end ["https://x/p"%string] None cycle_run)
    as (new & Hev & _ & _ & _ & Hrow).
  rewrite (Hrow [EvSeen sitemap_a; EvFetch sitemap_a;
                 EvMarkSitemap sitemap_a ""; EvSeen sitemap_b]
             sitemap_b [EvMarkSitemap sitemap_b ""]).
  - vm_compute. reflexivity.
  - change (events fresh ++ new) with new in Hev. rewrite <- Hev.
    vm_compute. reflexivity.
Defined.

Lemma collector_result_witness :
  exists rest, ["https://x/p"%string] = pages_of doc_a ++ rest.
Proof.
  pose proof (collector_result web never_done clock0 3 sitemap_a fresh
                cycle_end ["https://x/p"%string] None cycle_run) as Hres.
  change (web (events fresh ++ [EvSeen sitemap_a]) sitemap_a)
    with (Ok doc_a) in Hres.
  cbv beta iota in Hres.
  destruct Hres as [[Hprefix _] _]; [apply not_elem_of_empty | exact Hprefix].
Defined.

(** A configuration as the example file of the program has it. *)
Definition url_Parse_x (u : string) : parsed_url :=
  if String.eqb u sitemap_a then ParsedURL "https" "x"
  else ParseError "missing protocol scheme".

Definition config0 : Config :=
  {| cfg_App := {| DBPath := "warm.db"; LogFile := "warm.log";
                   LogLevel := "INFO"; RewarmAfterHours := 24; Loop := true;
                   LoopIntervalSeconds := 900 |};
     cfg_HTTP := cfg0;
     cfg_Load := {| MaxLoad := PrimFloat.one; CheckIntervalSeconds := 2 |};
     cfg_Sitemaps := {| Sitemaps_URLs := [sitemap_a] |} |}.

Lemma validateConfig_sound_witness :
  1 <= attempts_limit cfg0 /\ rewarmAfter_of 24 = 24 * Hour.
Proof.
  destruct (validateConfig_sound url_Parse_x config0)
    as (_ & _ & _ & _ & _ & Hattempts & Hrewarm).
  - vm_compute. reflexivity.
  - split.
    + apply Hattempts. vm_compute. reflexivity.
    + apply Hrewarm. vm_compute. discriminate.
Defined.

(** A flush two seconds after the basic warm. *)
Definition clock_s (checked : list string) : Z :=
  t0 + 3 * Second + Z.of_nat (length checked) * ms.


End FurtherExamples.
